(** * Lead classification pipeline: bounded-concurrency batch processing

    A shallow embedding of the automation script in its batched version
    ([runWithConcurrency], [readCSV], [filterDuplicates], [classifyLead],
    [classifyLeads], [addLeadsToDatabase], [sendLeadsToWebhook] and [main]),
    together with the properties of the stage sequence
    deduplicate -> classify -> persist -> deliver.  Module [Legacy] embeds
    the earlier sequential version of the script ([isDuplicate],
    [classifyLead], [addLeadToDatabase], [sendToWebhook], [processLead],
    [main]) and module [Checks] the connection checks ([testSupabase],
    [testClaude], [testWebhook], [runTests]).

    Conventions of the embedding.
    - A JavaScript promise that has settled is a value of [Settled]:
      [Resolved v] or [Rejected e], where [e] is the error's [message].
    - A call of an [async] function runs synchronously up to its first
      [await] (the "start", e.g. issuing an HTTP request) and later runs its
      continuation (the "finish").  A started call is a [Task]: a [latency]
      (when the awaited reply arrives, chosen by the environment) and the
      continuation [finish].  All operations of this program await exactly
      one external reply, so one continuation per task suffices.
    - The external collaborators (store, classification service, webhook)
      are an environment [Env] of reply functions that see the history of
      all requests issued so far.
    - Program state is threaded explicitly: the request log, the console and
      (for the webhook sender) the two closure counters. *)

From Stdlib Require Import Ascii String.
From stdpp Require Import gmap strings list.

(** ** JavaScript values that occur in the program *)

(** The [message] of a thrown error or rejected promise. *)
Definition Error := string.

Inductive Settled (B : Type) : Type :=
  | Resolved (v : B)
  | Rejected (e : Error).
Arguments Resolved {B} v.
Arguments Rejected {B} e.

(** Scheduler events, for tracking which operations are in flight: the
    operation for the item at (global) index [i] was called, resp. its promise
    settled. *)
Inductive SchedEvent :=
  | EvStart (i : nat)
  | EvSettle (i : nat).

(** Number of operations started and not yet settled after a trace. *)
Fixpoint in_flight (tr : list SchedEvent) : Z :=
  match tr with
  | [] => 0%Z
  | EvStart _ :: tr' => (1 + in_flight tr')%Z
  | EvSettle _ :: tr' => (in_flight tr' - 1)%Z
  end.

(** [Array.prototype.slice(start, end)] for [0 <= start <= end]. *)
Definition slice {A} (l : list A) (start stop : nat) : list A :=
  take (stop - start) (drop start l).

(** ** The concurrency helper *)

Section Limiter.
Context {W A B : Type}.

Record Task := mkTask {
  latency : nat;
  finish : W → W * Settled B
}.

(** An [async] callback as [Array.prototype.map] calls it: with the
    element, its index in the mapped array, and the array. *)
Definition AsyncFn := A → nat → list A → W → W * Task.

(** A callback that only looks at its first argument. *)
Definition per_item (op : A → W → W * Task) : AsyncFn :=
  λ x _ _ w, op x w.

(** [arr.map(fn)]: the calls happen synchronously, in index order. *)
Fixpoint array_map_from (fn : AsyncFn) (arr : list A) (k : nat)
    (xs : list A) (w : W) : W * list Task :=
  match xs with
  | [] => (w, [])
  | x :: xs' =>
      let '(w1, t) := fn x k arr w in
      let '(w2, ts) := array_map_from fn arr (S k) xs' w1 in
      (w2, t :: ts)
  end.

Definition array_map (fn : AsyncFn) (arr : list A) (w : W) : W * list Task :=
  array_map_from fn arr 0 arr w.

(** Tasks paired with their index in the array. *)
Fixpoint indexed_from (k : nat) (ts : list Task) : list (nat * Task) :=
  match ts with
  | [] => []
  | t :: ts' => (k, t) :: indexed_from (S k) ts'
  end.

(** The order in which pending tasks settle: by latency, ties in index
    order (stable insertion). *)
Fixpoint settle_before (p : nat * Task) (l : list (nat * Task))
    : list (nat * Task) :=
  match l with
  | [] => [p]
  | q :: l' =>
      if decide (latency p.2 ≤ latency q.2) then p :: q :: l'
      else q :: settle_before p l'
  end.

Definition completion_order (ts : list (nat * Task)) : list (nat * Task) :=
  foldr settle_before [] ts.

(** [Promise.all]: as each promise resolves its value is stored at its
    index; the first rejection rejects the combined promise at once (the
    tasks still pending then are left to themselves and no longer followed).
    [i0] is the global index of the first task, used for the events. *)
Fixpoint promise_all_settle (i0 : nat) (order : list (nat * Task))
    (values : list (option B)) (w : W)
    : W * list SchedEvent * Settled (list (option B)) :=
  match order with
  | [] => (w, [], Resolved values)
  | (k, t) :: order' =>
      let '(w1, r) := finish t w in
      match r with
      | Resolved v =>
          let '(w2, tr, out) :=
            promise_all_settle i0 order' (<[k := Some v]> values) w1 in
          (w2, EvSettle (i0 + k) :: tr, out)
      | Rejected e => (w1, [EvSettle (i0 + k)], Rejected e)
      end
  end.

Definition promise_all (i0 : nat) (tasks : list Task) (w : W)
    : W * list SchedEvent * Settled (list B) :=
  let '(w1, tr, out) :=
    promise_all_settle i0 (completion_order (indexed_from 0 tasks))
      (replicate (length tasks) None) w in
  match out with
  | Resolved values => (w1, tr, Resolved (omap id values))
  | Rejected e => (w1, tr, Rejected e)
  end.

(** What a run of the helper leaves behind. *)
Record Run := mkRun {
  run_world : W;
  run_trace : list SchedEvent;
  run_outcome : Settled (list B)
}.

(** The [for] loop of [runWithConcurrency]; [i] and [results] are the
    loop variables.  The loop does not terminate for [concurrency = 0],
    hence the fuel ([None]: still running). *)
Fixpoint runWithConcurrency_loop (fuel : nat) (items : list A)
    (concurrency : nat) (fn : AsyncFn) (i : nat) (results : list B) (w : W)
    : option Run :=
  match fuel with
  | 0 => None
  | S fuel' =>
      if decide (i < length items) then
        let batch := slice items i (i + concurrency) in
        let '(w1, tasks) := array_map fn batch w in
        let starts := EvStart <$> seq i (length batch) in
        match promise_all i tasks w1 with
        | (w2, settles, Resolved batchResults) =>
            match runWithConcurrency_loop fuel' items concurrency fn
                    (i + concurrency) (results ++ batchResults) w2 with
            | Some r =>
                Some (mkRun (run_world r)
                        (starts ++ settles ++ run_trace r) (run_outcome r))
            | None => None
            end
        | (w2, settles, Rejected e) =>
            Some (mkRun w2 (starts ++ settles) (Rejected e))
        end
      else Some (mkRun w [] (Resolved results))
  end.

Definition runWithConcurrency (items : list A) (concurrency : nat)
    (fn : AsyncFn) (w : W) : option Run :=
  runWithConcurrency_loop (S (length items)) items concurrency fn 0 [] w.

End Limiter.

Arguments Task : clear implicits.
Arguments AsyncFn : clear implicits.
Arguments Run : clear implicits.

(** Awaiting a task inside an [async] function: the rest of the function
    runs on the resolved value; a rejection propagates. *)
Definition await {W B C} (t : Task W B) (k : B → W → W * Settled C)
    : Task W C :=
  mkTask (latency t)
    (λ w, let '(w1, r) := finish t w in
          match r with
          | Resolved v => k v w1
          | Rejected e => (w1, Rejected e)
          end).

(** ** Data model *)

(** Property reads yield a string, [undefined] (missing property) or [null]
    (a database NULL). *)
Inductive value :=
  | VUndefined
  | VNull
  | VString (s : string).

#[global] Instance value_eq_dec : EqDecision value.
Proof. solve_decision. Defined.

Definition value_code (v : value) : option (option string) :=
  match v with
  | VUndefined => None
  | VNull => Some None
  | VString s => Some (Some s)
  end.

Definition value_decode (o : option (option string)) : value :=
  match o with
  | None => VUndefined
  | Some None => VNull
  | Some (Some s) => VString s
  end.

#[global] Instance value_countable : Countable value.
Proof.
  apply (inj_countable' value_code value_decode). by intros [].
Defined.

(** A row of the CSV file parsed with [columns: true]: an object from
    header names to cell texts. *)
Abbreviation Lead := (gmap string string).

(** [lead[k]] *)
Definition get (lead : Lead) (k : string) : value :=
  match lead !! k with
  | Some s => VString s
  | None => VUndefined
  end.

(** [{ lead, persona }] *)
Record Classified := mkClassified {
  c_lead : Lead;
  c_persona : string
}.

(** A row of the [leads] table as sent to [insert]. *)
Record StoredRow := mkRow {
  row_first_name : value;
  row_last_name : value;
  row_job_title : value;
  row_company : value;
  row_email : value;
  row_phone : value;
  row_persona : string;
  row_lead_status : string
}.

(** The webhook payload.  Its [processed_at] field (the wall clock) is not
    modelled. *)
Record Payload := mkPayload {
  pl_first_name : value;
  pl_last_name : value;
  pl_job_title : value;
  pl_company : value;
  pl_email : value;
  pl_phone : value;
  pl_persona : string
}.

(** The classification prompt: a fixed rule text around the four
    interpolated fields, which are all that is kept here. *)
Record Prompt := mkPrompt {
  prompt_first_name : value;
  prompt_last_name : value;
  prompt_job_title : value;
  prompt_company : value
}.

(** [message.content]: the content blocks, each with its [text] if any. *)
Abbreviation Message := (list (option string)).

(** [{ data, error }] of the existence query; [data] holds [row.email] of
    every returned row. *)
Record SelectReply := mkSelectReply {
  sel_data : option (list value);
  sel_error : option Error
}.

(** [{ error }] of the bulk insert. *)
Record InsertReply := mkInsertReply {
  ins_error : option Error
}.

(** Requests sent to the external collaborators. *)
Inductive Call :=
  | CallSelect (emails : list value)
  | CallClassify (p : Prompt)
  | CallInsert (rows : list StoredRow)
  | CallPost (p : Payload).

(** The collaborators.  Each reply may depend on all requests issued so
    far; the concurrent ones also choose how long the reply takes. *)
Record Env := mkEnv {
  store_select : list Call → list value → Settled SelectReply;
  messages_create : list Call → Prompt → nat * Settled Message;
  store_insert : list Call → list StoredRow → Settled InsertReply;
  axios_post : list Call → Payload → nat * Settled nat
}.

(** The figures printed by the final summary (elapsed time left out). *)
Record RunSummary := mkSummary {
  sum_total : nat;
  sum_processed : nat;
  sum_skipped : nat;
  sum_failed_inserts : nat;
  sum_webhook_sent : nat;
  sum_webhook_failed : nat;
  sum_persona1 : nat;
  sum_persona2 : nat;
  sum_persona3 : nat;
  sum_persona4 : nat
}.

(** One constructor per [console.log]/[warn]/[error] call site, carrying the
    interpolated values.  The three lines of a banner are one [LogBanner],
    the lines of the final summary one [LogSummary], and the two lines of
    the fatal error one [LogFatal]. *)
Inductive LogLine :=
  | LogBanner (title : string)
  | LogReadingCsv
  | LogCsvRead (n : nat)
  | LogCsvError (e : Error)
  | LogCheckingDuplicates
  | LogDuplicateQueryError (e : Error)
  | LogSkipped (first last : value)
  | LogFound (duplicates fresh : nat)
  | LogDuplicateCheckThrew (e : Error)
  | LogUnexpectedClassification (first last : value) (classification : string)
  | LogClassifyError (first last : value) (e : Error)
  | LogClassifying (n concurrency : nat)
  | LogClassified (first last title : value) (persona : string)
  | LogAllClassified (n : nat)
  | LogInserting (n : nat)
  | LogInsertError (e : Error)
  | LogInserted (n : nat)
  | LogInsertThrew (e : Error)
  | LogSending (n concurrency : nat)
  | LogWebhookStatus (status : nat) (email : value)
  | LogWebhookError (email : value) (e : Error)
  | LogWebhookTotals (sent failed : nat)
  | LogNothingToProcess
  | LogSummary (s : RunSummary)
  | LogFinished
  | LogFatal (e : Error).

Record World := mkWorld {
  calls : list Call;
  console : list LogLine
}.

Definition log (l : LogLine) (w : World) : World :=
  mkWorld (calls w) (console w ++ [l]).

Definition issue (c : Call) (w : World) : World :=
  mkWorld (calls w ++ [c]) (console w).

(** ** Strings *)

(** Strings are sequences of code units below 256; the white space and line
    terminators of ECMAScript in that range are these ([is_white_space]
    has the full set, on 16-bit code units). *)
Definition is_space (c : ascii) : bool :=
  bool_decide (nat_of_ascii c ∈ [9; 10; 11; 12; 13; 32; 160]).

Fixpoint trimStart (s : string) : string :=
  match s with
  | EmptyString => EmptyString
  | String c s' => if is_space c then trimStart s' else s
  end.

Definition trim (s : string) : string :=
  String.rev (trimStart (String.rev (trimStart s))).

(** [strip_prefix p s]: the rest of [s] after [p], if [s] starts with [p]. *)
Fixpoint strip_prefix (p s : string) : option string :=
  match p, s with
  | EmptyString, _ => Some s
  | String a p', String b s' =>
      if decide (a = b) then strip_prefix p' s' else None
  | String _ _, EmptyString => None
  end.

Definition is_digit_1_4 (c : ascii) : bool :=
  bool_decide (49 ≤ nat_of_ascii c ≤ 52).

(** Does [/Persona [1-4]/] match at the very start of [s]? *)
Definition persona_here (s : string) : bool :=
  match strip_prefix "Persona " s with
  | Some (String c _) => is_digit_1_4 c
  | _ => false
  end.

(** [s.match(/Persona [1-4]/)] is not [null]: the pattern has no anchors,
    so it may match at any position. *)
Fixpoint matches_persona (s : string) : bool :=
  persona_here s ||
  match s with
  | EmptyString => false
  | String _ s' => matches_persona s'
  end.

(** The four category tokens. *)
Definition personas : list string :=
  ["Persona 1"; "Persona 2"; "Persona 3"; "Persona 4"].

(** ** The pipeline *)

Definition CONCURRENCY : nat := 5.

(** [{ newLeads, duplicateCount }] *)
Record DedupResult := mkDedup {
  newLeads : list Lead;
  duplicateCount : nat
}.

(** [{ success, count }] *)
Record DbResult := mkDbResult {
  success : bool;
  count : nat
}.

(** [{ successCount, failCount }] *)
Record WebhookResult := mkWebhookResult {
  successCount : nat;
  failCount : nat
}.

(** The state the webhook callbacks share: the world and the two [let]
    counters of [sendLeadsToWebhook] captured by the closure. *)
Record Sender := mkSender {
  sender_world : World;
  sender_success : nat;
  sender_fail : nat
}.

(** How [main] ends: by returning, or through [process.exit(1)]. *)
Inductive Exit :=
  | Returned
  | Exit1.

Definition to_row (c : Classified) : StoredRow :=
  let lead := c_lead c in
  mkRow (get lead "First Name") (get lead "Last Name") (get lead "Job Title")
    (get lead "Company") (get lead "Email") (get lead "Phone")
    (c_persona c) "Not Contacted".

Definition to_payload (c : Classified) : Payload :=
  let lead := c_lead c in
  mkPayload (get lead "First Name") (get lead "Last Name")
    (get lead "Job Title") (get lead "Company") (get lead "Email")
    (get lead "Phone") (c_persona c).

Definition to_prompt (lead : Lead) : Prompt :=
  mkPrompt (get lead "First Name") (get lead "Last Name")
    (get lead "Job Title") (get lead "Company").

(** [byPersona[persona]++] on the object with the four keys.  For any other
    key JavaScript stores [NaN] under a new key that is never read; that
    entry is left out. *)
Definition count_persona (byPersona : gmap string nat) (persona : string)
    : gmap string nat :=
  match byPersona !! persona with
  | Some n => <[persona := S n]> byPersona
  | None => byPersona
  end.

Definition byPersona_init : gmap string nat :=
  <["Persona 1" := 0]> (<["Persona 2" := 0]> (<["Persona 3" := 0]>
    (<["Persona 4" := 0]> ∅))).

Definition tally (classifiedLeads : list Classified) : gmap string nat :=
  foldl count_persona byPersona_init (c_persona <$> classifiedLeads).

Section Pipeline.
Variable env : Env.

(** [readCSV]; [csv] is the outcome of reading and parsing the file. *)
Definition readCSV (csv : Settled (list Lead)) (w : World)
    : World * Settled (list Lead) :=
  let w := log LogReadingCsv w in
  match csv with
  | Resolved records => (log (LogCsvRead (length records)) w, Resolved records)
  | Rejected e => (log (LogCsvError e) w, Rejected e)
  end.

(** The [for ... of] loop of [filterDuplicates]. *)
Fixpoint filterDuplicates_loop (existingEmails : gset value)
    (leads : list Lead) (newLeads : list Lead) (duplicateCount : nat)
    (w : World) : World * DedupResult :=
  match leads with
  | [] => (w, mkDedup newLeads duplicateCount)
  | lead :: leads' =>
      if decide (get lead "Email" ∈ existingEmails) then
        filterDuplicates_loop existingEmails leads' newLeads
          (S duplicateCount)
          (log (LogSkipped (get lead "First Name") (get lead "Last Name")) w)
      else
        filterDuplicates_loop existingEmails leads' (newLeads ++ [lead])
          duplicateCount w
  end.

Definition filterDuplicates (leads : list Lead) (w : World)
    : World * DedupResult :=
  let w := log LogCheckingDuplicates w in
  let emails := (λ lead, get lead "Email") <$> leads in
  let reply := store_select env (calls w) emails in
  let w := issue (CallSelect emails) w in
  match reply with
  | Resolved (mkSelectReply _ (Some e)) =>
      (log (LogDuplicateQueryError e) w, mkDedup leads 0)
  | Resolved (mkSelectReply (Some data) None) =>
      let existingEmails : gset value := list_to_set data in
      let '(w, r) := filterDuplicates_loop existingEmails leads [] 0 w in
      (log (LogFound (duplicateCount r) (length (newLeads r))) w, r)
  | Resolved (mkSelectReply None None) =>
      (* [data.map] on [null] throws inside the [try] *)
      (log (LogDuplicateCheckThrew
              "Cannot read properties of null (reading 'map')") w,
       mkDedup leads 0)
  | Rejected e => (log (LogDuplicateCheckThrew e) w, mkDedup leads 0)
  end.

Definition classifyLead (lead : Lead) (w : World)
    : World * Task World string :=
  let prompt := to_prompt lead in
  let '(lat, reply) := messages_create env (calls w) prompt in
  let failed e w' :=
    (log (LogClassifyError (get lead "First Name") (get lead "Last Name") e)
       w', Resolved "Persona 4") in
  (issue (CallClassify prompt) w,
   mkTask lat (λ w',
     match reply with
     | Resolved message =>
         match message !! 0 with
         | Some (Some text) =>
             let classification := trim text in
             if negb (matches_persona classification) then
               (log (LogUnexpectedClassification (get lead "First Name")
                       (get lead "Last Name") classification) w',
                Resolved "Persona 4")
             else (w', Resolved classification)
         | Some None =>
             failed "Cannot read properties of undefined (reading 'trim')" w'
         | None =>
             failed "Cannot read properties of undefined (reading 'text')" w'
         end
     | Rejected e => failed e w'
     end)).

(** The callback [classifyLeads] hands to the helper. *)
Definition classify_callback (lead : Lead) (w : World)
    : World * Task World Classified :=
  let '(w1, t) := classifyLead lead w in
  (w1, await t (λ persona w',
         (log (LogClassified (get lead "First Name") (get lead "Last Name")
                 (get lead "Job Title") persona) w',
          Resolved (mkClassified lead persona)))).

Definition classifyLeads (leads : list Lead) (w : World)
    : option (World * Settled (list Classified)) :=
  let w := log (LogClassifying (length leads) CONCURRENCY) w in
  match runWithConcurrency leads CONCURRENCY (per_item classify_callback) w
  with
  | None => None
  | Some (mkRun w _ (Resolved classified)) =>
      Some (log (LogAllClassified (length classified)) w, Resolved classified)
  | Some (mkRun w _ (Rejected e)) => Some (w, Rejected e)
  end.

Definition addLeadsToDatabase (classifiedLeads : list Classified) (w : World)
    : World * DbResult :=
  let w := log (LogInserting (length classifiedLeads)) w in
  let rows := to_row <$> classifiedLeads in
  let reply := store_insert env (calls w) rows in
  let w := issue (CallInsert rows) w in
  match reply with
  | Resolved (mkInsertReply (Some e)) =>
      (log (LogInsertError e) w, mkDbResult false 0)
  | Resolved (mkInsertReply None) =>
      (log (LogInserted (length rows)) w, mkDbResult true (length rows))
  | Rejected e => (log (LogInsertThrew e) w, mkDbResult false 0)
  end.

Definition sender_log (l : LogLine) (s : Sender) : Sender :=
  mkSender (log l (sender_world s)) (sender_success s) (sender_fail s).

(** [successCount++] and [failCount++] *)
Definition incr_success (s : Sender) : Sender :=
  mkSender (sender_world s) (S (sender_success s)) (sender_fail s).

Definition incr_fail (s : Sender) : Sender :=
  mkSender (sender_world s) (sender_success s) (S (sender_fail s)).

(** The callback [sendLeadsToWebhook] hands to the helper. *)
Definition webhook_callback (c : Classified) (s : Sender)
    : Sender * Task Sender unit :=
  let lead := c_lead c in
  let payload := to_payload c in
  let '(lat, reply) := axios_post env (calls (sender_world s)) payload in
  (mkSender (issue (CallPost payload) (sender_world s))
     (sender_success s) (sender_fail s),
   mkTask lat (λ s',
     match reply with
     | Resolved status =>
         if decide (status = 200 ∨ status = 201) then
           (incr_success s', Resolved ())
         else
           (incr_fail
              (sender_log (LogWebhookStatus status (get lead "Email")) s'),
            Resolved ())
     | Rejected e =>
         (incr_fail (sender_log (LogWebhookError (get lead "Email") e) s'),
          Resolved ())
     end)).

Definition sendLeadsToWebhook (classifiedLeads : list Classified) (w : World)
    : option (World * Settled WebhookResult) :=
  let w := log (LogSending (length classifiedLeads) CONCURRENCY) w in
  match runWithConcurrency classifiedLeads CONCURRENCY
          (per_item webhook_callback) (mkSender w 0 0) with
  | None => None
  | Some (mkRun s _ (Resolved _)) =>
      Some (log (LogWebhookTotals (sender_success s) (sender_fail s))
              (sender_world s),
            Resolved (mkWebhookResult (sender_success s) (sender_fail s)))
  | Some (mkRun s _ (Rejected e)) => Some (sender_world s, Rejected e)
  end.

(** The [catch] of [main]. *)
Definition fatal (e : Error) (w : World) : World * Exit :=
  (log (LogFatal e) w, Exit1).

Definition main (csv : Settled (list Lead)) (w : World)
    : option (World * Exit) :=
  let w := log (LogBanner "LEAD CLASSIFICATION AUTOMATION") w in
  match readCSV csv w with
  | (w, Rejected e) => Some (fatal e w)
  | (w, Resolved leads) =>
      let w := log (LogBanner "PROCESSING LEADS") w in
      let '(w, d) := filterDuplicates leads w in
      if decide (length (newLeads d) = 0) then
        Some (log LogNothingToProcess w, Returned)
      else
        match classifyLeads (newLeads d) w with
        | None => None
        | Some (w, Rejected e) => Some (fatal e w)
        | Some (w, Resolved classifiedLeads) =>
            let '(w, dbResult) := addLeadsToDatabase classifiedLeads w in
            match sendLeadsToWebhook classifiedLeads w with
            | None => None
            | Some (w, Rejected e) => Some (fatal e w)
            | Some (w, Resolved webhookResult) =>
                let byPersona := tally classifiedLeads in
                let w := log (LogBanner "AUTOMATION COMPLETE - SUMMARY") w in
                let w :=
                  log (LogSummary
                         (mkSummary (length leads) (count dbResult)
                            (duplicateCount d)
                            (if success dbResult then 0
                             else length (newLeads d))
                            (successCount webhookResult)
                            (failCount webhookResult)
                            (default 0 (byPersona !! "Persona 1"))
                            (default 0 (byPersona !! "Persona 2"))
                            (default 0 (byPersona !! "Persona 3"))
                            (default 0 (byPersona !! "Persona 4")))) w in
                Some (log LogFinished w, Returned)
            end
        end
  end.

End Pipeline.

(** ** Vocabulary of the statements *)

(** Indices of the operations a trace starts, in order. *)
Definition started (tr : list SchedEvent) : list nat :=
  omap (λ ev, match ev with EvStart i => Some i | EvSettle _ => None end) tr.

(** The shape of the trace of a run over [N] items from index [i] on, with
    bound [K]: chunk after chunk, all operations of a chunk start, then they
    settle in some order, and only then the next chunk starts.  The flag
    tells whether the run went through all chunks ([true]) or stopped at the
    first rejection inside a chunk ([false]). *)
Inductive chunked (K N : nat) : nat → bool → list SchedEvent → Prop :=
  | chunked_end i :
      N ≤ i → chunked K N i true []
  | chunked_chunk i ok order tr :
      i < N →
      order ≡ₚ seq i (K `min` (N - i)) →
      chunked K N (i + K) ok tr →
      chunked K N i ok
        ((EvStart <$> seq i (K `min` (N - i))) ++ (EvSettle <$> order) ++ tr)
  | chunked_abort i pre rest :
      i < N →
      pre ≠ [] →
      pre ++ rest ≡ₚ seq i (K `min` (N - i)) →
      chunked K N i false
        ((EvStart <$> seq i (K `min` (N - i))) ++ (EvSettle <$> pre)).

(** At every instant of the trace between 0 and [K] operations are in
    flight. *)
Definition bounded (K : nat) (tr : list SchedEvent) : Prop :=
  ∀ m, (0 ≤ in_flight (take m tr) ≤ Z.of_nat K)%Z.

Section LimiterVocabulary.
Context {W A B : Type}.

(** The event of a task settling, [i0] being the index of its chunk. *)
Definition settle_event (i0 : nat) (p : nat * Task W B) : SchedEvent :=
  EvSettle (i0 + p.1).

(** [v] is what the callback produced for [x], the item at index [g],
    when called as [Array.prototype.map] calls it on a chunk. *)
Definition produced (fn : AsyncFn W A B) (items : list A) (K g : nat)
    (x : A) (v : B) : Prop :=
  ∃ i0 k w1 w2,
    g = i0 + k ∧ k < K ∧
    (finish (fn x k (slice items i0 (i0 + K)) w1).2 w2).2 = Resolved v.

(** The callback rejects with [e] on some item. *)
Definition rejects (fn : AsyncFn W A B) (items : list A) (e : Error) : Prop :=
  ∃ x k arr w1 w2,
    x ∈ items ∧ (finish (fn x k arr w1).2 w2).2 = Rejected e.

(** The callback never rejects on the items. *)
Definition catches_own_errors (fn : AsyncFn W A B) (items : list A) : Prop :=
  ∀ e, ¬ rejects fn items e.

(** The reading of "one failing operation aborts neither its siblings nor
    later chunks, and results are still produced for all other items":
    whatever the callback does, every item's operation is started and the
    helper returns results. *)
Definition isolates_failures (items : list A) (K : nat)
    (fn : AsyncFn W A B) (w : W) : Prop :=
  ∃ r rs,
    runWithConcurrency items K fn w = Some r ∧
    run_outcome r = Resolved rs ∧
    started (run_trace r) = seq 0 (length items).
End LimiterVocabulary.

(** Callbacks of the request/reply kind, as both callbacks of the pipeline
    are.  The world has a request history ([hist]); starting the callback on
    [x] extends the history by [req x] and nothing else that matters;
    its continuation leaves the history alone and resolves with a value
    [out x h] fixed by the item and the history [h] at the start.  [Inv]
    is any property relating the world to the list of the (item, history)
    pairs whose continuation has run so far, latest first. *)
Section SequentialVocabulary.
Context {W A B H : Type}.
Variable hist : W → H.
Variable req : A → H → H.
Variable out : A → H → B.
Variable Inv : list (A * H) → W → Prop.

Definition task_of (x : A) (h : H) (t : Task W B) : Prop :=
  ∀ w,
    (finish t w).2 = Resolved (out x h) ∧
    hist (finish t w).1 = hist w ∧
    ∀ fin, Inv fin w → Inv ((x, h) :: fin) (finish t w).1.

Definition request_reply (fn : AsyncFn W A B) : Prop :=
  ∀ x k arr w,
    hist (fn x k arr w).1 = req x (hist w) ∧
    (∀ fin, Inv fin w → Inv fin (fn x k arr w).1) ∧
    task_of x (hist w) (fn x k arr w).2.

(** The items with the history each is started at when the callbacks are
    started one after the other. *)
Fixpoint paired (xs : list A) (h : H) : list (A * H) :=
  match xs with
  | [] => []
  | x :: xs' => (x, h) :: paired xs' (req x h)
  end.

Definition history_after (xs : list A) (h : H) : H :=
  foldl (λ h x, req x h) h xs.

Definition outputs (xs : list A) (h : H) : list B :=
  (λ p, out p.1 p.2) <$> paired xs h.
End SequentialVocabulary.

(** Two sample callbacks on numbers, over a world with no state: one
    resolves with its item, sooner for larger items; the other rejects on
    the item [1]. *)
Definition delay_op (x : nat) (w : unit) : unit * Task unit nat :=
  (w, mkTask (10 - x) (λ w', (w', Resolved x))).

Definition failing_op (x : nat) (w : unit) : unit * Task unit nat :=
  (w, mkTask 0 (λ w', (w', if decide (x = 1) then Rejected "boom"
                           else Resolved x))).

(** The [Email] column of a batch. *)
Definition emails_of (leads : list Lead) : list value :=
  (λ lead, get lead "Email") <$> leads.

(** The existence query did not deliver a row list: it threw, it returned
    an error, or it returned no [data]. *)
Definition query_failed (reply : Settled SelectReply) : Prop :=
  match reply with
  | Resolved r => is_Some (sel_error r) ∨ sel_data r = None
  | Rejected _ => True
  end.

(** The bulk insert came back without an error. *)
Definition insert_ok (reply : Settled InsertReply) : bool :=
  match reply with
  | Resolved (mkInsertReply None) => true
  | _ => false
  end.

(** The webhook answered with status 200 or 201. *)
Definition acknowledged (reply : Settled nat) : bool :=
  match reply with
  | Resolved status => bool_decide (status = 200 ∨ status = 201)
  | Rejected _ => false
  end.

(** The summaries a console shows, oldest first. *)
Definition summaries (out : list LogLine) : list RunSummary :=
  omap (λ l, match l with LogSummary s => Some s | _ => None end) out.

(** Everything a stage prints comes after what was on the console, and a
    stage other than the final report prints no summary. *)
Definition appends_quietly (w w' : World) : Prop :=
  ∃ out, console w' = console w ++ out ∧ summaries out = [].

(** The persona [classifyLead] settles on for a reply of the service. *)
Definition persona_of_reply (reply : Settled Message) : string :=
  match reply with
  | Resolved message =>
      match message !! 0 with
      | Some (Some text) =>
          if matches_persona (trim text) then trim text else "Persona 4"
      | _ => "Persona 4"
      end
  | Rejected _ => "Persona 4"
  end.

(** Classification and delivery as request/reply callbacks: the request
    each adds to the history, and the value each resolves with. *)
Definition classify_request (lead : Lead) (h : list Call) : list Call :=
  h ++ [CallClassify (to_prompt lead)].

Definition classify_output (env : Env) (lead : Lead) (h : list Call)
    : Classified :=
  mkClassified lead
    (persona_of_reply (messages_create env h (to_prompt lead)).2).

Definition post_request (c : Classified) (h : list Call) : list Call :=
  h ++ [CallPost (to_payload c)].

(** The classified records for a batch whose first request sees history
    [h]. *)
Definition classified_by (env : Env) (leads : list Lead) (h : list Call)
    : list Classified :=
  outputs classify_request (classify_output env) leads h.

(** The records to deliver, each with the history its request sees. *)
Definition deliveries (cs : list Classified) (h : list Call)
    : list (Classified * list Call) :=
  paired post_request cs h.

(** The webhook acknowledged the delivery of [p.1] requested at [p.2]. *)
Definition delivered (env : Env) (p : Classified * list Call) : Prop :=
  acknowledged (axios_post env p.2 (to_payload p.1)).2 = true.

#[global] Instance delivered_dec env p : Decision (delivered env p).
Proof. unfold delivered. apply _. Defined.

(** The console shows the failure of the delivery [p] with the record's
    email. *)
Definition failure_logged (env : Env) (p : Classified * list Call)
    (out : list LogLine) : Prop :=
  match (axios_post env p.2 (to_payload p.1)).2 with
  | Resolved status =>
      LogWebhookStatus status (get (c_lead p.1) "Email") ∈ out
  | Rejected e => LogWebhookError (get (c_lead p.1) "Email") e ∈ out
  end.

(** The line the classification callback prints once the persona of a
    record is in. *)
Definition classified_line (c : Classified) : LogLine :=
  LogClassified (get (c_lead c) "First Name") (get (c_lead c) "Last Name")
    (get (c_lead c) "Job Title") (c_persona c).

(** What holds of the world once the classifications in [fin] have
    settled; [C0] is the console before the stage: since then no summary was
    printed, and the line of every settled record was. *)
Definition classify_inv (env : Env) (C0 : list LogLine)
    (fin : list (Lead * list Call)) (w : World) : Prop :=
  ∃ out,
    console w = C0 ++ out ∧ summaries out = [] ∧
    ∀ p, p ∈ fin → classified_line (classify_output env p.1 p.2) ∈ out.

(** What holds of the sender's state once the deliveries in [fin] have
    settled; [C0] is the console before the stage. *)
Definition webhook_inv (env : Env) (C0 : list LogLine)
    (fin : list (Classified * list Call)) (s : Sender) : Prop :=
  sender_success s = length (filter (delivered env) fin) ∧
  sender_fail s = length (filter (λ p, ¬ delivered env p) fin) ∧
  ∃ out,
    console (sender_world s) = C0 ++ out ∧ summaries out = [] ∧
    ∀ p, p ∈ fin → ¬ delivered env p → failure_logged env p out.

(** The number the summary prints for a persona. *)
Definition persona_count (cs : list Classified) (persona : string) : nat :=
  default 0 (tally cs !! persona).

(** The state a run starts in: nothing requested, nothing printed. *)
Definition start : World := mkWorld [] [].

(** The same collaborators with another store insert, resp. webhook. *)
Definition with_store_insert (env : Env)
    (ins : list Call → list StoredRow → Settled InsertReply) : Env :=
  mkEnv (store_select env) (messages_create env) ins (axios_post env).

Definition with_axios_post (env : Env)
    (post : list Call → Payload → nat * Settled nat) : Env :=
  mkEnv (store_select env) (messages_create env) (store_insert env) post.

(** Collaborators that answer every request of a kind the same way. *)
Definition const_env (sel : Settled SelectReply) (msg : Settled Message)
    (ins : Settled InsertReply) (post : Payload → Settled nat) : Env :=
  mkEnv (λ _ _, sel) (λ h _, (7 - length h, msg)) (λ _ _, ins)
    (λ h p, (20 - length h, post p)).

Definition sample_lead (first last title email : string) : Lead :=
  list_to_map [("First Name", first); ("Last Name", last);
               ("Job Title", title); ("Company", "Cafe Sol");
               ("Email", email); ("Phone", "555-0100")].

Definition ana : Lead := sample_lead "Ana" "Ruiz" "Owner" "ana@sol.test".
Definition ben : Lead := sample_lead "Ben" "Ode" "Bar Manager" "ben@sol.test".
Definition ana_again : Lead := sample_lead "Ana" "R." "Founder" "ana@sol.test".

(** The store already knows [known]; the classifier always answers
    [text]. *)
Definition sample_env (known : list value) (text : string)
    (ins : Settled InsertReply) (post : Payload → Settled nat) : Env :=
  const_env (Resolved (mkSelectReply (Some known) None))
    (Resolved [Some text]) ins post.

(** Nothing known yet; the classifier decorates its answer. *)
Definition env_decorated_answer : Env :=
  sample_env [] "Persona 1 (Owner)" (Resolved (mkInsertReply None))
    (λ _, Resolved 200).

(** The store knows Ana's address already. *)
Definition env_ana_known : Env :=
  sample_env [VString "ana@sol.test"] "Persona 1"
    (Resolved (mkInsertReply None)) (λ _, Resolved 200).

(** A webhook that answers 500 for Ben and 201 for everybody else. *)
Definition post_ben_500 (p : Payload) : Settled nat :=
  if decide (pl_first_name p = VString "Ben") then Resolved 500
  else Resolved 201.

(** Nothing known yet, every insert succeeds, Ben's delivery fails. *)
Definition env_ben_undeliverable : Env :=
  sample_env [] "Persona 1" (Resolved (mkInsertReply None)) post_ben_500.

(** The reading of "the run reports zero processed, zero persisted and zero
    delivered": the console shows a summary with these three figures at
    zero. *)
Definition reports_zero (w : World) : Prop :=
  ∃ s, s ∈ summaries (console w) ∧
    sum_processed s = 0 ∧ sum_webhook_sent s = 0 ∧ sum_webhook_failed s = 0.

(** ** Vocabulary for the strings *)

(** Every code unit of [s] is white space. *)
Fixpoint all_space (s : string) : bool :=
  match s with
  | EmptyString => true
  | String c s' => is_space c && all_space s'
  end.

Definition starts_with_space (s : string) : bool :=
  match s with
  | EmptyString => false
  | String c _ => is_space c
  end.

Definition ends_with_space (s : string) : bool :=
  starts_with_space (String.rev s).

(** ** Vocabulary for counting requests *)

Definition is_select (c : Call) : bool :=
  match c with CallSelect _ => true | _ => false end.

Definition is_classify (c : Call) : bool :=
  match c with CallClassify _ => true | _ => false end.

Definition is_insert (c : Call) : bool :=
  match c with CallInsert _ => true | _ => false end.

Definition is_post (c : Call) : bool :=
  match c with CallPost _ => true | _ => false end.

(** A sample request/reply callback on numbers: the world is the list of
    the numbers requested so far; the callback adds its item to it and
    resolves, sooner for larger items, with the item plus the number of
    requests made before its own. *)
Definition echo_op (x : nat) (w : list nat) : list nat * Task (list nat) nat :=
  (w ++ [x], mkTask (10 - x) (λ w', (w', Resolved (x + length w)))).

(** A store that holds the emails [known] answers the existence query for
    [emails] with the rows among them. *)
Definition rows_for (known emails : list value) : Settled SelectReply :=
  Resolved (mkSelectReply (Some (filter (λ e, e ∈ emails) known)) None).

(** The store of [env] holds [known] and does not change. *)
Definition store_holds (env : Env) (known : list value) : Prop :=
  ∀ h emails, store_select env h emails = rows_for known emails.

(** Sample collaborators around a store that holds [known]. *)
Definition env_store (known : list value) : Env :=
  mkEnv (λ _ emails, rows_for known emails)
    (λ h _, (7 - length h, Resolved [Some "Persona 1"]))
    (λ _ _, Resolved (mkInsertReply None))
    (λ h _, (20 - length h, Resolved 200)).

(** ** [String.prototype.trim] on code units *)

(** A JavaScript string is a sequence of 16-bit code units.  The white
    space and line terminators of ECMAScript: TAB, LF, VT, FF, CR, SP,
    NBSP, U+1680, U+2000 to U+200A, U+2028, U+2029, U+202F, U+205F, U+3000
    and U+FEFF. *)
Definition is_white_space (u : N) : bool :=
  bool_decide (u ∈ [9; 10; 11; 12; 13; 32; 160; 5760; 8232; 8233; 8239;
                    8287; 12288; 65279]%N)
  || ((8192 <=? u)%N && (u <=? 8202)%N).

Fixpoint js_trimStart (u : list N) : list N :=
  match u with
  | [] => []
  | c :: u' => if is_white_space c then js_trimStart u' else u
  end.

Definition js_trim (u : list N) : list N :=
  reverse (js_trimStart (reverse (js_trimStart u))).

(** The code units of a string of the model. *)
Fixpoint code_units (s : string) : list N :=
  match s with
  | EmptyString => []
  | String c s' => N_of_ascii c :: code_units s'
  end.

(** ** The sequential version of the script *)

(** Before the batched script there was a version that handles one lead at
    a time: look the email up, classify, insert one row, deliver.  It has no
    concurrency, so its functions are plain state transformers. *)
Module Legacy.

(** Requests of the sequential script. *)
Inductive Call :=
  | CallLookup (email : value)
  | CallClassify (p : Prompt)
  | CallInsert (row : StoredRow)
  | CallPost (p : Payload).

(** [error] of the single-row lookup, with its [code]. *)
Record LookupError := mkLookupError {
  err_code : string;
  err_message : Error
}.

(** [{ data, error }] of [.eq('email', email).single()]; [data] holds the
    [email] of the row found, if one was found. *)
Record LookupReply := mkLookupReply {
  lk_data : option value;
  lk_error : option LookupError
}.

Record Env := mkEnv {
  store_lookup : list Call → value → Settled LookupReply;
  messages_create : list Call → Prompt → Settled Message;
  store_insert : list Call → StoredRow → Settled InsertReply;
  axios_post : list Call → Payload → Settled nat
}.

(** The counters [main] keeps, as the summary prints them. *)
Record Results := mkResults {
  total : nat;
  processed : nat;
  skipped : nat;
  failed : nat;
  byPersona : gmap string nat
}.

Inductive LogLine :=
  | LogBanner (title : string)
  | LogReadingCsv
  | LogCsvRead (n : nat)
  | LogCsvError (e : Error)
  | LogLookupError (e : Error)
  | LogLookupThrew (e : Error)
  | LogUnexpectedFormat (classification : string)
  | LogClassifyError (e : Error)
  | LogDatabaseError (e : Error)
  | LogDatabaseThrew (e : Error)
  | LogWebhookStatus (status : nat)
  | LogWebhookError (e : Error)
  | LogProcessing (position total : nat) (first last title : value)
  | LogSkipped
  | LogClassifying
  | LogClassifiedAs (persona : string)
  | LogAdding
  | LogAddFailed
  | LogAdded
  | LogSending
  | LogSent
  | LogWebhookFailed
  | LogSummary (r : Results)
  | LogFinished
  | LogFatal (e : Error).

Record World := mkWorld {
  calls : list Call;
  console : list LogLine
}.

(** What [processLead] returns: [{status: 'skipped'}], [{status: 'failed'}]
    or [{status: 'success', persona, webhookSuccess}]. *)
Inductive Outcome :=
  | Skipped
  | Failed
  | Success (persona : string) (webhookSuccess : bool).

(** State transformers over the world, and their sequencing. *)
Definition M (X : Type) : Type := World → World * X.

Definition ret {X} (x : X) : M X := λ w, (w, x).

Definition bind {X Y} (m : M X) (k : X → M Y) : M Y :=
  λ w, let '(w1, x) := m w in k x w1.

Notation "x <- m ;; k" := (bind m (λ x, k))
  (at level 100, m at next level, right associativity).
Notation "m ;; k" := (bind m (λ _, k))
  (at level 100, right associativity).

Definition log (l : LogLine) : M unit :=
  λ w, (mkWorld (calls w) (console w ++ [l]), ()).

(** Send a request and await its reply. *)
Definition request {R} (c : Call) (reply : list Call → R) : M R :=
  λ w, (mkWorld (calls w ++ [c]) (console w), reply (calls w)).

Section Script.
Variable env : Env.

Definition isDuplicate (email : value) : M bool :=
  reply <- request (CallLookup email) (λ h, store_lookup env h email) ;;
  match reply with
  | Resolved (mkLookupReply data (Some err)) =>
      if decide (err_code err ≠ "PGRST116") then
        log (LogLookupError (err_message err)) ;; ret false
      else ret (bool_decide (is_Some data))
  | Resolved (mkLookupReply data None) => ret (bool_decide (is_Some data))
  | Rejected e => log (LogLookupThrew e) ;; ret false
  end.

Definition classifyLead (lead : Lead) : M string :=
  let prompt := to_prompt lead in
  reply <- request (CallClassify prompt) (λ h, messages_create env h prompt) ;;
  match reply with
  | Resolved message =>
      match message !! 0 with
      | Some (Some text) =>
          let classification := trim text in
          if negb (matches_persona classification) then
            log (LogUnexpectedFormat classification) ;; ret "Persona 4"
          else ret classification
      | Some None =>
          log (LogClassifyError
                 "Cannot read properties of undefined (reading 'trim')") ;;
          ret "Persona 4"
      | None =>
          log (LogClassifyError
                 "Cannot read properties of undefined (reading 'text')") ;;
          ret "Persona 4"
      end
  | Rejected e => log (LogClassifyError e) ;; ret "Persona 4"
  end.

Definition addLeadToDatabase (lead : Lead) (persona : string) : M bool :=
  let row := to_row (mkClassified lead persona) in
  reply <- request (CallInsert row) (λ h, store_insert env h row) ;;
  match reply with
  | Resolved (mkInsertReply (Some e)) => log (LogDatabaseError e) ;; ret false
  | Resolved (mkInsertReply None) => ret true
  | Rejected e => log (LogDatabaseThrew e) ;; ret false
  end.

Definition sendToWebhook (lead : Lead) (persona : string) : M bool :=
  let payload := to_payload (mkClassified lead persona) in
  reply <- request (CallPost payload) (λ h, axios_post env h payload) ;;
  match reply with
  | Resolved status =>
      if decide (status = 200 ∨ status = 201) then ret true
      else log (LogWebhookStatus status) ;; ret false
  | Rejected e => log (LogWebhookError e) ;; ret false
  end.

Definition processLead (lead : Lead) (index total : nat) : M Outcome :=
  log (LogProcessing (index + 1) total (get lead "First Name")
         (get lead "Last Name") (get lead "Job Title")) ;;
  duplicate <- isDuplicate (get lead "Email") ;;
  if duplicate then log LogSkipped ;; ret Skipped
  else
    log LogClassifying ;;
    persona <- classifyLead lead ;;
    log (LogClassifiedAs persona) ;;
    log LogAdding ;;
    dbSuccess <- addLeadToDatabase lead persona ;;
    if negb dbSuccess then log LogAddFailed ;; ret Failed
    else
      log LogAdded ;;
      log LogSending ;;
      webhookSuccess <- sendToWebhook lead persona ;;
      (if webhookSuccess then log LogSent else log LogWebhookFailed) ;;
      ret (Success persona webhookSuccess).

(** The update of the counters after one lead. *)
Definition record_outcome (results : Results) (o : Outcome) : Results :=
  match o with
  | Skipped =>
      mkResults (total results) (processed results) (S (skipped results))
        (failed results) (byPersona results)
  | Failed =>
      mkResults (total results) (processed results) (skipped results)
        (S (failed results)) (byPersona results)
  | Success persona _ =>
      mkResults (total results) (S (processed results)) (skipped results)
        (failed results) (count_persona (byPersona results) persona)
  end.

(** The [for] loop of [main] from index [i] on, [rest] being the leads
    still to process.  The pause of half a second after each lead is not
    modelled. *)
Fixpoint main_loop (rest : list Lead) (i total : nat) (results : Results)
    : M Results :=
  match rest with
  | [] => ret results
  | lead :: rest' =>
      result <- processLead lead i total ;;
      main_loop rest' (S i) total (record_outcome results result)
  end.

(** [readCSV]; [csv] is the outcome of reading and parsing the file. *)
Definition readCSV (csv : Settled (list Lead)) : M (Settled (list Lead)) :=
  log LogReadingCsv ;;
  match csv with
  | Resolved records => log (LogCsvRead (length records)) ;; ret csv
  | Rejected e => log (LogCsvError e) ;; ret csv
  end.

Definition main (csv : Settled (list Lead)) : M Exit :=
  log (LogBanner "LEAD CLASSIFICATION AUTOMATION") ;;
  read <- readCSV csv ;;
  match read with
  | Rejected e => log (LogFatal e) ;; ret Exit1
  | Resolved leads =>
      log (LogBanner "PROCESSING LEADS") ;;
      results <- main_loop leads 0 (length leads)
                   (mkResults (length leads) 0 0 0 byPersona_init) ;;
      log (LogBanner "AUTOMATION COMPLETE - SUMMARY") ;;
      log (LogSummary results) ;;
      log LogFinished ;;
      ret Returned
  end.

End Script.

(** The lookup found the email: a row came back, with no error or with the
    "no rows" code. *)
Definition found (reply : Settled LookupReply) : bool :=
  match reply with
  | Resolved (mkLookupReply (Some _) None) => true
  | Resolved (mkLookupReply (Some _) (Some err)) =>
      bool_decide (err_code err = "PGRST116")
  | _ => false
  end.

Definition is_lookup (c : Call) : bool :=
  match c with CallLookup _ => true | _ => false end.

Definition is_classify (c : Call) : bool :=
  match c with CallClassify _ => true | _ => false end.

Definition is_insert (c : Call) : bool :=
  match c with CallInsert _ => true | _ => false end.

Definition is_post (c : Call) : bool :=
  match c with CallPost _ => true | _ => false end.

(** The sum of the four persona counters. *)
Definition persona_total (m : gmap string nat) : nat :=
  default 0 (m !! "Persona 1") + default 0 (m !! "Persona 2")
  + default 0 (m !! "Persona 3") + default 0 (m !! "Persona 4").

(** Sample collaborators: the store only knows Ana, inserts fail for Ben. *)
Definition sample_env : Env :=
  mkEnv
    (λ _ email,
       if decide (email = VString "ana@sol.test")
       then Resolved (mkLookupReply (Some email) None)
       else Resolved (mkLookupReply None
                        (Some (mkLookupError "PGRST116" "no rows"))))
    (λ _ _, Resolved [Some " Persona 2 "])
    (λ _ row,
       if decide (row_first_name row = VString "Ben")
       then Resolved (mkInsertReply (Some "insert failed"))
       else Resolved (mkInsertReply None))
    (λ _ _, Resolved 500).

(** Nothing is known, every insert and every delivery succeeds. *)
Definition env_open : Env :=
  mkEnv
    (λ _ _, Resolved (mkLookupReply None
                        (Some (mkLookupError "PGRST116" "no rows"))))
    (λ _ _, Resolved [Some "Persona 3"])
    (λ _ _, Resolved (mkInsertReply None))
    (λ _ _, Resolved 201).

Definition start : World := mkWorld [] [].

End Legacy.

(** ** The connection checks *)

(** The script that tests the three connections before a run.  Its
    functions can reject (a constructor is called outside any [try]), so
    its state transformers return a result or the error thrown. *)
Module Checks.

(** An error as the checks look at it: [status], [code] and [message]. *)
Record Thrown := mkThrown {
  th_status : option nat;
  th_code : option string;
  th_message : Error
}.

Inductive Reply (B : Type) : Type :=
  | Answered (b : B)
  | Threw (e : Thrown).
Arguments Answered {B} b.
Arguments Threw {B} e.

(** Requests of the checks: the head count on the table, the fixed test
    prompt, the test payload posted to a URL. *)
Inductive Call :=
  | CallHead
  | CallSay
  | CallPing (url : string).

(** The environment: the two variables the script reads itself, what the
    two constructors do ([Some e]: the constructor throws [e]) and the
    replies of the services.  [sel_error] of the head count is the
    [message] of the [error] field, if there is one. *)
Record Env := mkEnv {
  ANTHROPIC_API_KEY : option string;
  WEBHOOK_URL : option string;
  createClient : option Thrown;
  new_Anthropic : option Thrown;
  store_head : list Call → Reply (option Error);
  messages_create : list Call → Reply Message;
  axios_post : list Call → string → Reply nat
}.

Inductive LogLine :=
  | LogStarting
  | LogBlank
  | LogAllComplete
  | LogTestingSupabase
  | LogSupabaseError (e : Error)
  | LogSupabaseConnected
  | LogTestingClaude
  | LogNoApiKey
  | LogClaudeConnected (text : option string)
  | LogClaudeError (status : option nat) (e : Error)
  | LogClaudeHint
  | LogTestingWebhook
  | LogNoWebhookUrl
  | LogWebhookConnected (status : nat)
  | LogWebhookError (e : Error)
  | LogWebhookHint.

Record World := mkWorld {
  calls : list Call;
  console : list LogLine
}.

Definition M (X : Type) : Type := World → World * Reply X.

Definition ret {X} (x : X) : M X := λ w, (w, Answered x).

Definition throw {X} (e : Thrown) : M X := λ w, (w, Threw e).

Definition bind {X Y} (m : M X) (k : X → M Y) : M Y :=
  λ w, let '(w1, r) := m w in
       match r with
       | Answered x => k x w1
       | Threw e => (w1, Threw e)
       end.

Notation "x <- m ;; k" := (bind m (λ x, k))
  (at level 100, m at next level, right associativity).
Notation "m ;; k" := (bind m (λ _, k))
  (at level 100, right associativity).

Definition log (l : LogLine) : M unit :=
  λ w, (mkWorld (calls w) (console w ++ [l]), Answered ()).

(** Send a request and await it inside a [try]: the reply or the error
    caught. *)
Definition request {R} (c : Call) (reply : list Call → Reply R)
    : M (Reply R) :=
  λ w, (mkWorld (calls w ++ [c]) (console w), Answered (reply (calls w))).

(** [!process.env.X] is false for a variable that is set and not empty. *)
Definition truthy (v : option string) : bool :=
  match v with
  | Some (String _ _) => true
  | _ => false
  end.

Section Script.
Variable env : Env.

Definition testSupabase : M unit :=
  log LogTestingSupabase ;;
  match createClient env with
  | Some e => throw e
  | None =>
      reply <- request CallHead (store_head env) ;;
      match reply with
      | Answered (Some e) => log (LogSupabaseError e)
      | Answered None => log LogSupabaseConnected
      | Threw e => log (LogSupabaseError (th_message e))
      end
  end.

Definition testClaude : M unit :=
  log LogTestingClaude ;;
  if negb (truthy (ANTHROPIC_API_KEY env)) then log LogNoApiKey
  else
    match new_Anthropic env with
    | Some e => throw e
    | None =>
        reply <- request CallSay (messages_create env) ;;
        match reply with
        | Answered message =>
            match message !! 0 with
            | Some text => log (LogClaudeConnected text)
            | None =>
                log (LogClaudeError None
                       "Cannot read properties of undefined (reading 'text')") ;;
                log LogClaudeHint
            end
        | Threw e =>
            log (LogClaudeError (th_status e) (th_message e)) ;;
            log LogClaudeHint
        end
    end.

Definition testWebhook : M unit :=
  log LogTestingWebhook ;;
  match WEBHOOK_URL env with
  | Some (String a u) =>
      let url := String a u in
      reply <- request (CallPing url) (λ h, axios_post env h url) ;;
      match reply with
      | Answered status => log (LogWebhookConnected status)
      | Threw e =>
          log (LogWebhookError (th_message e)) ;;
          if decide (th_code e = Some "ENOTFOUND") then log LogWebhookHint
          else ret ()
      end
  | _ => log LogNoWebhookUrl
  end.

Definition runTests : M unit :=
  log LogStarting ;;
  testSupabase ;;
  log LogBlank ;;
  testClaude ;;
  log LogBlank ;;
  testWebhook ;;
  log LogAllComplete.

End Script.

(** The requests a run of the checks makes when both constructors
    return. *)
Definition expected_calls (env : Env) : list Call :=
  [CallHead]
  ++ (if truthy (ANTHROPIC_API_KEY env) then [CallSay] else [])
  ++ match WEBHOOK_URL env with
     | Some (String a u) => [CallPing (String a u)]
     | _ => []
     end.

Definition unreachable : Thrown :=
  mkThrown None (Some "ENOTFOUND") "getaddrinfo ENOTFOUND".

(** Nothing works: the store reports an error, the key is rejected, the
    webhook host does not resolve. *)
Definition env_all_down : Env :=
  mkEnv (Some "sk-test") (Some "https://hooks.test/x") None None
    (λ _, Answered (Some "relation does not exist"))
    (λ _, Threw (mkThrown (Some 401) None "invalid x-api-key"))
    (λ _ _, Threw unreachable).

(** The store URL is missing, so that the client cannot be created. *)
Definition env_no_client : Env :=
  mkEnv (Some "sk-test") (Some "https://hooks.test/x")
    (Some (mkThrown None None "supabaseUrl is required.")) None
    (λ _, Answered None)
    (λ _, Answered [Some "API Working!"])
    (λ _ _, Answered 200).

Definition start : World := mkWorld [] [].

End Checks.

(** * Properties *)

(** ** Traces *)

Lemma in_flight_app tr1 tr2 :
  in_flight (tr1 ++ tr2) = (in_flight tr1 + in_flight tr2)%Z.
Proof. induction tr1 as [|[] tr1 IH]; simpl; lia. Qed.

Lemma in_flight_starts (l : list nat) :
  in_flight (EvStart <$> l) = Z.of_nat (length l).
Proof. induction l; csimpl; lia. Qed.

Lemma in_flight_settles (l : list nat) :
  in_flight (EvSettle <$> l) = (- Z.of_nat (length l))%Z.
Proof. induction l; csimpl; lia. Qed.

Lemma started_app tr1 tr2 : started (tr1 ++ tr2) = started tr1 ++ started tr2.
Proof. apply omap_app. Qed.

Lemma started_starts (l : list nat) : started (EvStart <$> l) = l.
Proof. induction l; csimpl; f_equal; done. Qed.

Lemma started_settles (l : list nat) : started (EvSettle <$> l) = [].
Proof. induction l; csimpl; done. Qed.

Lemma bounded_nil K : bounded K [].
Proof. intros m. rewrite take_nil. simpl. lia. Qed.

Lemma bounded_app K tr1 tr2 :
  bounded K tr1 → in_flight tr1 = 0%Z → bounded K tr2 →
  bounded K (tr1 ++ tr2).
Proof.
  intros H1 Hz H2 m. rewrite take_app, in_flight_app.
  destruct (decide (m ≤ length tr1)) as [Hle|Hgt].
  - replace (m - length tr1) with 0 by lia. rewrite take_0. simpl.
    specialize (H1 m). lia.
  - rewrite take_ge by lia. rewrite Hz. specialize (H2 (m - length tr1)). lia.
Qed.

Lemma bounded_chunk K (ss ds : list nat) :
  length ss ≤ K → length ds ≤ length ss →
  bounded K ((EvStart <$> ss) ++ (EvSettle <$> ds)).
Proof.
  intros HK Hds m. rewrite take_app, in_flight_app, <- !fmap_take.
  rewrite in_flight_starts, in_flight_settles, !length_take, length_fmap.
  lia.
Qed.

Lemma chunked_bounded K N i ok tr : chunked K N i ok tr → bounded K tr.
Proof.
  induction 1 as [i Hi|i ok order tr Hi Hperm _ IH|i pre rest Hi Hne Hperm].
  - apply bounded_nil.
  - rewrite app_assoc. apply bounded_app; [| |done].
    + apply bounded_chunk; rewrite ?Hperm, length_seq; lia.
    + rewrite in_flight_app, in_flight_starts, in_flight_settles, Hperm. lia.
  - apply bounded_chunk; [rewrite length_seq; lia|].
    apply Permutation_length in Hperm.
    rewrite length_app in Hperm. lia.
Qed.

(** ** The helper *)

Lemma slice_length {A} (l : list A) i K :
  length (slice l i (i + K)) = K `min` (length l - i).
Proof.
  unfold slice. rewrite length_take, length_drop.
  replace (i + K - i) with K by lia. done.
Qed.

Lemma slice_lookup {A} (l : list A) i K k :
  k < K → slice l i (i + K) !! k = l !! (i + k).
Proof.
  intros Hk. unfold slice. replace (i + K - i) with K by lia.
  rewrite lookup_take_lt by done. apply lookup_drop.
Qed.

Lemma omap_id_Some {B} (l : list B) : omap id (Some <$> l) = l.
Proof. induction l; csimpl; f_equal; done. Qed.

Lemma all_Some_fmap {B} (vs : list (option B)) :
  (∀ j, j < length vs → ∃ v, vs !! j = Some (Some v)) →
  ∃ rs, vs = Some <$> rs.
Proof.
  induction vs as [|o vs IH]; intros H.
  - by exists [].
  - destruct (H 0) as [v Hv]; [simpl; lia|]. simpl in Hv.
    destruct IH as [rs ->].
    { intros j Hj. apply (H (S j)). simpl. lia. }
    exists (v :: rs). csimpl. congruence.
Qed.

Section LimiterFacts.
Context {W A B : Type}.
Implicit Types (fn : AsyncFn W A B) (t : Task W B) (w : W).
Implicit Types (order : list (nat * Task W B)).

Lemma array_map_from_length fn arr k xs w :
  length (array_map_from fn arr k xs w).2 = length xs.
Proof.
  revert k w. induction xs as [|x xs IH]; intros k w; simpl; [done|].
  destruct (fn x k arr w) as [w1 t].
  specialize (IH (S k) w1).
  destruct (array_map_from fn arr (S k) xs w1) as [w2 ts]. simpl in *. lia.
Qed.

Lemma array_map_from_lookup fn arr k xs w j x :
  xs !! j = Some x →
  ∃ w0, (array_map_from fn arr k xs w).2 !! j = Some (fn x (k + j) arr w0).2.
Proof.
  revert k w j. induction xs as [|y xs IH]; intros k w j Hj; [done|].
  simpl. destruct (fn y k arr w) as [w1 t] eqn:Hfn.
  destruct (array_map_from fn arr (S k) xs w1) as [w2 ts] eqn:Hrest.
  destruct j as [|j]; simpl in *.
  - injection Hj as ->. exists w. rewrite Nat.add_0_r, Hfn. done.
  - destruct (IH (S k) w1 j Hj) as [w0 Hw0]. rewrite Hrest in Hw0.
    simpl in Hw0. exists w0. rewrite Hw0. do 3 f_equal. lia.
Qed.

Lemma array_map_from_inv fn arr k xs w j t :
  (array_map_from fn arr k xs w).2 !! j = Some t →
  ∃ x w0, xs !! j = Some x ∧ t = (fn x (k + j) arr w0).2.
Proof.
  intros Ht. assert (j < length xs) as Hj.
  { rewrite <- (array_map_from_length fn arr k xs w).
    by eapply lookup_lt_Some. }
  destruct (lookup_lt_is_Some_2 xs j Hj) as [x Hx].
  destruct (array_map_from_lookup fn arr k xs w j x Hx) as [w0 Hw0].
  exists x, w0. split; [done|]. congruence.
Qed.

Lemma indexed_from_fst k (ts : list (Task W B)) :
  (indexed_from k ts).*1 = seq k (length ts).
Proof.
  revert k. induction ts as [|t ts IH]; intros k; csimpl; f_equal; done.
Qed.

Lemma indexed_from_elem k (ts : list (Task W B)) j t :
  (j, t) ∈ indexed_from k ts ↔ ∃ j', j = k + j' ∧ ts !! j' = Some t.
Proof.
  revert k. induction ts as [|t' ts IH]; intros k; simpl.
  - split; [by intros ?%elem_of_nil|by intros (? & _ & ?)].
  - rewrite elem_of_cons, IH. split.
    + intros [[= -> ->]|(j' & -> & Hj')].
      * exists 0. split; [lia|done].
      * exists (S j'). split; [lia|done].
    + intros ([|j'] & -> & Hj'); simpl in Hj'.
      * left. injection Hj' as ->. f_equal. lia.
      * right. exists j'. split; [lia|done].
Qed.

Lemma settle_before_perm p order : settle_before p order ≡ₚ p :: order.
Proof.
  induction order as [|q order IH]; simpl; [done|].
  case_decide; [done|]. rewrite IH. apply Permutation_swap.
Qed.

Lemma completion_order_perm order : completion_order order ≡ₚ order.
Proof.
  induction order as [|p order IH]; simpl; [done|].
  rewrite settle_before_perm. by f_equiv.
Qed.

Lemma promise_all_settle_spec i0 order values w :
  NoDup order.*1 →
  Forall (λ p, p.1 < length values) order →
  ∃ w' tr out,
    promise_all_settle i0 order values w = (w', tr, out) ∧
    match out with
    | Resolved values' =>
        tr = settle_event i0 <$> order ∧
        length values' = length values ∧
        (∀ k t, (k, t) ∈ order →
           ∃ w0 v,
             (finish t w0).2 = Resolved v ∧ values' !! k = Some (Some v)) ∧
        (∀ k, k ∉ order.*1 → values' !! k = values !! k)
    | Rejected e =>
        ∃ pre p rest w0,
          order = pre ++ p :: rest ∧
          tr = settle_event i0 <$> (pre ++ [p]) ∧
          (finish p.2 w0).2 = Rejected e
    end.
Proof.
  revert values w.
  induction order as [|[k t] order IH]; intros values w Hnd Hlt; csimpl.
  - exists w, [], (Resolved values). split; [done|].
    split_and!; [done|done|by intros ? ? ?%elem_of_nil|done].
  - apply NoDup_cons in Hnd as [Hk Hnd]. apply Forall_cons in Hlt as [Hkl Hlt].
    simpl in Hkl.
    destruct (finish t w) as [w1 [v|e]] eqn:Hfin.
    + destruct (IH (<[k := Some v]> values) w1 Hnd)
        as (w' & tr & out & Hrun & Hout).
      { rewrite length_insert. done. }
      rewrite Hrun. exists w', (EvSettle (i0 + k) :: tr), out. split; [done|].
      destruct out as [values'|e].
      * destruct Hout as (-> & Hlen & Hin & Hout).
        rewrite length_insert in Hlen.
        split; [done|]. split; [done|]. split.
        -- intros k' t' [[= -> ->]|Hel]%elem_of_cons.
           ++ exists w, v. rewrite Hfin. split; [done|].
              rewrite Hout by done. by apply list_lookup_insert_eq.
           ++ by apply Hin.
        -- intros k' Hk'. csimpl in Hk'.
           apply not_elem_of_cons in Hk' as [Hne Hk'].
           rewrite Hout by done. by apply list_lookup_insert_ne.
      * destruct Hout as (pre & p & rest & w0 & -> & -> & Hrej).
        exists ((k, t) :: pre), p, rest, w0. done.
    + exists w1, [EvSettle (i0 + k)], (Rejected e). split; [done|].
      exists [], (k, t), order, w. simpl. rewrite Hfin. done.
Qed.
Lemma settle_events i0 order :
  settle_event i0 <$> order = EvSettle <$> ((Nat.add i0) <$> order.*1).
Proof. rewrite <- !list_fmap_compose. done. Qed.

Lemma promise_all_spec i0 (tasks : list (Task W B)) w :
  ∃ w' tr out,
    promise_all i0 tasks w = (w', tr, out) ∧
    match out with
    | Resolved rs =>
        (∃ done, done ≡ₚ seq i0 (length tasks) ∧ tr = EvSettle <$> done) ∧
        length rs = length tasks ∧
        (∀ j t, tasks !! j = Some t →
           ∃ w0 v, (finish t w0).2 = Resolved v ∧ rs !! j = Some v)
    | Rejected e =>
        (∃ pre rest,
           pre ≠ [] ∧ pre ++ rest ≡ₚ seq i0 (length tasks) ∧
           tr = EvSettle <$> pre) ∧
        ∃ t w0, t ∈ tasks ∧ (finish t w0).2 = Rejected e
    end.
Proof.
  unfold promise_all.
  set (order := completion_order (indexed_from 0 tasks)).
  assert (order ≡ₚ indexed_from 0 tasks) as Hperm
    by apply completion_order_perm.
  assert (order.*1 ≡ₚ seq 0 (length tasks)) as Hfst.
  { rewrite Hperm. by rewrite indexed_from_fst. }
  assert (∀ k t, (k, t) ∈ order ↔ tasks !! k = Some t) as Hel.
  { intros k t. rewrite Hperm, indexed_from_elem. split.
    - intros (j & -> & Hj). done.
    - intros Hk. by exists k. }
  destruct (promise_all_settle_spec i0 order
              (replicate (length tasks) None) w)
    as (w' & tr & out & Hrun & Hout).
  { rewrite Hfst. apply NoDup_seq. }
  { apply Forall_forall. intros [k t] Hkt%Hel. rewrite length_replicate.
    simpl. by eapply lookup_lt_Some. }
  rewrite Hrun. destruct out as [values|e].
  - destruct Hout as (-> & Hlen & Hin & _).
    rewrite length_replicate in Hlen.
    destruct (all_Some_fmap values) as [rs ->].
    { intros j Hj. rewrite Hlen in Hj.
      destruct (lookup_lt_is_Some_2 tasks j Hj) as [t Ht].
      destruct (Hin j t) as (_ & v & _ & Hv); [by apply Hel|]. by exists v. }
    rewrite length_fmap in Hlen.
    exists w', (settle_event i0 <$> order), (Resolved rs).
    rewrite omap_id_Some. split; [done|]. split_and!; [|done|].
    + exists ((Nat.add i0) <$> order.*1). split; [|apply settle_events].
      rewrite Hfst, fmap_add_seq. by rewrite Nat.add_0_r.
    + intros j t Ht.
      destruct (Hin j t) as (w0 & v & Hfin & Hv); [by apply Hel|].
      exists w0, v. split; [done|].
      rewrite list_lookup_fmap in Hv.
      destruct (rs !! j); simpl in Hv; congruence.
  - destruct Hout as (pre & p & rest & w0 & Hsplit & -> & Hrej).
    exists w', (settle_event i0 <$> pre ++ [p]), (Rejected e).
    split; [done|]. split.
    + exists ((Nat.add i0) <$> (pre ++ [p]).*1), ((Nat.add i0) <$> rest.*1).
      split_and!; [|
        |apply settle_events].
      * intros Hnil%(f_equal length).
        rewrite !length_fmap, length_app in Hnil. simpl in Hnil. lia.
      * rewrite <- fmap_app, <- fmap_app, <- (assoc_L (++)). simpl.
        rewrite <- Hsplit, Hfst, fmap_add_seq. by rewrite Nat.add_0_r.
    + exists p.2, w0. split; [|done].
      destruct p as [k t]. simpl.
      apply list_elem_of_lookup. exists k. apply Hel.
      rewrite Hsplit. apply elem_of_app. right. by left.
Qed.

Lemma loop_spec fn items K :
  1 ≤ K →
  ∀ fuel i results w,
    length items - i < fuel →
    ∃ r,
      runWithConcurrency_loop fuel items K fn i results w = Some r ∧
      match run_outcome r with
      | Resolved rs =>
          chunked K (length items) i true (run_trace r) ∧
          ∃ rs',
            rs = results ++ rs' ∧
            length rs' = length items - i ∧
            ∀ j x, items !! (i + j) = Some x →
              ∃ v, rs' !! j = Some v ∧ produced fn items K (i + j) x v
      | Rejected e =>
          chunked K (length items) i false (run_trace r) ∧
          rejects fn items e
      end.
Proof.
  intros HK. induction fuel as [|fuel IH]; intros i results w Hfuel; [lia|].
  simpl. case_decide as Hi.
  2:{ eexists. split; [done|]. simpl. split; [constructor; lia|].
      exists []. rewrite app_nil_r. split_and!; [done|simpl; lia|].
      intros j x Hx. apply lookup_lt_Some in Hx. lia. }
  set (batch := slice items i (i + K)).
  assert (length batch = K `min` (length items - i)) as Hbatch
    by apply slice_length.
  unfold array_map.
  pose proof (array_map_from_length fn batch 0 batch w) as Hlen.
  pose proof (array_map_from_inv fn batch 0 batch w) as Hinv.
  pose proof (array_map_from_lookup fn batch 0 batch w) as Hlook.
  destruct (array_map_from fn batch 0 batch w) as [w1 tasks]. simpl in *.
  destruct (promise_all_spec i tasks w1) as (w2 & settles & out & Hall & Hout).
  rewrite Hall. destruct out as [batchResults|e].
  - destruct Hout as ((order & Hperm & ->) & Hrs & Hval).
    destruct (IH (i + K) (results ++ batchResults) w2) as (r & Hrun & Hr);
      [lia|].
    rewrite Hrun. eexists. split; [done|]. simpl.
    destruct (run_outcome r) as [rs|e].
    + destruct Hr as (Hch & rs' & -> & Hlen' & Hprod). split.
      * rewrite Hbatch. constructor; [done| |done].
        by rewrite Hperm, Hlen, Hbatch.
      * exists (batchResults ++ rs'). rewrite (assoc_L (++)).
        split_and!; [done|rewrite length_app; lia|].
        intros j x Hx. destruct (decide (j < K)) as [Hj|Hj].
        -- assert (batch !! j = Some x) as Hbj.
           { unfold batch. by rewrite slice_lookup. }
           destruct (Hlook j x Hbj) as [w0 Ht]. simpl in Ht.
           destruct (Hval j _ Ht) as (w3 & v & Hfin & Hv).
           exists v. split.
           ++ rewrite lookup_app_l; [done|]. by eapply lookup_lt_Some.
           ++ exists i, j, w0, w3. done.
        -- assert (length batchResults = K) as HbK.
           { apply lookup_lt_Some in Hx. lia. }
           destruct (Hprod (j - K) x) as (v & Hv & Hp).
           { rewrite <- Hx. f_equal. lia. }
           exists v. split.
           ++ rewrite lookup_app_r by lia. by rewrite HbK.
           ++ by replace (i + j) with (i + K + (j - K)) by lia.
    + destruct Hr as [Hch Hrej]. split; [|done].
      rewrite Hbatch. constructor; [done| |done].
      by rewrite Hperm, Hlen, Hbatch.
  - destruct Hout as ((pre & rest & Hne & Hperm & ->) & t & w0 & Ht & Hrej).
    eexists. split; [done|]. simpl. split.
    + rewrite Hbatch. econstructor; [done|done|].
      by rewrite Hperm, Hlen, Hbatch.
    + apply list_elem_of_lookup in Ht as [j Hj].
      destruct (Hinv j t Hj) as (x & w3 & Hx & ->).
      exists x, j, batch, w3, w0. split; [|done].
      unfold batch, slice in Hx. apply lookup_take_Some in Hx as [Hx _].
      rewrite lookup_drop in Hx. by eapply list_elem_of_lookup_2.
Qed.
End LimiterFacts.

Lemma chunked_started K N i ok tr :
  chunked K N i ok tr →
  if ok then started tr = seq i (N - i)
  else ∃ c, i + c * K < N ∧ started tr = seq i ((c * K + K) `min` (N - i)).
Proof.
  induction 1 as [i Hi|i ok order tr Hi Hperm _ IH|i pre rest Hi Hne Hperm].
  - replace (N - i) with 0 by lia. done.
  - rewrite !started_app, started_starts, started_settles. simpl.
    destruct ok.
    + rewrite IH. destruct (decide (K ≤ N - i)).
      * rewrite Nat.min_l by done. rewrite <- seq_app. f_equal. lia.
      * rewrite Nat.min_r by lia. replace (N - (i + K)) with 0 by lia.
        simpl. by rewrite app_nil_r.
    + destruct IH as (c & Hc & ->). exists (S c). split; [simpl; lia|].
      rewrite Nat.min_l by lia. rewrite <- seq_app. f_equal. simpl. lia.
  - exists 0. split; [simpl; lia|].
    rewrite started_app, started_starts, started_settles, app_nil_r. done.
Qed.

(** C1, as the code has it.  For every list of N items, every bound K >= 1
    and every per-item asynchronous operation that yields a result on the
    items (one that does not reject),
    [runWithConcurrency] returns exactly N results, the i-th being what the
    operation produced for the i-th item, whatever the latencies (so
    whatever the completion order); each item's operation is started exactly
    once, in input order; the trace consists of consecutive chunks of K
    items, each chunk settling entirely before the next starts; and at every
    instant at most K operations are in flight. *)
Theorem runWithConcurrency_ordered_results {W A B} (items : list A) (K : nat)
    (op : A → W → W * Task W B) (w : W) :
  1 ≤ K →
  (∀ x w1 w2, x ∈ items → ∃ v, (finish (op x w1).2 w2).2 = Resolved v) →
  ∃ r rs,
    runWithConcurrency items K (per_item op) w = Some r ∧
    run_outcome r = Resolved rs ∧
    length rs = length items ∧
    (∀ i x, items !! i = Some x →
       ∃ v w1 w2, rs !! i = Some v ∧ (finish (op x w1).2 w2).2 = Resolved v) ∧
    (∀ val : A → B,
       (∀ x w1 w2 v, (finish (op x w1).2 w2).2 = Resolved v → v = val x) →
       rs = val <$> items) ∧
    started (run_trace r) = seq 0 (length items) ∧
    chunked K (length items) 0 true (run_trace r) ∧
    bounded K (run_trace r).
Proof.
  intros HK Hres.
  destruct (loop_spec (per_item op) items K HK (S (length items)) 0 [] w)
    as (r & Hrun & Hr); [lia|].
  destruct (run_outcome r) as [rs|e] eqn:Hout.
  2:{ destruct Hr as (_ & x & k & arr & w1 & w2 & Hx & Hrej).
      destruct (Hres x w1 w2 Hx) as [v Hv]. unfold per_item in Hrej.
      congruence. }
  destruct Hr as (Hch & rs' & -> & Hlen & Hprod). simpl in *.
  rewrite Nat.sub_0_r in Hlen.
  exists r, rs'. split_and!; [done|done|done| | | | |].
  - intros i x Hx.
    destruct (Hprod i x Hx) as (v & Hv & i0 & k & w1 & w2 & _ & _ & Hfin).
    by exists v, w1, w2.
  - intros val Hval. apply list_eq. intros i. rewrite list_lookup_fmap.
    destruct (items !! i) as [x|] eqn:Hx; simpl.
    + destruct (Hprod i x Hx) as (v & Hv & i0 & k & w1 & w2 & _ & _ & Hfin).
      rewrite Hv. f_equal. by eapply Hval.
    + apply lookup_ge_None. apply lookup_ge_None in Hx. lia.
  - apply chunked_started in Hch. by rewrite Nat.sub_0_r in Hch.
  - done.
  - by eapply chunked_bounded.
Qed.

Lemma runWithConcurrency_ordered_results_witness :
  ∃ r rs,
    runWithConcurrency [1; 2; 3] 2 (per_item delay_op) () = Some r ∧
    run_outcome r = Resolved rs ∧
    length rs = length [1; 2; 3] ∧
    (∀ i x, [1; 2; 3] !! i = Some x →
       ∃ v w1 w2, rs !! i = Some v ∧
         (finish (delay_op x w1).2 w2).2 = Resolved v) ∧
    (∀ val : nat → nat,
       (∀ x w1 w2 v, (finish (delay_op x w1).2 w2).2 = Resolved v → v = val x) →
       rs = val <$> [1; 2; 3]) ∧
    started (run_trace r) = seq 0 (length [1; 2; 3]) ∧
    chunked 2 (length [1; 2; 3]) 0 true (run_trace r) ∧
    bounded 2 (run_trace r).
Proof.
  apply (runWithConcurrency_ordered_results [1; 2; 3] 2 delay_op ()).
  - lia.
  - intros x w1 w2 _. exists x. reflexivity.
Defined.

(** C1, as stated for every operation, fails: with two items per chunk and
    an operation that rejects on the first item, the helper rejects and
    returns no results at all, in particular not one per item. *)
Lemma runWithConcurrency_rejection_returns_no_results :
  runWithConcurrency [1; 2; 3] 2 (per_item failing_op) ()
    = Some (mkRun () [EvStart 0; EvStart 1; EvSettle 0] (Rejected "boom")) ∧
  ¬ ∃ r rs,
      runWithConcurrency [1; 2; 3] 2 (per_item failing_op) () = Some r ∧
      run_outcome r = Resolved rs ∧
      length rs = length [1; 2; 3].
Proof.
  split; [reflexivity|].
  intros (r & rs & Hrun & Hout & _).
  vm_compute in Hrun. injection Hrun as <-. discriminate.
Qed.

(** When [Promise.all] rejects, it is with the rejection of one of its
    tasks, and the settling of that task is the last event followed. *)
Lemma promise_all_rejection {W B} i0 (tasks : list (Task W B)) w w' tr e :
  promise_all i0 tasks w = (w', tr, Rejected e) →
  ∃ k t w0,
    tasks !! k = Some t ∧ (finish t w0).2 = Rejected e ∧
    last tr = Some (EvSettle (i0 + k)).
Proof.
  unfold promise_all.
  set (order := completion_order (indexed_from 0 tasks)).
  assert (order ≡ₚ indexed_from 0 tasks) as Hperm
    by apply completion_order_perm.
  assert (order.*1 ≡ₚ seq 0 (length tasks)) as Hfst.
  { rewrite Hperm. by rewrite indexed_from_fst. }
  assert (∀ k t, (k, t) ∈ order ↔ tasks !! k = Some t) as Hel.
  { intros k t. rewrite Hperm, indexed_from_elem. split.
    - intros (j & -> & Hj). done.
    - intros Hk. by exists k. }
  destruct (promise_all_settle_spec i0 order
              (replicate (length tasks) None) w)
    as (w1 & tr1 & out & Hrun & Hout).
  { rewrite Hfst. apply NoDup_seq. }
  { apply Forall_forall. intros [k t] Hkt%Hel. rewrite length_replicate.
    simpl. by eapply lookup_lt_Some. }
  rewrite Hrun. destruct out as [values|e1]; [done|].
  intros [= -> -> ->].
  destruct Hout as (pre & [k t] & rest & w0 & Hsplit & -> & Hrej).
  exists k, t, w0. split_and!; [|done|].
  - apply Hel. rewrite Hsplit. apply elem_of_app. right. by left.
  - rewrite fmap_app. apply last_snoc.
Qed.

(** A rejected run of the loop: the operation that rejected, the chunk it
    belongs to, what had been started by then and the last event. *)
Lemma loop_rejection {W A B} (fn : AsyncFn W A B) items K :
  1 ≤ K →
  ∀ fuel i results w r e,
    runWithConcurrency_loop fuel items K fn i results w = Some r →
    run_outcome r = Rejected e →
    ∃ c k x w1 w2,
      k < K ∧ items !! (i + c * K + k) = Some x ∧
      (finish (fn x k (slice items (i + c * K) (i + c * K + K)) w1).2 w2).2
        = Rejected e ∧
      started (run_trace r)
        = seq i ((c * K + K) `min` (length items - i)) ∧
      last (run_trace r) = Some (EvSettle (i + c * K + k)).
Proof.
  intros HK. induction fuel as [|fuel IH]; intros i results w r e; [done|].
  simpl. case_decide as Hi; [|by intros [= <-]].
  set (batch := slice items i (i + K)).
  assert (length batch = K `min` (length items - i)) as Hbatch
    by apply slice_length.
  unfold array_map.
  pose proof (array_map_from_length fn batch 0 batch w) as Hlen.
  pose proof (array_map_from_inv fn batch 0 batch w) as Hinv.
  destruct (array_map_from fn batch 0 batch w) as [w1 tasks]. simpl in *.
  destruct (promise_all_spec i tasks w1) as (w2 & settles & out & Hall & Hout).
  rewrite Hall. destruct out as [batchResults|e0].
  - destruct Hout as ((order & Hperm & ->) & _).
    destruct (runWithConcurrency_loop fuel items K fn (i + K)
                (results ++ batchResults) w2) as [r'|] eqn:Hrun; [|done].
    intros [= <-] Hout. simpl in *.
    destruct (IH _ _ _ _ _ Hrun Hout)
      as (c & k & x & w3 & w4 & Hk & Hx & Hrej & Hst & Hlast).
    assert (i + K < length items) as HiK.
    { apply lookup_lt_Some in Hx. lia. }
    exists (S c), k, x, w3, w4.
    replace (i + S c * K) with (i + K + c * K) by (simpl; lia).
    split_and!; [done|done|done| |].
    + rewrite !started_app, started_starts, started_settles, Hst, Hbatch.
      simpl. rewrite Nat.min_l by lia. rewrite <- seq_app. f_equal. lia.
    + rewrite !last_app, Hlast. done.
  - destruct Hout as ((pre & rest & Hne & Hperm & ->) & _).
    intros [= <-] [= <-]. simpl.
    destruct (promise_all_rejection _ _ _ _ _ _ Hall)
      as (k & t & w0 & Ht & Hrej & Hlast).
    destruct (Hinv k t Ht) as (x & w3 & Hx & ->). simpl in Hrej.
    assert (k < K) as Hk.
    { apply lookup_lt_Some in Hx. lia. }
    exists 0, k, x, w3, w0. simpl. rewrite Nat.add_0_r.
    split_and!; [done| |done| |].
    + unfold batch in Hx. by rewrite slice_lookup in Hx.
    + by rewrite started_app, started_starts, started_settles, app_nil_r,
        Hbatch.
    + by rewrite last_app, Hlast.
Qed.

(** C6, as the code has it.  For every K >= 1 the helper terminates and
    starts no operation twice (no retry).  It never inspects a result: when
    no operation rejects (each catches its own errors and returns a value),
    every item's operation is started and N results come back, each being
    what the operation returned.  When an operation rejects, the helper
    rejects with the error of that operation, the item at position k of
    chunk c; the settling of that operation is the last event the helper
    follows; every operation of chunk c (its siblings included) and of the
    chunks before it has been started, and no operation of a later chunk
    is. *)
Theorem runWithConcurrency_failure_semantics {W A B} (items : list A)
    (K : nat) (fn : AsyncFn W A B) (w : W) :
  1 ≤ K →
  ∃ r,
    runWithConcurrency items K fn w = Some r ∧
    NoDup (started (run_trace r)) ∧
    (catches_own_errors fn items → ∃ rs, run_outcome r = Resolved rs) ∧
    match run_outcome r with
    | Resolved rs =>
        started (run_trace r) = seq 0 (length items) ∧
        length rs = length items ∧
        ∀ i x, items !! i = Some x →
          ∃ v, rs !! i = Some v ∧ produced fn items K i x v
    | Rejected e =>
        rejects fn items e ∧
        chunked K (length items) 0 false (run_trace r) ∧
        ∃ c k x w1 w2,
          k < K ∧ items !! (c * K + k) = Some x ∧
          (finish (fn x k (slice items (c * K) (c * K + K)) w1).2 w2).2
            = Rejected e ∧
          started (run_trace r) = seq 0 ((c * K + K) `min` length items) ∧
          last (run_trace r) = Some (EvSettle (c * K + k))
    end.
Proof.
  intros HK.
  destruct (loop_spec fn items K HK (S (length items)) 0 [] w)
    as (r & Hrun & Hr); [lia|].
  exists r. split; [done|].
  destruct (run_outcome r) as [rs|e] eqn:Hout.
  - destruct Hr as (Hch & rs' & -> & Hlen & Hprod). simpl in *.
    apply chunked_started in Hch. rewrite Nat.sub_0_r in Hch, Hlen.
    split_and!; [rewrite Hch; apply NoDup_seq|by eauto|done|done|done].
  - destruct Hr as (Hch & Hrej).
    destruct (loop_rejection fn items K HK _ _ _ _ _ _ Hrun Hout)
      as (c & k & x & w1 & w2 & Hk & Hx & Hfin & Hst & Hlast).
    simpl in *. rewrite Nat.sub_0_r in Hst.
    split_and!; [rewrite Hst; apply NoDup_seq| |done|done|].
    + intros Hcatch. by destruct (Hcatch e).
    + by exists c, k, x, w1, w2.
Qed.

Lemma runWithConcurrency_failure_semantics_witness :
  ∃ r,
    runWithConcurrency [2; 3; 1; 4; 5] 2 (per_item failing_op) () = Some r ∧
    NoDup (started (run_trace r)) ∧
    (catches_own_errors (per_item failing_op) [2; 3; 1; 4; 5] →
     ∃ rs, run_outcome r = Resolved rs) ∧
    match run_outcome r with
    | Resolved rs =>
        started (run_trace r) = seq 0 (length [2; 3; 1; 4; 5]) ∧
        length rs = length [2; 3; 1; 4; 5] ∧
        ∀ i x, [2; 3; 1; 4; 5] !! i = Some x →
          ∃ v, rs !! i = Some v ∧
            produced (per_item failing_op) [2; 3; 1; 4; 5] 2 i x v
    | Rejected e =>
        rejects (per_item failing_op) [2; 3; 1; 4; 5] e ∧
        chunked 2 (length [2; 3; 1; 4; 5]) 0 false (run_trace r) ∧
        ∃ c k x w1 w2,
          k < 2 ∧ [2; 3; 1; 4; 5] !! (c * 2 + k) = Some x ∧
          (finish (per_item failing_op x k
                     (slice [2; 3; 1; 4; 5] (c * 2) (c * 2 + 2)) w1).2 w2).2
            = Rejected e ∧
          started (run_trace r)
            = seq 0 ((c * 2 + 2) `min` length [2; 3; 1; 4; 5]) ∧
          last (run_trace r) = Some (EvSettle (c * 2 + k))
    end.
Proof.
  apply (runWithConcurrency_failure_semantics [2; 3; 1; 4; 5] 2
           (per_item failing_op) ()).
  lia.
Defined.

(** C6, as stated, fails: with one item per chunk and an operation that
    rejects on the first item, the helper rejects after the first chunk;
    the operations for the second and third item are never started and no
    results are returned. *)
Lemma runWithConcurrency_short_circuits :
  runWithConcurrency [1; 2; 3] 1 (per_item failing_op) ()
    = Some (mkRun () [EvStart 0; EvSettle 0] (Rejected "boom")) ∧
  ¬ isolates_failures [1; 2; 3] 1 (per_item failing_op) ().
Proof.
  split; [reflexivity|].
  intros (r & rs & Hrun & Hout & _).
  vm_compute in Hrun. injection Hrun as <-. discriminate.
Qed.

(** ** Request/reply callbacks run as if started one after the other *)

Section Sequential.
Context {W A B H : Type}.
Variable hist : W → H.
Variable req : A → H → H.
Variable out : A → H → B.
Variable Inv : list (A * H) → W → Prop.
Variable fn : AsyncFn W A B.
Hypothesis fn_ok : request_reply hist req out Inv fn.

Local Abbreviation task_of := (task_of hist out Inv).
Local Abbreviation paired := (paired req).
Local Abbreviation history_after := (history_after req).
Local Abbreviation outputs := (outputs req out).

Lemma paired_app xs ys h :
  paired (xs ++ ys) h = paired xs h ++ paired ys (history_after xs h).
Proof. revert h. induction xs as [|x xs IH]; intros h; simpl; [done|]. by rewrite IH. Qed.

Lemma history_after_app xs ys h :
  history_after (xs ++ ys) h = history_after ys (history_after xs h).
Proof. apply foldl_app. Qed.

Lemma paired_length xs h : length (paired xs h) = length xs.
Proof. revert h. induction xs as [|x xs IH]; intros h; simpl; [done|]. by rewrite IH. Qed.

Lemma paired_fst xs h : (paired xs h).*1 = xs.
Proof. revert h. induction xs as [|x xs IH]; intros h; csimpl; [done|]. by rewrite IH. Qed.

Lemma outputs_app xs ys h :
  outputs (xs ++ ys) h = outputs xs h ++ outputs ys (history_after xs h).
Proof. unfold outputs. by rewrite paired_app, fmap_app. Qed.

Lemma array_map_from_sequential arr k xs w :
  hist (array_map_from fn arr k xs w).1 = history_after xs (hist w) ∧
  (∀ fin, Inv fin w → Inv fin (array_map_from fn arr k xs w).1) ∧
  Forall2 (λ p t, task_of p.1 p.2 t) (paired xs (hist w))
    (array_map_from fn arr k xs w).2.
Proof.
  revert k w. induction xs as [|x xs IH]; intros k w; simpl.
  - split_and!; [done|done|constructor].
  - destruct (fn_ok x k arr w) as (Hh & Hi & Ht).
    destruct (fn x k arr w) as [w1 t]. simpl in *.
    destruct (IH (S k) w1) as (Hh' & Hi' & Hts).
    destruct (array_map_from fn arr (S k) xs w1) as [w2 ts]. simpl in *.
    split_and!.
    + by rewrite Hh', Hh.
    + auto.
    + constructor; [done|]. by rewrite <- Hh.
Qed.

Lemma promise_all_settle_sequential i0 (tags : list (A * H))
    (order : list (nat * Task W B)) values w fin :
  (∀ k t, (k, t) ∈ order → ∃ p, tags !! k = Some p ∧ task_of p.1 p.2 t) →
  Inv fin w →
  ∃ w' tr values',
    promise_all_settle i0 order values w = (w', tr, Resolved values') ∧
    hist w' = hist w ∧
    Inv (reverse (omap (λ q, tags !! q.1) order) ++ fin) w'.
Proof.
  revert values w fin.
  induction order as [|[k t] order IH]; intros values w fin Htag HI; simpl.
  - by exists w, [], values.
  - destruct (Htag k t) as ([x h] & Hk & Ht); [by left|].
    destruct (Ht w) as (Hv & Hh & Hstep). simpl in *.
    destruct (finish t w) as [w1 r]. simpl in *. subst r.
    destruct (IH (<[k:=Some (out x h)]> values) w1 ((x, h) :: fin))
      as (w' & tr & values' & Hrun & Hh' & HI').
    { intros k' t' Hel. apply Htag. by right. }
    { by apply Hstep. }
    rewrite Hrun. exists w', (EvSettle (i0 + k) :: tr), values'.
    split_and!; [done|congruence|].
    rewrite Hk. simpl. rewrite reverse_cons, <- (assoc_L (++)). done.
Qed.

Lemma omap_indexed_from (tags : list (A * H)) (ts : list (Task W B)) k pre :
  length pre = k → length tags = length ts →
  omap (λ q, (pre ++ tags) !! q.1) (indexed_from k ts) = tags.
Proof.
  revert tags k pre. induction ts as [|t ts IH]; intros [|p tags] k pre Hk Hlen;
    simplify_eq/=; [done|].
  rewrite lookup_app_r by lia. rewrite Nat.sub_diag. simpl. f_equal.
  rewrite (cons_middle p pre tags), (assoc_L (++)).
  apply IH; [rewrite length_app; simpl; lia|done].
Qed.

Lemma promise_all_sequential i0 (tags : list (A * H))
    (tasks : list (Task W B)) w fin :
  Forall2 (λ p t, task_of p.1 p.2 t) tags tasks →
  Inv fin w →
  ∃ w' tr fin',
    promise_all i0 tasks w
      = (w', tr, Resolved ((λ p, out p.1 p.2) <$> tags)) ∧
    hist w' = hist w ∧
    fin' ≡ₚ tags ∧
    Inv (fin' ++ fin) w'.
Proof.
  intros Hts HI.
  pose proof (Forall2_length _ _ _ Hts) as Hlen.
  set (order := completion_order (indexed_from 0 tasks)).
  assert (order ≡ₚ indexed_from 0 tasks) as Hperm
    by apply completion_order_perm.
  destruct (promise_all_settle_sequential i0 tags order
              (replicate (length tasks) None) w fin)
    as (w' & tr & values' & Hrun & Hh & HI'); [|done|].
  { intros k t Hel. rewrite Hperm in Hel.
    apply indexed_from_elem in Hel as (j & -> & Hj). simpl.
    destruct (Forall2_lookup_r _ _ _ _ _ Hts Hj) as (p & Hp & Htask).
    by exists p. }
  destruct (promise_all_spec i0 tasks w) as (w'' & tr' & res & Hall & Hres).
  pose proof Hall as Hall'. unfold promise_all in Hall'.
  fold order in Hall'. rewrite Hrun in Hall'. injection Hall' as <- <- <-.
  destruct Hres as (_ & Hrs & Hval).
  exists w', tr, (reverse (omap (λ q, tags !! q.1) order)).
  split_and!; [|done| |done].
  - rewrite Hall. do 2 f_equal. apply list_eq. intros j.
    rewrite list_lookup_fmap.
    destruct (tasks !! j) as [t|] eqn:Ht.
    + destruct (Hval j t Ht) as (w0 & v & Hfin & ->).
      destruct (Forall2_lookup_r _ _ _ _ _ Hts Ht) as (p & -> & Htask).
      simpl. destruct (Htask w0) as (Hv & _). congruence.
    + apply lookup_ge_None in Ht.
      rewrite (lookup_ge_None_2 tags) by lia. simpl.
      apply lookup_ge_None. lia.
  - rewrite reverse_Permutation, Hperm.
    pose proof (omap_indexed_from tags tasks 0 [] eq_refl Hlen) as Hall'.
    simpl in Hall'. by rewrite Hall'.
Qed.

Lemma loop_sequential items K :
  1 ≤ K →
  ∀ fuel i results w fin0,
    length items - i < fuel →
    Inv fin0 w →
    ∃ r fin,
      runWithConcurrency_loop fuel items K fn i results w = Some r ∧
      run_outcome r = Resolved (results ++ outputs (drop i items) (hist w)) ∧
      hist (run_world r) = history_after (drop i items) (hist w) ∧
      fin ≡ₚ paired (drop i items) (hist w) ∧
      Inv (fin ++ fin0) (run_world r).
Proof.
  intros HK. induction fuel as [|fuel IH]; intros i results w fin0 Hfuel HI;
    [lia|].
  simpl. case_decide as Hi.
  2:{ rewrite drop_ge by lia. exists (mkRun w [] (Resolved results)), [].
      unfold outputs. simpl. rewrite app_nil_r. done. }
  set (batch := slice items i (i + K)).
  assert (drop i items = batch ++ drop (i + K) items) as Hsplit.
  { unfold batch, slice. replace (i + K - i) with K by lia.
    rewrite <- drop_drop. by rewrite take_drop. }
  unfold array_map.
  destruct (array_map_from_sequential batch 0 batch w) as (Hh1 & Hi1 & Hts).
  destruct (array_map_from fn batch 0 batch w) as [w1 tasks]. simpl in *.
  destruct (promise_all_sequential i (paired batch (hist w)) tasks w1 fin0)
    as (w2 & settles & fin1 & Hall & Hh2 & Hperm1 & HI2); [done|by auto|].
  rewrite Hall.
  destruct (IH (i + K) (results ++ outputs batch (hist w)) w2 (fin1 ++ fin0))
    as (r & fin2 & Hrun & Hout & Hh3 & Hperm2 & HI3); [lia|done|].
  unfold outputs at 1 in Hrun. rewrite Hrun.
  eexists _, (fin2 ++ fin1). split; [done|]. simpl.
  rewrite Hsplit, outputs_app, paired_app.
  rewrite history_after_app.
  rewrite <- Hh1, <- Hh2.
  split_and!.
  - by rewrite Hout, (assoc_L (++)).
  - done.
  - rewrite Hperm2, Hperm1. apply Permutation_app_comm.
  - by rewrite <- (assoc_L (++)).
Qed.

(** A run of the helper over request/reply callbacks: the results and the
    final history are those of starting the callbacks one after the other in
    input order, and the invariant holds for all the continuations, taken in
    the order they ran. *)
Lemma runWithConcurrency_sequential items K w :
  1 ≤ K →
  Inv [] w →
  ∃ r fin,
    runWithConcurrency items K fn w = Some r ∧
    run_outcome r = Resolved (outputs items (hist w)) ∧
    hist (run_world r) = history_after items (hist w) ∧
    fin ≡ₚ paired items (hist w) ∧
    Inv fin (run_world r).
Proof.
  intros HK HI.
  destruct (loop_sequential items K HK (S (length items)) 0 [] w [])
    as (r & fin & Hrun & Hout & Hh & Hperm & HI'); [lia|done|].
  rewrite app_nil_r in HI'. by exists r, fin.
Qed.
End Sequential.

(** ** Deduplication *)

Lemma summaries_app out1 out2 :
  summaries (out1 ++ out2) = summaries out1 ++ summaries out2.
Proof. apply omap_app. Qed.

Lemma summaries_cons l out :
  summaries (l :: out)
    = match l with LogSummary s => [s] | _ => [] end ++ summaries out.
Proof. by destruct l. Qed.

Lemma summaries_log l out :
  summaries (out ++ [l])
    = summaries out ++ match l with LogSummary s => [s] | _ => [] end.
Proof. rewrite summaries_app, summaries_cons. by rewrite app_nil_r. Qed.

Lemma appends_quietly_refl w : appends_quietly w w.
Proof. exists []. by rewrite app_nil_r. Qed.

Lemma appends_quietly_trans w1 w2 w3 :
  appends_quietly w1 w2 → appends_quietly w2 w3 → appends_quietly w1 w3.
Proof.
  intros (o1 & H1 & S1) (o2 & H2 & S2). exists (o1 ++ o2).
  rewrite H2, H1, <- (assoc_L (++)), summaries_app, S1, S2. done.
Qed.

Lemma appends_quietly_log l w :
  match l with LogSummary _ => False | _ => True end →
  appends_quietly w (log l w).
Proof. intros Hl. exists [l]. split; [done|]. by destruct l. Qed.

Lemma appends_quietly_summaries w w' :
  appends_quietly w w' → summaries (console w') = summaries (console w).
Proof.
  intros (out & -> & Hs). by rewrite summaries_app, Hs, app_nil_r.
Qed.

Section Dedup.
Variable env : Env.

Lemma filterDuplicates_loop_spec (existing : gset value)
    (leads acc : list Lead) (dup : nat) (w : World) :
  let r := filterDuplicates_loop existing leads acc dup w in
  newLeads r.2
    = acc ++ filter (λ lead, get lead "Email" ∉ existing) leads ∧
  duplicateCount r.2
    = dup + length (filter (λ lead, get lead "Email" ∈ existing) leads) ∧
  calls r.1 = calls w ∧
  appends_quietly w r.1.
Proof.
  revert acc dup w. induction leads as [|lead leads IH]; intros acc dup w; simpl.
  - rewrite app_nil_r. split_and!; [done|lia|done|apply appends_quietly_refl].
  - rewrite !filter_cons. case_decide as Hin.
    + destruct (IH acc (S dup)
                  (log (LogSkipped (get lead "First Name")
                          (get lead "Last Name")) w))
        as (Hn & Hd & Hc & Ho).
      rewrite decide_False by (by intros []).
      split_and!; [done|simpl; lia|done|].
      eapply appends_quietly_trans; [|exact Ho]. by apply appends_quietly_log.
    + destruct (IH (acc ++ [lead]) dup w) as (Hn & Hd & Hc & Ho).
      rewrite decide_True by done.
      split_and!; [|done|done|done].
      by rewrite Hn, <- (assoc_L (++)).
Qed.


Lemma filter_complement_length {X} (P : X → Prop) `{∀ x, Decision (P x)}
    (l : list X) :
  length (filter P l) + length (filter (λ x, ¬ P x) l) = length l.
Proof.
  induction l as [|x l IH]; [done|]. rewrite !filter_cons.
  destruct (decide (P x)).
  - rewrite decide_False by tauto. simpl. lia.
  - rewrite decide_True by done. simpl. lia.
Qed.

(** What [filterDuplicates] returns, and that it issues one query. *)
Lemma filterDuplicates_spec (leads : list Lead) (w : World) :
  let reply := store_select env (calls w) (emails_of leads) in
  let r := filterDuplicates env leads w in
  calls r.1 = calls w ++ [CallSelect (emails_of leads)] ∧
  appends_quietly w r.1 ∧
  match reply with
  | Resolved (mkSelectReply (Some data) None) =>
      newLeads r.2
        = filter (λ lead, get lead "Email" ∉ (list_to_set data : gset value))
            leads ∧
      duplicateCount r.2
        = length (filter
                    (λ lead, get lead "Email" ∈ (list_to_set data : gset value))
                    leads)
  | _ => r.2 = mkDedup leads 0
  end.
Proof.
  unfold filterDuplicates, emails_of. simpl.
  assert (∀ l, match l with LogSummary _ => False | _ => True end →
            appends_quietly w
              (log l (issue (CallSelect ((λ lead, get lead "Email") <$> leads))
                        (log LogCheckingDuplicates w)))) as Hquiet.
  { intros l Hl. exists [LogCheckingDuplicates; l]. simpl.
    rewrite <- (assoc_L (++)). split; [done|]. by destruct l. }
  destruct (store_select env (calls w) _) as [[[data|] [e|]]|e]; simpl;
    try (split_and!; [done|by apply Hquiet|done]).
  pose proof (filterDuplicates_loop_spec (list_to_set data) leads [] 0
                (issue (CallSelect ((λ lead, get lead "Email") <$> leads))
                   (log LogCheckingDuplicates w))) as (Hn & Hd & Hc & Ho).
  destruct (filterDuplicates_loop _ leads [] 0 _) as [w' r]. simpl in *.
  split_and!; [done| |done|done].
  eapply appends_quietly_trans; [by apply (appends_quietly_log LogCheckingDuplicates)|].
  eapply appends_quietly_trans; [exact Ho|]. by apply appends_quietly_log.
Qed.

(** The result depends on the world only through the request history. *)
Lemma filterDuplicates_history (leads : list Lead) (w w' : World) :
  calls w = calls w' →
  (filterDuplicates env leads w).2 = (filterDuplicates env leads w').2.
Proof.
  intros Hc.
  pose proof (filterDuplicates_spec leads w) as (_ & _ & H1).
  pose proof (filterDuplicates_spec leads w') as (_ & _ & H2).
  simpl in *. rewrite <- Hc in H2.
  destruct (store_select env (calls w) (emails_of leads))
    as [[[data|] [e|]]|e]; try congruence.
  destruct H1 as [Hn1 Hd1], H2 as [Hn2 Hd2].
  destruct (filterDuplicates env leads w).2, (filterDuplicates env leads w').2.
  simpl in *. congruence.
Qed.
End Dedup.

(** C2.  For every batch, [filterDuplicates] issues exactly one existence
    query; [newLeads] is a subsequence of the batch in the original order;
    [duplicateCount] plus the number of new records is the size of the batch;
    and when the query delivers its rows, a record is kept exactly when its
    email is not among the returned emails. *)
Theorem filterDuplicates_partition (env : Env) (leads : list Lead) (w : World) :
  let r := filterDuplicates env leads w in
  calls r.1 = calls w ++ [CallSelect (emails_of leads)] ∧
  newLeads r.2 `sublist_of` leads ∧
  duplicateCount r.2 + length (newLeads r.2) = length leads ∧
  ∀ data,
    store_select env (calls w) (emails_of leads)
      = Resolved (mkSelectReply (Some data) None) →
    newLeads r.2 = filter (λ lead, get lead "Email" ∉ data) leads ∧
    duplicateCount r.2
      = length (filter (λ lead, get lead "Email" ∈ data) leads).
Proof.
  pose proof (filterDuplicates_spec env leads w) as (Hc & _ & Hr). simpl in *.
  split; [done|].
  destruct (store_select env (calls w) (emails_of leads))
    as [[[data|] [e|]]|e]; try (rewrite Hr; simpl; split_and!; [done|lia|done]).
  destruct Hr as [Hn Hd].
  assert (∀ lead : Lead,
            get lead "Email" ∈ (list_to_set data : gset value)
            ↔ get lead "Email" ∈ data) as Hset.
  { intros lead. apply elem_of_list_to_set. }
  split_and!.
  - rewrite Hn. apply sublist_filter.
  - rewrite Hn, Hd. apply filter_complement_length.
  - intros data' [= <-]. rewrite Hn, Hd. split.
    + apply list_filter_iff. intros lead. by rewrite Hset.
    + f_equal. apply list_filter_iff. intros lead. by rewrite Hset.
Qed.

Lemma filterDuplicates_partition_witness :
  newLeads (filterDuplicates env_ana_known [ana; ben; ana_again] start).2
    = [ben] ∧
  duplicateCount (filterDuplicates env_ana_known [ana; ben; ana_again] start).2
    = 2.
Proof.
  destruct (filterDuplicates_partition env_ana_known [ana; ben; ana_again]
              start) as (_ & _ & _ & Hdata).
  destruct (Hdata [VString "ana@sol.test"]) as [Hn Hd].
  - reflexivity.
  - split; [rewrite Hn|rewrite Hd]; reflexivity.
Defined.

(** C5.  When the existence query fails (it throws, returns an error, or
    returns no rows at all), [filterDuplicates] still returns: the whole
    batch, unchanged, as new, and zero duplicates. *)
Theorem filterDuplicates_fails_open (env : Env) (leads : list Lead)
    (w : World) :
  query_failed (store_select env (calls w) (emails_of leads)) →
  (filterDuplicates env leads w).2 = mkDedup leads 0.
Proof.
  intros Hfail.
  pose proof (filterDuplicates_spec env leads w) as (_ & _ & Hr). simpl in *.
  destruct (store_select env (calls w) (emails_of leads))
    as [[[data|] [e|]]|e]; try done.
  destruct Hfail as [[? [=]]|[=]].
Qed.

Lemma filterDuplicates_fails_open_witness :
  query_failed
    (store_select
       (const_env (Rejected "fetch failed") (Resolved []) (Rejected "down")
          (λ _, Resolved 200))
       (calls start) (emails_of [ana; ben])) ∧
  (filterDuplicates
     (const_env (Rejected "fetch failed") (Resolved []) (Rejected "down")
        (λ _, Resolved 200))
     [ana; ben] start).2 = mkDedup [ana; ben] 0.
Proof.
  split; [exact I|].
  apply (filterDuplicates_fails_open
           (const_env (Rejected "fetch failed") (Resolved [])
              (Rejected "down") (λ _, Resolved 200))
           [ana; ben] start).
  exact I.
Defined.

(** ** Classification *)

Section Classify.
Variable env : Env.

Lemma classifyLead_start lead w :
  (classifyLead env lead w).1 = issue (CallClassify (to_prompt lead)) w.
Proof.
  unfold classifyLead. by destruct (messages_create env _ _).
Qed.

(** [classifyLead] always resolves, with the persona of the reply, and
    prints no summary. *)
Lemma classifyLead_finish lead w w' :
  let r := finish (classifyLead env lead w).2 w' in
  r.2 = Resolved
          (persona_of_reply (messages_create env (calls w) (to_prompt lead)).2)
  ∧ calls r.1 = calls w'
  ∧ appends_quietly w' r.1.
Proof.
  unfold classifyLead, persona_of_reply.
  destruct (messages_create env (calls w) (to_prompt lead))
    as [lat [message|e]]; simpl.
  - destruct (message !! 0) as [[text|]|]; simpl.
    + destruct (matches_persona (trim text)); simpl;
        (split_and!; [done|done|]);
        [apply appends_quietly_refl|by apply appends_quietly_log].
    + split_and!; [done|done|by apply appends_quietly_log].
    + split_and!; [done|done|by apply appends_quietly_log].
  - split_and!; [done|done|by apply appends_quietly_log].
Qed.

Lemma classify_callback_request_reply C0 :
  request_reply calls classify_request (classify_output env)
    (classify_inv env C0) (per_item (classify_callback env)).
Proof.
  intros lead k arr w. unfold per_item, classify_callback.
  pose proof (classifyLead_start lead w) as Hstart.
  pose proof (classifyLead_finish lead w) as Hfin.
  destruct (classifyLead env lead w) as [w1 t]. simpl in *. subst w1.
  split_and!; [done|done|].
  intros w'. destruct (Hfin w') as (Hv & Hc & out2 & Ho2 & Hs2).
  unfold await. simpl.
  destruct (finish t w') as [w2 r]. simpl in *. subst r. simpl.
  split_and!; [done|done|].
  intros fin (out & Ho & Hs & Hlines).
  eexists (out ++ out2 ++ [_]). simpl. split_and!.
  - rewrite Ho2, Ho, <- !(assoc_L (++)). done.
  - rewrite !summaries_app, Hs, Hs2. done.
  - intros p [->|Hp]%elem_of_cons.
    + rewrite !elem_of_app. right. right. by left.
    + rewrite elem_of_app. left. by apply Hlines.
Qed.

Lemma classify_history leads h :
  history_after classify_request leads h
    = h ++ (CallClassify ∘ to_prompt <$> leads).
Proof.
  revert h. induction leads as [|lead leads IH]; intros h; simpl.
  - by rewrite app_nil_r.
  - unfold history_after in *. simpl. rewrite IH.
    unfold classify_request. by rewrite <- (assoc_L (++)).
Qed.

Lemma classified_by_leads leads h :
  c_lead <$> classified_by env leads h = leads.
Proof.
  unfold classified_by, outputs. rewrite <- list_fmap_compose.
  rewrite <- (paired_fst classify_request leads h) at 2. done.
Qed.

Lemma classified_by_length leads h :
  length (classified_by env leads h) = length leads.
Proof. by rewrite <- (classified_by_leads leads h) at 2; rewrite length_fmap. Qed.

(** [classifyLeads] never fails: it returns one classified record per
    lead, in order, after one classification request per lead. *)
Lemma classifyLeads_spec leads w :
  ∃ w' out,
    classifyLeads env leads w
      = Some (w', Resolved (classified_by env leads (calls w))) ∧
    calls w' = calls w ++ (CallClassify ∘ to_prompt <$> leads) ∧
    console w' = console w ++ out ∧
    summaries out = [] ∧
    ∀ c, c ∈ classified_by env leads (calls w) → classified_line c ∈ out.
Proof.
  unfold classifyLeads.
  set (w0 := log (LogClassifying (length leads) CONCURRENCY) w).
  destruct (runWithConcurrency_sequential calls classify_request
              (classify_output env) (classify_inv env (console w0))
              (per_item (classify_callback env))
              (classify_callback_request_reply _) leads CONCURRENCY w0)
    as (r & fin & Hrun & Hout & Hh & Hperm & out & Ho & Hs & Hlines).
  { unfold CONCURRENCY. lia. }
  { exists []. rewrite app_nil_r. split_and!; [done|done|].
    by intros p ?%elem_of_nil. }
  rewrite Hrun. destruct r as [w1 tr res]. simpl in *. subst res.
  eexists _, (LogClassifying (length leads) CONCURRENCY :: out ++ [_]).
  split; [done|]. simpl. split_and!.
  - by rewrite Hh, classify_history.
  - rewrite Ho, <- !(assoc_L (++)). done.
  - by rewrite summaries_app, Hs.
  - intros c (p & -> & Hp)%list_elem_of_fmap.
    right. rewrite elem_of_app. left. apply Hlines. by rewrite Hperm.
Qed.
End Classify.

(** ** Persistence *)

Lemma addLeadsToDatabase_spec (env : Env) (cs : list Classified) (w : World) :
  let r := addLeadsToDatabase env cs w in
  calls r.1 = calls w ++ [CallInsert (to_row <$> cs)] ∧
  (∃ l, console r.1 = console w ++ [LogInserting (length cs); l] ∧
        summaries [l] = []) ∧
  r.2 = if insert_ok (store_insert env (calls w) (to_row <$> cs))
        then mkDbResult true (length cs) else mkDbResult false 0.
Proof.
  unfold addLeadsToDatabase. simpl.
  destruct (store_insert env (calls w) (to_row <$> cs)) as [[[e|]]|e]; simpl;
    rewrite ?length_fmap;
    (split_and!; [done| |done]); eexists; rewrite <- (assoc_L (++));
    (split; [done|done]).
Qed.

(** ** Delivery *)

Section Deliver.
Variable env : Env.

Lemma failure_logged_app p pre out post :
  failure_logged env p out → failure_logged env p (pre ++ out ++ post).
Proof.
  unfold failure_logged. destruct (axios_post env p.2 (to_payload p.1)).2;
    intros Hin; rewrite !elem_of_app; tauto.
Qed.

Lemma failure_logged_mono p out l :
  failure_logged env p out → failure_logged env p (out ++ [l]).
Proof. apply (failure_logged_app p [] out [l]). Qed.

Lemma webhook_callback_request_reply C0 :
  request_reply (λ s, calls (sender_world s)) post_request (λ _ _, ())
    (webhook_inv env C0) (per_item (webhook_callback env)).
Proof.
  intros c k arr s. unfold per_item, webhook_callback.
  destruct (axios_post env (calls (sender_world s)) (to_payload c))
    as [lat reply] eqn:Hpost.
  simpl. split_and!; [done|done|].
  assert (∀ b, acknowledged reply = b →
            delivered env (c, calls (sender_world s)) ↔ b = true) as Hdel.
  { intros b <-. unfold delivered. simpl. by rewrite Hpost. }
  assert (∀ out l,
            match reply with
            | Resolved status => l = LogWebhookStatus status (get (c_lead c) "Email")
            | Rejected e => l = LogWebhookError (get (c_lead c) "Email") e
            end →
            failure_logged env (c, calls (sender_world s)) (out ++ [l]))
    as Hline.
  { intros out l Hl. unfold failure_logged. simpl. rewrite Hpost. simpl.
    destruct reply; subst l; apply elem_of_app; right; by left. }
  intros s'. simpl. split_and!.
  - destruct reply as [status|e]; [case_decide|]; done.
  - destruct reply as [status|e]; [case_decide|]; done.
  - intros fin (Hs & Hf & out & Ho & HS & Hlog). unfold webhook_inv.
    rewrite !filter_cons.
    destruct reply as [status|e]; [case_decide as Hst|]; simpl.
    + assert (delivered env (c, calls (sender_world s))) as Hd.
      { apply (Hdel true); [|done]. simpl. by apply bool_decide_eq_true. }
      rewrite decide_True by done. rewrite decide_False by tauto. simpl.
      split_and!; [lia|done|]. exists out. split_and!; [done|done|].
      intros p [->|Hp]%elem_of_cons Hnd; [done|]. by apply Hlog.
    + assert (¬ delivered env (c, calls (sender_world s))) as Hd.
      { intros Hd. apply (Hdel false) in Hd; [done|].
        simpl. by apply bool_decide_eq_false. }
      rewrite decide_False by done. rewrite decide_True by done. simpl.
      split_and!; [done|lia|]. eexists (out ++ [_]). split_and!.
      * rewrite Ho, <- (assoc_L (++)). done.
      * by rewrite summaries_log, HS.
      * intros p [->|Hp]%elem_of_cons Hnd; [by apply Hline|].
        apply failure_logged_mono. by apply Hlog.
    + assert (¬ delivered env (c, calls (sender_world s))) as Hd.
      { intros Hd. by apply (Hdel false) in Hd. }
      rewrite decide_False by done. rewrite decide_True by done. simpl.
      split_and!; [done|lia|]. eexists (out ++ [_]). split_and!.
      * rewrite Ho, <- (assoc_L (++)). done.
      * by rewrite summaries_log, HS.
      * intros p [->|Hp]%elem_of_cons Hnd; [by apply Hline|].
        apply failure_logged_mono. by apply Hlog.
Qed.

Lemma post_history cs h :
  history_after post_request cs h = h ++ (CallPost ∘ to_payload <$> cs).
Proof.
  revert h. induction cs as [|c cs IH]; intros h; simpl.
  - by rewrite app_nil_r.
  - unfold history_after in *. simpl. rewrite IH.
    unfold post_request. by rewrite <- (assoc_L (++)).
Qed.

(** [sendLeadsToWebhook] never fails: one request per record, in order;
    the counters count the acknowledged and the other deliveries; every
    failed delivery is on the console with the record's email. *)
Lemma sendLeadsToWebhook_spec cs w :
  ∃ w' out,
    sendLeadsToWebhook env cs w
      = Some (w', Resolved
           (mkWebhookResult
              (length (filter (delivered env) (deliveries cs (calls w))))
              (length (filter (λ p, ¬ delivered env p)
                         (deliveries cs (calls w)))))) ∧
    calls w' = calls w ++ (CallPost ∘ to_payload <$> cs) ∧
    console w' = console w ++ out ∧
    summaries out = [] ∧
    ∀ p, p ∈ deliveries cs (calls w) → ¬ delivered env p →
      failure_logged env p out.
Proof.
  unfold sendLeadsToWebhook.
  set (w0 := log (LogSending (length cs) CONCURRENCY) w).
  destruct (runWithConcurrency_sequential (λ s, calls (sender_world s))
              post_request (λ _ _, ()) (webhook_inv env (console w0))
              (per_item (webhook_callback env))
              (webhook_callback_request_reply _) cs CONCURRENCY
              (mkSender w0 0 0))
    as (r & fin & Hrun & Hout & Hh & Hperm & Hs & Hf & out & Ho & HS & Hlog).
  { unfold CONCURRENCY. lia. }
  { split_and!; [done|done|]. exists []. rewrite app_nil_r.
    split_and!; [done|done|]. by intros p ?%elem_of_nil. }
  rewrite Hrun. destruct r as [s tr res]. simpl in *. subst res.
  eexists _, (LogSending (length cs) CONCURRENCY :: out ++ [_]).
  split; [|split_and!].
  - rewrite Hs, Hf, Hperm. done.
  - simpl. by rewrite Hh, post_history.
  - simpl. rewrite Ho, <- !(assoc_L (++)). done.
  - simpl. by rewrite summaries_app, HS.
  - intros p Hp Hnd. apply (failure_logged_app p [_] out [_]).
    apply Hlog; [|done]. by rewrite Hperm.
Qed.
End Deliver.

(** ** The orchestrator *)

Section Main.
Variable env : Env.

(** An unreadable source is fatal. *)
Lemma main_unreadable e w :
  ∃ w', main env (Rejected e) w = Some (w', Exit1) ∧ calls w' = calls w.
Proof. eexists. split; [reflexivity|done]. Qed.

(** When nothing is left after deduplication, [main] prints its notice
    and returns. *)
Lemma main_short_circuit leads w :
  newLeads (filterDuplicates env leads w).2 = [] →
  ∃ w',
    main env (Resolved leads) w = Some (w', Returned) ∧
    calls w' = calls w ++ [CallSelect (emails_of leads)] ∧
    summaries (console w') = summaries (console w) ∧
    last (console w') = Some LogNothingToProcess.
Proof.
  intros Hnone. unfold main, readCSV.
  set (w1 := log (LogBanner "PROCESSING LEADS") _).
  rewrite (filterDuplicates_history env leads w w1 eq_refl) in Hnone.
  pose proof (filterDuplicates_spec env leads w1) as (Hc & Hs & _).
  destruct (filterDuplicates env leads w1) as [w2 d].
  simpl in Hnone, Hc, Hs. rewrite Hnone. simpl.
  eexists. split; [done|]. simpl.
  rewrite summaries_log, app_nil_r, last_snoc.
  rewrite (appends_quietly_summaries _ _ Hs).
  unfold w1. simpl. rewrite !summaries_log, !app_nil_r. done.
Qed.

(** Otherwise [main] runs the three stages in order and prints the
    summary, whatever the collaborators answer. *)
Lemma main_completes leads w :
  let d := (filterDuplicates env leads w).2 in
  let h1 := calls w ++ [CallSelect (emails_of leads)] in
  let cs := classified_by env (newLeads d) h1 in
  let h2 := h1 ++ (CallClassify ∘ to_prompt <$> newLeads d) in
  let ok := insert_ok (store_insert env h2 (to_row <$> cs)) in
  let h3 := h2 ++ [CallInsert (to_row <$> cs)] in
  newLeads d ≠ [] →
  ∃ w' before after,
    main env (Resolved leads) w = Some (w', Returned) ∧
    calls w' = h3 ++ (CallPost ∘ to_payload <$> cs) ∧
    console w' = console w ++ before ++ LogInserting (length cs) :: after ∧
    summaries before = [] ∧
    (∀ c, c ∈ cs → classified_line c ∈ before) ∧
    summaries after
      = [mkSummary (length leads) (if ok then length cs else 0)
           (duplicateCount d) (if ok then 0 else length (newLeads d))
           (length (filter (delivered env) (deliveries cs h3)))
           (length (filter (λ p, ¬ delivered env p) (deliveries cs h3)))
           (persona_count cs "Persona 1") (persona_count cs "Persona 2")
           (persona_count cs "Persona 3") (persona_count cs "Persona 4")] ∧
    ∀ p, p ∈ deliveries cs h3 → ¬ delivered env p →
      failure_logged env p after.
Proof.
  intros d h1 cs h2 ok h3 Hsome. unfold main, readCSV.
  set (w1 := log (LogBanner "PROCESSING LEADS") _).
  pose proof (filterDuplicates_spec env leads w1) as (Hc1 & (o1 & Ho1 & Hs1) & _).
  pose proof (filterDuplicates_history env leads w w1 eq_refl) as Hd.
  fold d in Hd.
  destruct (filterDuplicates env leads w1) as [w2 d'].
  simpl in Hd, Hc1, Ho1. subst d'.
  rewrite decide_False by (by destruct (newLeads d)).
  destruct (classifyLeads_spec env (newLeads d) w2)
    as (w3 & o3 & Hcl & Hc3 & Ho3 & Hs3 & Hlines).
  rewrite Hc1 in Hcl, Hc3, Hlines. fold h1 cs in Hcl, Hlines.
  fold h1 h2 in Hc3. rewrite Hcl.
  pose proof (addLeadsToDatabase_spec env cs w3) as (Hc4 & (l4 & Ho4 & Hs4) & Hdb).
  rewrite Hc3 in Hc4, Hdb. fold ok in Hdb. fold h3 in Hc4.
  destruct (addLeadsToDatabase env cs w3) as [w4 db]. simpl in Hc4, Ho4, Hdb.
  destruct (sendLeadsToWebhook_spec env cs w4)
    as (w5 & o5 & Hsend & Hc5 & Ho5 & Hs5 & Hlog).
  rewrite Hc4 in Hsend, Hc5, Hlog. rewrite Hsend.
  eexists _,
    ([LogBanner "LEAD CLASSIFICATION AUTOMATION"; LogReadingCsv;
      LogCsvRead (length leads); LogBanner "PROCESSING LEADS"] ++ o1 ++ o3),
    (l4 :: o5 ++ [_; _; _]).
  split; [done|]. simpl. split_and!.
  - done.
  - rewrite Ho5, Ho4, Ho3, Ho1. unfold w1. simpl.
    rewrite <- !(assoc_L (++)). done.
  - by rewrite summaries_app, Hs1, Hs3.
  - intros c Hc. do 4 right. rewrite elem_of_app. right. by apply Hlines.
  - simpl in Hs4.
    destruct l4; try done; rewrite summaries_app, Hs5; simpl; subst db;
      by destruct ok.
  - intros p Hp Hnd. apply (failure_logged_app env p [l4] o5).
    by apply Hlog.
Qed.

(** The same run, seen from its end: the requests made and the one summary
    printed. *)
Lemma main_summary leads w :
  let d := (filterDuplicates env leads w).2 in
  let h1 := calls w ++ [CallSelect (emails_of leads)] in
  let cs := classified_by env (newLeads d) h1 in
  let h2 := h1 ++ (CallClassify ∘ to_prompt <$> newLeads d) in
  let ok := insert_ok (store_insert env h2 (to_row <$> cs)) in
  let h3 := h2 ++ [CallInsert (to_row <$> cs)] in
  newLeads d ≠ [] →
  ∃ w',
    main env (Resolved leads) w = Some (w', Returned) ∧
    calls w' = h3 ++ (CallPost ∘ to_payload <$> cs) ∧
    summaries (console w')
      = summaries (console w) ++
        [mkSummary (length leads) (if ok then length cs else 0)
           (duplicateCount d) (if ok then 0 else length (newLeads d))
           (length (filter (delivered env) (deliveries cs h3)))
           (length (filter (λ p, ¬ delivered env p) (deliveries cs h3)))
           (persona_count cs "Persona 1") (persona_count cs "Persona 2")
           (persona_count cs "Persona 3") (persona_count cs "Persona 4")] ∧
    ∀ p, p ∈ deliveries cs h3 → ¬ delivered env p →
      failure_logged env p (console w').
Proof.
  intros d h1 cs h2 ok h3 Hsome.
  destruct (main_completes leads w Hsome)
    as (w' & before & after & Hrun & Hc & Ho & Hsb & _ & Hsa & Hlog).
  exists w'. split_and!; [done|done| |].
  - rewrite Ho, !summaries_app, Hsb, summaries_cons. simpl.
    by fold d h1 cs h2 ok h3 in Hsa |- *; rewrite Hsa.
  - intros p Hp Hnd. rewrite Ho. specialize (Hlog p Hp Hnd).
    unfold failure_logged in *.
    destruct (axios_post env p.2 (to_payload p.1)).2;
      rewrite !elem_of_app, elem_of_cons; tauto.
Qed.
End Main.

(** ** The claims about the stages *)

(** What the classifier adapter can return: the fallback, or the trimmed
    reply text whenever the pattern matches somewhere inside it. *)
Lemma persona_of_reply_cases (reply : Settled Message) :
  persona_of_reply reply = "Persona 4" ∨
  ∃ message text,
    reply = Resolved message ∧ message !! 0 = Some (Some text) ∧
    matches_persona (trim text) = true ∧
    persona_of_reply reply = trim text.
Proof.
  destruct reply as [message|e]; simpl; [|by left].
  destruct (message !! 0) as [[text|]|] eqn:Hm; [|by left..].
  destruct (matches_persona (trim text)) eqn:Hmatch; [|by left].
  right. by exists message, text.
Qed.

(** On a thrown error, a reply without text, or a text the pattern does
    not match, the adapter falls back to "Persona 4"; the four tokens
    themselves are accepted. *)
Lemma persona_of_reply_fallback (reply : Settled Message) :
  match reply with
  | Rejected _ => True
  | Resolved message =>
      match message !! 0 with
      | Some (Some text) => matches_persona (trim text) = false
      | _ => True
      end
  end →
  persona_of_reply reply = "Persona 4".
Proof.
  destruct reply as [message|e]; simpl; [|done].
  destruct (message !! 0) as [[text|]|]; [|done..].
  by intros ->.
Qed.

Lemma persona_of_reply_token (p : string) :
  p ∈ personas → persona_of_reply (Resolved [Some p]) = p.
Proof.
  unfold personas. rewrite !elem_of_cons, elem_of_nil.
  intros [->|[->|[->|[->|[]]]]]; reflexivity.
Qed.

(** C3, at the failing input.  The classifier answers "Persona 1 (Owner)".
    The unanchored pattern matches inside that text, so [classifyLead]
    returns the whole text, which is none of the four tokens; the summary
    then counts the record under no persona. *)
Theorem classifyLead_returns_unrecognized_token :
  (finish (classifyLead env_decorated_answer ana start).2 start).2
    = Resolved "Persona 1 (Owner)" ∧
  ¬ ("Persona 1 (Owner)" ∈ personas) ∧
  ∃ w' s,
    main env_decorated_answer (Resolved [ana]) start = Some (w', Returned) ∧
    summaries (console w') = [s] ∧
    sum_processed s = 1 ∧
    sum_persona1 s + sum_persona2 s + sum_persona3 s + sum_persona4 s = 0.
Proof.
  split_and!.
  - reflexivity.
  - unfold personas. rewrite !elem_of_cons, elem_of_nil.
    intros [[=]|[[=]|[[=]|[[=]|[]]]]].
  - eexists _, _. split; [vm_compute; reflexivity|]. done.
Qed.

(** C4.  [addLeadsToDatabase] issues exactly one bulk insert, with a row
    for every classified record, and returns [{success: true, count: N}]
    when the insert comes back without error and [{success: false,
    count: 0}] otherwise, never anything in between.  In a run where the
    insert fails the run still returns normally after attempting every
    delivery; the summary shows zero processed, and the persona counts are
    those of the same run with any other store insert. *)
Theorem addLeadsToDatabase_all_or_nothing (env : Env) :
  (∀ cs w,
     let r := addLeadsToDatabase env cs w in
     calls r.1 = calls w ++ [CallInsert (to_row <$> cs)] ∧
     (r.2 = mkDbResult true (length cs) ∨ r.2 = mkDbResult false 0) ∧
     (success r.2 = true
      ↔ insert_ok (store_insert env (calls w) (to_row <$> cs)) = true)) ∧
  (∀ leads ins,
     newLeads (filterDuplicates env leads start).2 ≠ [] →
     (∀ h rows, insert_ok (store_insert env h rows) = false) →
     ∃ w1 s1 w2 s2,
       main env (Resolved leads) start = Some (w1, Returned) ∧
       summaries (console w1) = [s1] ∧
       sum_processed s1 = 0 ∧
       sum_failed_inserts s1
         = length (newLeads (filterDuplicates env leads start).2) ∧
       sum_webhook_sent s1 + sum_webhook_failed s1
         = length (newLeads (filterDuplicates env leads start).2) ∧
       main (with_store_insert env ins) (Resolved leads) start
         = Some (w2, Returned) ∧
       summaries (console w2) = [s2] ∧
       sum_persona1 s1 = sum_persona1 s2 ∧ sum_persona2 s1 = sum_persona2 s2 ∧
       sum_persona3 s1 = sum_persona3 s2 ∧ sum_persona4 s1 = sum_persona4 s2).
Proof.
  split.
  - intros cs w.
    pose proof (addLeadsToDatabase_spec env cs w) as (Hc & _ & Hr).
    simpl in *. split; [done|]. rewrite Hr.
    destruct (insert_ok _); simpl; split; (tauto || done).
  - intros leads ins Hsome Hfail.
    destruct (main_summary env leads start Hsome)
      as (w1 & Hrun1 & _ & Hs1 & _).
    destruct (main_summary (with_store_insert env ins) leads start Hsome)
      as (w2 & Hrun2 & _ & Hs2 & _).
    eexists w1, _, w2, _.
    split_and!; [done|exact Hs1| | | |done|exact Hs2|done..]; simpl.
    + by rewrite Hfail.
    + by rewrite Hfail.
    + rewrite filter_complement_length. unfold deliveries.
      by rewrite paired_length, classified_by_length.
Qed.

Lemma addLeadsToDatabase_all_or_nothing_witness :
  ∃ w1 s1,
    main (sample_env [] "Persona 2" (Rejected "duplicate key")
            (λ _, Resolved 200)) (Resolved [ana; ben]) start
      = Some (w1, Returned) ∧
    summaries (console w1) = [s1] ∧
    sum_processed s1 = 0 ∧ sum_persona2 s1 = 2.
Proof.
  destruct (addLeadsToDatabase_all_or_nothing
              (sample_env [] "Persona 2" (Rejected "duplicate key")
                 (λ _, Resolved 200))) as [_ Hrun].
  destruct (Hrun [ana; ben] (λ _ _, Resolved (mkInsertReply None)))
    as (w1 & s1 & w2 & s2 & Hm1 & Hs1 & Hp & _ & _ & Hm2 & Hs2 & _ & Hp2 & _).
  - vm_compute. discriminate.
  - intros h rows. reflexivity.
  - exists w1, s1. split_and!; [done|done|done|].
    rewrite Hp2. vm_compute in Hm2. injection Hm2 as <-.
    vm_compute in Hs2. injection Hs2 as <-. reflexivity.
Defined.

(** C7.  In every run that gets past deduplication the requests go out in
    this order: one classification request per new record; then the single
    bulk insert, whose rows carry the persona of every record; then one
    delivery per classified record.  On the console the line of every
    classified record, printed once its persona is in, stands before the line
    that announces the insert: the insert is issued only after all
    classification results are collected.  None of this depends on what the
    store answers to the insert: with any other store insert (failing or
    not) the very same requests are made, deliveries included. *)
Theorem main_stage_order (env : Env) (leads : list Lead) (w : World) :
  newLeads (filterDuplicates env leads w).2 ≠ [] →
  ∃ w' cs before after,
    main env (Resolved leads) w = Some (w', Returned) ∧
    c_lead <$> cs = newLeads (filterDuplicates env leads w).2 ∧
    calls w'
      = calls w ++ [CallSelect (emails_of leads)]
          ++ (CallClassify ∘ to_prompt <$> (c_lead <$> cs))
          ++ [CallInsert (to_row <$> cs)]
          ++ (CallPost ∘ to_payload <$> cs) ∧
    console w' = console w ++ before ++ LogInserting (length cs) :: after ∧
    (∀ c, c ∈ cs → classified_line c ∈ before) ∧
    ∀ ins, ∃ w2,
      main (with_store_insert env ins) (Resolved leads) w
        = Some (w2, Returned) ∧
      calls w2 = calls w'.
Proof.
  intros Hsome.
  destruct (main_completes env leads w Hsome)
    as (w' & before & after & Hrun & Hc & Ho & _ & Hlines & _).
  eexists w', _, before, after.
  split_and!; [done|apply classified_by_leads| |exact Ho|exact Hlines|].
  - rewrite Hc, classified_by_leads, <- !(assoc_L (++)). done.
  - intros ins.
    destruct (main_summary (with_store_insert env ins) leads w Hsome)
      as (w2 & Hrun2 & Hc2 & _).
    exists w2. split; [done|]. by rewrite Hc2, Hc.
Qed.

Lemma main_stage_order_witness :
  ∃ w' cs,
    main env_ben_undeliverable (Resolved [ana; ben]) start
      = Some (w', Returned) ∧
    c_lead <$> cs = [ana; ben] ∧
    calls w'
      = [CallSelect (emails_of [ana; ben])]
          ++ (CallClassify ∘ to_prompt <$> [ana; ben])
          ++ [CallInsert (to_row <$> cs)]
          ++ (CallPost ∘ to_payload <$> cs).
Proof.
  destruct (main_stage_order env_ben_undeliverable [ana; ben] start)
    as (w' & cs & before & after & Hrun & Hcs & Hcalls & _).
  - vm_compute. discriminate.
  - exists w', cs. split; [done|]. split; [exact Hcs|].
    rewrite Hcalls, Hcs. reflexivity.
Defined.

(** C8.  [sendLeadsToWebhook] makes exactly one request per classified
    record, in order, and none again.  A delivery counts as sent exactly
    when the reply carries status 200 or 201; any other status and any
    thrown error counts as failed and is on the console with the record's
    email.  The two counters add up to the number of records.  In a run,
    the processed figure of the summary is the same whatever the webhook
    answers. *)
Theorem sendLeadsToWebhook_accounting (env : Env) :
  (∀ p, delivered env p ↔
     ∃ status, (axios_post env p.2 (to_payload p.1)).2 = Resolved status ∧
       (status = 200 ∨ status = 201)) ∧
  (∀ cs w, ∃ w' r,
     sendLeadsToWebhook env cs w = Some (w', Resolved r) ∧
     calls w' = calls w ++ (CallPost ∘ to_payload <$> cs) ∧
     successCount r
       = length (filter (delivered env) (deliveries cs (calls w))) ∧
     failCount r
       = length (filter (λ p, ¬ delivered env p) (deliveries cs (calls w))) ∧
     successCount r + failCount r = length cs ∧
     ∀ p, p ∈ deliveries cs (calls w) → ¬ delivered env p →
       failure_logged env p (console w')) ∧
  (∀ leads post,
     newLeads (filterDuplicates env leads start).2 ≠ [] →
     ∃ w1 s1 w2 s2,
       main env (Resolved leads) start = Some (w1, Returned) ∧
       summaries (console w1) = [s1] ∧
       main (with_axios_post env post) (Resolved leads) start
         = Some (w2, Returned) ∧
       summaries (console w2) = [s2] ∧
       sum_processed s1 = sum_processed s2 ∧
       sum_webhook_sent s1 + sum_webhook_failed s1
         = length (newLeads (filterDuplicates env leads start).2)).
Proof.
  split_and!.
  - intros p. unfold delivered.
    destruct (axios_post env p.2 (to_payload p.1)).2 as [status|e]; simpl.
    + rewrite bool_decide_eq_true. split.
      * intros Hst. by exists status.
      * by intros (? & [= <-] & Hst).
    + split; [done|]. by intros (? & [=] & _).
  - intros cs w.
    destruct (sendLeadsToWebhook_spec env cs w)
      as (w' & out & Hrun & Hc & Ho & _ & Hlog).
    eexists w', _. split_and!; [done|done|done|done| |]; simpl.
    + rewrite filter_complement_length. unfold deliveries.
      by rewrite paired_length.
    + intros p Hp Hnd. rewrite Ho, <- (app_nil_r out).
      by apply failure_logged_app, Hlog.
  - intros leads post Hsome.
    destruct (main_summary env leads start Hsome)
      as (w1 & Hrun1 & _ & Hs1 & _).
    destruct (main_summary (with_axios_post env post) leads start Hsome)
      as (w2 & Hrun2 & _ & Hs2 & _).
    eexists w1, _, w2, _.
    split_and!; [done|exact Hs1|done|exact Hs2|done|]. simpl.
    rewrite filter_complement_length. unfold deliveries.
    by rewrite paired_length, classified_by_length.
Qed.

Lemma sendLeadsToWebhook_accounting_witness :
  ∃ w1 s1,
    main env_ben_undeliverable (Resolved [ana; ben; ana_again]) start
      = Some (w1, Returned) ∧
    summaries (console w1) = [s1] ∧
    sum_webhook_sent s1 = 2 ∧ sum_webhook_failed s1 = 1 ∧
    sum_processed s1 = 3.
Proof.
  destruct (sendLeadsToWebhook_accounting env_ben_undeliverable)
    as (_ & _ & Hrun).
  destruct (Hrun [ana; ben; ana_again] (λ _ _, (0, Resolved 200)))
    as (w1 & s1 & w2 & s2 & Hm1 & Hs1 & _).
  - vm_compute. discriminate.
  - exists w1, s1. split; [done|]. split; [done|].
    vm_compute in Hm1. injection Hm1 as <-.
    vm_compute in Hs1. injection Hs1 as <-. done.
Defined.

(** C9, as the code has it.  When no record is left after deduplication,
    [main] makes no request beyond the existence query (no classification,
    no insert, no delivery), prints the notice that there is nothing to
    process as its last line, and returns without printing a summary. *)
Theorem main_short_circuits (env : Env) (leads : list Lead) (w : World) :
  newLeads (filterDuplicates env leads w).2 = [] →
  ∃ w',
    main env (Resolved leads) w = Some (w', Returned) ∧
    calls w' = calls w ++ [CallSelect (emails_of leads)] ∧
    last (console w') = Some LogNothingToProcess ∧
    summaries (console w') = summaries (console w).
Proof.
  intros Hnone.
  destruct (main_short_circuit env leads w Hnone) as (w' & Hrun & Hc & Hs & Hl).
  by exists w'.
Qed.

Lemma main_short_circuits_witness :
  newLeads (filterDuplicates env_ana_known [ana; ana_again] start).2 = [] ∧
  ∃ w',
    main env_ana_known (Resolved [ana; ana_again]) start
      = Some (w', Returned) ∧
    calls w' = calls start ++ [CallSelect (emails_of [ana; ana_again])] ∧
    last (console w') = Some LogNothingToProcess ∧
    summaries (console w') = summaries (console start).
Proof.
  split; [reflexivity|].
  apply (main_short_circuits env_ana_known [ana; ana_again] start).
  reflexivity.
Defined.

(** C9, as stated, fails: in a run whose two records are both known to the
    store, the console ends with the notice and shows no summary, so no
    figure for processed, persisted or delivered is reported. *)
Lemma main_short_circuit_prints_no_figures :
  newLeads (filterDuplicates env_ana_known [ana; ana_again] start).2 = [] ∧
  ∃ w',
    main env_ana_known (Resolved [ana; ana_again]) start
      = Some (w', Returned) ∧
    console w'
      = [LogBanner "LEAD CLASSIFICATION AUTOMATION"; LogReadingCsv;
         LogCsvRead 2; LogBanner "PROCESSING LEADS"; LogCheckingDuplicates;
         LogSkipped (VString "Ana") (VString "Ruiz");
         LogSkipped (VString "Ana") (VString "R.");
         LogFound 2 0; LogNothingToProcess] ∧
    ¬ reports_zero w'.
Proof.
  split; [reflexivity|].
  eexists. split; [vm_compute; reflexivity|]. split; [reflexivity|].
  intros (s & Hs & _). simpl in Hs. by apply elem_of_nil in Hs.
Qed.

Lemma filter_fmap_length {X Y} (f : X → Y) (P : Y → Prop) (Q : X → Prop)
    `{∀ y, Decision (P y)} `{∀ x, Decision (Q x)} (l : list X) :
  (∀ x, Q x ↔ P (f x)) →
  length (filter P (f <$> l)) = length (filter Q l).
Proof.
  intros HPQ. induction l as [|x l IH]; [done|]. csimpl. rewrite !filter_cons.
  destruct (decide (P (f x))) as [HP|HP].
  - rewrite decide_True by (by apply HPQ). simpl. by rewrite IH.
  - rewrite decide_False by (by rewrite HPQ). done.
Qed.

(** C10.  The filter compares each record's email with the emails the
    store returned and with nothing else.  So when two or more records of
    a batch share an email that the store did not return, all of them are
    in [newLeads], and the run puts a row for each of them into its one
    bulk insert. *)
Theorem within_batch_duplicates_kept (env : Env) (leads : list Lead)
    (w : World) (data : list value) (e : value) :
  store_select env (calls w) (emails_of leads)
    = Resolved (mkSelectReply (Some data) None) →
  e ∉ data →
  2 ≤ length (filter (λ lead, get lead "Email" = e) leads) →
  filter (λ lead, get lead "Email" = e)
    (newLeads (filterDuplicates env leads w).2)
    = filter (λ lead, get lead "Email" = e) leads ∧
  ∃ w' rows pre post,
    main env (Resolved leads) w = Some (w', Returned) ∧
    calls w' = calls w ++ pre ++ [CallInsert rows] ++ post ∧
    (∀ rows', CallInsert rows' ∉ pre ++ post) ∧
    row_email <$> rows
      = emails_of (newLeads (filterDuplicates env leads w).2) ∧
    length (filter (λ r, row_email r = e) rows)
      = length (filter (λ lead, get lead "Email" = e) leads).
Proof.
  intros Hsel He Htwo.
  pose proof (filterDuplicates_spec env leads w) as (_ & _ & Hr).
  simpl in Hr. rewrite Hsel in Hr. destruct Hr as [Hn _].
  assert (filter (λ lead, get lead "Email" = e)
            (newLeads (filterDuplicates env leads w).2)
          = filter (λ lead, get lead "Email" = e) leads) as Hkeep.
  { rewrite Hn. apply list_filter_filter_l.
    intros lead -> Hin%elem_of_list_to_set. done. }
  split; [done|].
  destruct (main_summary env leads w) as (w' & Hrun & Hc & _).
  { intros Hnil. rewrite Hnil in Hkeep. simpl in Hkeep.
    rewrite <- Hkeep in Htwo. simpl in Htwo. lia. }
  set (d := (filterDuplicates env leads w).2) in *.
  set (cs := classified_by env (newLeads d)
               (calls w ++ [CallSelect (emails_of leads)])) in *.
  assert (row_email <$> (to_row <$> cs) = emails_of (newLeads d)) as Hrows.
  { rewrite <- (classified_by_leads env (newLeads d)
                  (calls w ++ [CallSelect (emails_of leads)])) at 1.
    fold cs. unfold emails_of. by rewrite <- !list_fmap_compose. }
  exists w', (to_row <$> cs),
    ([CallSelect (emails_of leads)]
       ++ (CallClassify ∘ to_prompt <$> newLeads d)),
    (CallPost ∘ to_payload <$> cs).
  split_and!; [done| | |done|].
  - rewrite Hc, <- !(assoc_L (++)). done.
  - intros rows'.
    rewrite !elem_of_app, list_elem_of_singleton, !list_elem_of_fmap.
    intros [[[=]|(? & [=] & _)]|(? & [=] & _)].
  - rewrite <- Hkeep.
    transitivity
      (length (filter (λ v, v = e) (row_email <$> (to_row <$> cs)))).
    { symmetry. by apply filter_fmap_length. }
    rewrite Hrows. by apply filter_fmap_length.
Qed.

Lemma within_batch_duplicates_kept_witness :
  filter (λ lead, get lead "Email" = VString "ana@sol.test")
    (newLeads (filterDuplicates env_ben_undeliverable [ana; ben; ana_again]
                 start).2)
    = [ana; ana_again] ∧
  ∃ w' rows pre post,
    main env_ben_undeliverable (Resolved [ana; ben; ana_again]) start
      = Some (w', Returned) ∧
    calls w' = pre ++ [CallInsert rows] ++ post ∧
    (∀ rows', CallInsert rows' ∉ pre ++ post) ∧
    length (filter (λ r, row_email r = VString "ana@sol.test") rows) = 2.
Proof.
  destruct (within_batch_duplicates_kept env_ben_undeliverable
              [ana; ben; ana_again] start [] (VString "ana@sol.test"))
    as (Hkeep & w' & rows & pre & post & Hrun & Hc & Hone & _ & Hlen).
  - reflexivity.
  - apply not_elem_of_nil.
  - vm_compute. lia.
  - split; [exact Hkeep|]. exists w', rows, pre, post.
    split; [done|]. split; [done|]. split; [done|]. exact Hlen.
Defined.


(** * Further properties *)

Lemma nonempty_by_length {X} (l : list X) : length l ≠ 0 → l ≠ [].
Proof. by destruct l. Qed.

(** ** Strings *)

Lemma append_nil_l (s : string) : EmptyString +:+ s = s.
Proof. reflexivity. Qed.

Lemma append_cons (c : ascii) (s t : string) :
  String c s +:+ t = String c (s +:+ t).
Proof. reflexivity. Qed.

Ltac sapp := rewrite ?append_cons, ?append_nil_l in *.

Lemma append_nil_r (s : string) : s +:+ EmptyString = s.
Proof. induction s as [|c s IH]; sapp; congruence. Qed.

Lemma append_assoc (s1 s2 s3 : string) :
  (s1 +:+ s2) +:+ s3 = s1 +:+ (s2 +:+ s3).
Proof. induction s1 as [|c s1 IH]; sapp; congruence. Qed.

Lemma rev_app_append (s1 s2 : string) :
  String.rev_app s1 s2 = String.rev s1 +:+ s2.
Proof.
  unfold String.rev. revert s2.
  induction s1 as [|c s1 IH]; intros s2; simpl; [done|].
  rewrite (IH (String c s2)), (IH (String c EmptyString)), append_assoc. done.
Qed.

Lemma rev_cons (c : ascii) (s : string) :
  String.rev (String c s) = String.rev s +:+ String c EmptyString.
Proof. unfold String.rev at 1. simpl. apply rev_app_append. Qed.

Lemma rev_append (s1 s2 : string) :
  String.rev (s1 +:+ s2) = String.rev s2 +:+ String.rev s1.
Proof.
  induction s1 as [|c s1 IH]; sapp.
  - by rewrite append_nil_r.
  - by rewrite !rev_cons, IH, append_assoc.
Qed.

Lemma rev_involutive (s : string) : String.rev (String.rev s) = s.
Proof.
  induction s as [|c s IH]; [done|].
  by rewrite rev_cons, rev_append, IH.
Qed.

Lemma all_space_append (s1 s2 : string) :
  all_space (s1 +:+ s2) = all_space s1 && all_space s2.
Proof.
  induction s1 as [|c s1 IH]; sapp; simpl; [done|]. by rewrite IH, andb_assoc.
Qed.

Lemma all_space_rev (s : string) : all_space (String.rev s) = all_space s.
Proof.
  induction s as [|c s IH]; [done|].
  rewrite rev_cons, all_space_append, IH. simpl.
  rewrite andb_true_r. apply andb_comm.
Qed.

Lemma trimStart_spec (s : string) :
  ∃ l, s = l +:+ trimStart s ∧ all_space l = true ∧
       starts_with_space (trimStart s) = false.
Proof.
  induction s as [|c s (l & Hs & Hl & Hst)]; simpl.
  - by exists EmptyString.
  - destruct (is_space c) eqn:Hc.
    + exists (String c l). sapp. simpl. rewrite Hc, Hl.
      split_and!; [|done|done]. by rewrite <- Hs.
    + exists EmptyString. sapp. simpl. by rewrite Hc.
Qed.

Lemma trimStart_id (s : string) :
  starts_with_space s = false → trimStart s = s.
Proof. destruct s as [|c s]; simpl; [done|]. by intros ->. Qed.

Lemma starts_with_space_append (s1 s2 : string) :
  starts_with_space (s1 +:+ s2) = false →
  starts_with_space s1 = false.
Proof. destruct s1; sapp; done. Qed.

(** The trimming of the model, on its own strings. *)
Lemma trim_string_spec (s : string) :
  (∃ l r, s = l +:+ trim s +:+ r ∧ all_space l = true ∧ all_space r = true) ∧
  starts_with_space (trim s) = false ∧
  ends_with_space (trim s) = false ∧
  trim (trim s) = trim s.
Proof.
  unfold trim.
  destruct (trimStart_spec s) as (l & Hs & Hl & Hst).
  destruct (trimStart_spec (String.rev (trimStart s))) as (r & Hr & Hrs & Hend).
  set (t := trimStart s) in *.
  set (u := trimStart (String.rev t)) in *.
  assert (t = String.rev u +:+ String.rev r) as Ht.
  { rewrite <- rev_append, <- Hr. by rewrite rev_involutive. }
  assert (starts_with_space (String.rev u) = false) as Hstu.
  { apply (starts_with_space_append _ (String.rev r)). by rewrite <- Ht. }
  assert (ends_with_space (String.rev u) = false) as Hendu.
  { unfold ends_with_space. by rewrite rev_involutive. }
  split_and!; [|done|done|].
  - exists l, (String.rev r). split_and!; [|done|by rewrite all_space_rev].
    by rewrite Hs, Ht.
  - rewrite (trimStart_id (String.rev u)) by done.
    rewrite rev_involutive. fold u. by rewrite trimStart_id.
Qed.

Lemma is_space_white_space (c : ascii) :
  is_space c = is_white_space (N_of_ascii c).
Proof. by destruct c as [[] [] [] [] [] [] [] []]; vm_compute. Qed.

Lemma code_units_append (s1 s2 : string) :
  code_units (s1 +:+ s2) = code_units s1 ++ code_units s2.
Proof. induction s1 as [|c s1 IH]; sapp; simpl; congruence. Qed.

Lemma code_units_rev (s : string) :
  code_units (String.rev s) = reverse (code_units s).
Proof.
  induction s as [|c s IH]; [done|].
  rewrite rev_cons, code_units_append, IH. cbn [code_units].
  by rewrite reverse_cons.
Qed.

Lemma code_units_trimStart (s : string) :
  code_units (trimStart s) = js_trimStart (code_units s).
Proof.
  induction s as [|c s IH]; simpl; [done|].
  rewrite <- is_space_white_space. by destruct (is_space c).
Qed.

Lemma js_trimStart_spec (u : list N) :
  ∃ l, u = l ++ js_trimStart u ∧
       Forall (λ c, is_white_space c = true) l ∧
       ∀ c, head (js_trimStart u) = Some c → is_white_space c = false.
Proof.
  induction u as [|c u (l & Hu & Hl & Hh)]; simpl.
  - by exists [].
  - destruct (is_white_space c) eqn:Hc.
    + exists (c :: l). simpl. rewrite <- Hu. split_and!; [done| |done].
      by constructor.
    + exists []. split_and!; [done|done|]. by intros ? [= <-].
Qed.

Lemma js_trimStart_id (u : list N) :
  (∀ c, head u = Some c → is_white_space c = false) → js_trimStart u = u.
Proof.
  destruct u as [|c u]; simpl; [done|]. intros H. by rewrite (H c).
Qed.

(** X1.  [String.prototype.trim], taken on sequences of 16-bit code units
    with the full white space of ECMAScript, removes white space at both
    ends and nothing else: the text is the trimmed text between two runs of
    white space, the trimmed text neither starts nor ends with white space,
    and trimming twice changes nothing more.  On the texts the model can
    hold (code units below 256) the [trim] used by [classifyLead] is this
    function. *)
Theorem trim_spec :
  (∀ u : list N,
     (∃ l r, u = l ++ js_trim u ++ r ∧
             Forall (λ c, is_white_space c = true) l ∧
             Forall (λ c, is_white_space c = true) r) ∧
     (∀ c, head (js_trim u) = Some c → is_white_space c = false) ∧
     (∀ c, last (js_trim u) = Some c → is_white_space c = false) ∧
     js_trim (js_trim u) = js_trim u) ∧
  (∀ s : string, code_units (trim s) = js_trim (code_units s)).
Proof.
  split.
  - intros u. unfold js_trim.
    destruct (js_trimStart_spec u) as (l & Hu & Hl & Hh).
    destruct (js_trimStart_spec (reverse (js_trimStart u)))
      as (r & Hr & Hrs & Hend).
    set (a := js_trimStart u) in *.
    set (b := js_trimStart (reverse a)) in *.
    assert (a = reverse b ++ reverse r) as Ha.
    { rewrite <- reverse_app, <- Hr. by rewrite reverse_involutive. }
    assert (∀ c, head (reverse b) = Some c → is_white_space c = false)
      as Hstart.
    { intros c Hc. apply Hh. rewrite Ha.
      destruct (reverse b); [done|]. done. }
    split_and!.
    + exists l, (reverse r). rewrite <- Ha.
      split_and!; [done|done|by apply Forall_reverse].
    + done.
    + intros c. rewrite last_reverse. apply Hend.
    + rewrite (js_trimStart_id (reverse b)) by done.
      rewrite reverse_involutive. fold b.
      by rewrite (js_trimStart_id b).
  - intros s. unfold trim, js_trim.
    by rewrite code_units_rev, code_units_trimStart, code_units_rev,
      code_units_trimStart.
Qed.


Lemma strip_prefix_spec (p s r : string) :
  strip_prefix p s = Some r ↔ s = p +:+ r.
Proof.
  revert s. induction p as [|a p IH]; intros s; simpl.
  - sapp. split; [by intros [= ->]|by intros ->].
  - destruct s as [|b s]; [sapp; split; [done|by intros [=]]|].
    case_decide as Hab.
    + subst b. rewrite IH. sapp. split; [by intros ->|by intros [= ->]].
    + sapp. split; [done|]. by intros [= -> _].
Qed.

Lemma persona_here_spec (s : string) :
  persona_here s = true ↔
  ∃ d post, s = "Persona " +:+ String d post ∧ is_digit_1_4 d = true.
Proof.
  unfold persona_here.
  destruct (strip_prefix "Persona " s) as [r|] eqn:Hstrip.
  - apply strip_prefix_spec in Hstrip. destruct r as [|d post].
    + split; [done|]. intros (d & post & Hs & _). rewrite Hs in Hstrip.
      sapp. congruence.
    + split.
      * intros Hd. by exists d, post.
      * intros (d' & post' & Hs & Hd). rewrite Hs in Hstrip.
        sapp. congruence.
  - split; [done|]. intros (d & post & Hs & _).
    apply (strip_prefix_spec "Persona " s (String d post)) in Hs. congruence.
Qed.

(** X2.  The validation pattern of [classifyLead] has no anchors: a text
    passes exactly when it contains, at any position, [Persona ] followed
    by one of the digits 1 to 4. *)
Theorem matches_persona_spec (s : string) :
  matches_persona s = true ↔
  ∃ pre d post,
    s = pre +:+ "Persona " +:+ String d post ∧ is_digit_1_4 d = true.
Proof.
  induction s as [|c s IH].
  - simpl. split; [done|]. intros (pre & d & post & Hs & _).
    destruct pre; sapp; discriminate.
  - change (matches_persona (String c s))
      with (persona_here (String c s) || matches_persona s).
    rewrite orb_true_iff, persona_here_spec, IH. split.
    + intros [(d & post & Hs & Hd)|(pre & d & post & Hs & Hd)].
      * by exists EmptyString, d, post.
      * exists (String c pre), d, post. split; [|done]. sapp. by rewrite <- Hs.
    + intros (pre & d & post & Hs & Hd). destruct pre as [|c' pre].
      * left. by exists d, post.
      * right. sapp. injection Hs as -> ->. by exists pre, d, post.
Qed.

(** ** The helper, further *)

Lemma loop_concurrency_zero {W A B} (fn : AsyncFn W A B) (items : list A)
    (fuel i : nat) (results : list B) (w : W) :
  i < length items →
  runWithConcurrency_loop fuel items 0 fn i results w = None.
Proof.
  revert i results w. induction fuel as [|fuel IH]; intros i results w Hi;
    [done|].
  simpl. rewrite decide_True by done.
  unfold slice. replace (i + 0 - i) with 0 by lia. rewrite take_0. simpl.
  rewrite (IH (i + 0) (results ++ []) w) by lia. done.
Qed.

(** X3.  With a concurrency bound of 0 the loop of [runWithConcurrency]
    makes no progress: on a non-empty list it takes an empty slice, awaits
    nothing and comes back to the same index, so it never returns, however
    long it runs. *)
Theorem runWithConcurrency_zero_never_returns {W A B} (fn : AsyncFn W A B)
    (items : list A) (w : W) :
  items ≠ [] →
  ∀ fuel, runWithConcurrency_loop fuel items 0 fn 0 [] w = None.
Proof.
  intros Hne fuel. apply loop_concurrency_zero.
  destruct items; [done|simpl; lia].
Qed.

Lemma runWithConcurrency_zero_never_returns_witness :
  runWithConcurrency_loop 1000 [1; 2; 3] 0 (per_item delay_op) 0 [] () = None.
Proof.
  apply (runWithConcurrency_zero_never_returns (per_item delay_op) [1; 2; 3] ()).
  discriminate.
Defined.

(** X4.  For callbacks of the request/reply kind the concurrency bound
    only changes the scheduling: with any two bounds K1, K2 >= 1 the helper
    returns the same results and leaves the same request history, namely
    those of running the callbacks one after the other. *)
Theorem runWithConcurrency_bound_is_unobservable {W A B H}
    (hist : W → H) (req : A → H → H) (out : A → H → B)
    (fn : AsyncFn W A B) (items : list A) (K1 K2 : nat) (w : W) :
  request_reply hist req out (λ _ _, True) fn →
  1 ≤ K1 → 1 ≤ K2 →
  ∃ r1 r2,
    runWithConcurrency items K1 fn w = Some r1 ∧
    runWithConcurrency items K2 fn w = Some r2 ∧
    run_outcome r1 = Resolved (outputs req out items (hist w)) ∧
    run_outcome r2 = run_outcome r1 ∧
    hist (run_world r2) = hist (run_world r1) ∧
    hist (run_world r1) = history_after req items (hist w).
Proof.
  intros Hfn HK1 HK2.
  destruct (runWithConcurrency_sequential hist req out _ fn Hfn items K1 w HK1 I)
    as (r1 & _ & Hrun1 & Hout1 & Hh1 & _).
  destruct (runWithConcurrency_sequential hist req out _ fn Hfn items K2 w HK2 I)
    as (r2 & _ & Hrun2 & Hout2 & Hh2 & _).
  exists r1, r2. split_and!; [done|done|done|congruence|congruence|done].
Qed.

Lemma runWithConcurrency_bound_is_unobservable_witness :
  ∃ r1 r2,
    runWithConcurrency [3; 1; 2] 1 (per_item echo_op) [] = Some r1 ∧
    runWithConcurrency [3; 1; 2] 2 (per_item echo_op) [] = Some r2 ∧
    run_outcome r1 = Resolved [3; 2; 4] ∧
    run_outcome r2 = run_outcome r1 ∧
    run_world r2 = run_world r1.
Proof.
  destruct (runWithConcurrency_bound_is_unobservable
              (λ w : list nat, w) (λ x h, h ++ [x]) (λ x h, x + length h)
              (per_item echo_op) [3; 1; 2] 1 2 [])
    as (r1 & r2 & H1 & H2 & Ho1 & Ho2 & Hh & _).
  - intros x k arr w. simpl. split_and!; [done|done|].
    intros w'. simpl. done.
  - lia.
  - lia.
  - exists r1, r2. split_and!; [done|done|exact Ho1|done|exact Hh].
Defined.

(** ** Classification, further *)

Lemma persona_of_reply_matches (reply : Settled Message) :
  matches_persona (persona_of_reply reply) = true.
Proof.
  destruct (persona_of_reply_cases reply) as [->|(m & t & _ & _ & Hm & ->)];
    [reflexivity|done].
Qed.


(** X6.  [classifyLeads] never fails, whatever the classification service
    does: it makes exactly one request per lead, in input order, and returns
    one classified record per lead, in input order, each pairing the lead
    itself with a persona that passes the validation pattern. *)
Theorem classifyLeads_total (env : Env) (leads : list Lead) (w : World) :
  ∃ w' cs,
    classifyLeads env leads w = Some (w', Resolved cs) ∧
    c_lead <$> cs = leads ∧
    Forall (λ c, matches_persona (c_persona c) = true) cs ∧
    calls w' = calls w ++ (CallClassify ∘ to_prompt <$> leads).
Proof.
  destruct (classifyLeads_spec env leads w) as (w' & out & Hrun & Hc & _).
  exists w', (classified_by env leads (calls w)).
  split_and!; [done|apply classified_by_leads| |done].
  unfold classified_by, outputs. apply Forall_fmap, Forall_forall.
  intros p _. apply persona_of_reply_matches.
Qed.

(** ** Deduplication, further *)

Lemma filter_ext_in {X} (P Q : X → Prop) `{∀ x, Decision (P x)}
    `{∀ x, Decision (Q x)} (l : list X) :
  (∀ x, x ∈ l → P x ↔ Q x) → filter P l = filter Q l.
Proof.
  induction l as [|x l IH]; intros Hl; [done|].
  rewrite !filter_cons.
  assert (P x ↔ Q x) as Hx by (apply Hl; by left).
  rewrite IH by (intros y Hy; apply Hl; by right).
  destruct (decide (P x)), (decide (Q x)); tauto || done.
Qed.

(** X7.  Filtering is idempotent against a store that does not change:
    when the store answers each existence query with the rows it holds
    among the emails asked for, the first pass keeps exactly the leads
    whose email the store does not hold, and filtering these again keeps
    all of them and counts no duplicate. *)
Theorem filterDuplicates_idempotent (env : Env) (known : list value)
    (leads : list Lead) (w w' : World) :
  store_holds env known →
  newLeads (filterDuplicates env leads w).2
    = filter (λ lead, get lead "Email" ∉ known) leads ∧
  (filterDuplicates env (newLeads (filterDuplicates env leads w).2) w').2
    = mkDedup (newLeads (filterDuplicates env leads w).2) 0.
Proof.
  intros Hstore.
  assert (∀ ls v,
            (filterDuplicates env ls v).2
            = mkDedup (filter (λ lead, get lead "Email" ∉ known) ls)
                (length (filter (λ lead, get lead "Email" ∈ known) ls)))
    as Hpass.
  { intros ls v.
    pose proof (filterDuplicates_spec env ls v) as (_ & _ & Hr).
    cbv zeta in Hr. rewrite Hstore in Hr. unfold rows_for in Hr.
    destruct Hr as [Hn Hd].
    assert (∀ lead, lead ∈ ls →
              get lead "Email"
                ∈ (list_to_set (filter (λ e, e ∈ emails_of ls) known)
                   : gset value)
              ↔ get lead "Email" ∈ known) as Hiff.
    { intros lead Hin. rewrite elem_of_list_to_set, list_elem_of_filter.
      split; [by intros [_ ?]|]. intros Hk. split; [|done].
      unfold emails_of. apply list_elem_of_fmap. by exists lead. }
    destruct (filterDuplicates env ls v).2 as [nl dc]. simpl in *.
    f_equal.
    - rewrite Hn. apply filter_ext_in. intros lead Hin.
      by rewrite (Hiff lead Hin).
    - rewrite Hd. f_equal. by apply filter_ext_in. }
  rewrite !Hpass. simpl. split; [done|]. f_equal.
  - apply list_filter_filter_l. tauto.
  - rewrite list_filter_filter.
    rewrite (list_filter_iff _ (λ _, False)) by tauto.
    clear. induction leads as [|lead leads IH]; [done|].
    by rewrite filter_cons, decide_False by tauto.
Qed.

Lemma filterDuplicates_idempotent_witness :
  newLeads
    (filterDuplicates (env_store [VString "ana@sol.test"; VString "zoe@sol.test"])
       [ana; ben; ana_again] start).2
    = filter (λ lead, get lead "Email"
                        ∉ [VString "ana@sol.test"; VString "zoe@sol.test"])
        [ana; ben; ana_again] ∧
  (filterDuplicates (env_store [VString "ana@sol.test"; VString "zoe@sol.test"])
     (newLeads
        (filterDuplicates
           (env_store [VString "ana@sol.test"; VString "zoe@sol.test"])
           [ana; ben; ana_again] start).2)
     start).2
    = mkDedup
        (newLeads
           (filterDuplicates
              (env_store [VString "ana@sol.test"; VString "zoe@sol.test"])
              [ana; ben; ana_again] start).2) 0.
Proof.
  apply (filterDuplicates_idempotent
           (env_store [VString "ana@sol.test"; VString "zoe@sol.test"])
           [VString "ana@sol.test"; VString "zoe@sol.test"]
           [ana; ben; ana_again] start start).
  intros h emails. reflexivity.
Defined.

(** X8.  An empty input file is not an error: whatever the store answers,
    the run still sends the existence query (for no email at all), finds
    nothing to process, prints the notice for an all-duplicates batch and
    returns normally without any classification, insert or delivery. *)
Theorem main_empty_batch (env : Env) (w : World) :
  ∃ w',
    main env (Resolved []) w = Some (w', Returned) ∧
    calls w' = calls w ++ [CallSelect []] ∧
    last (console w') = Some LogNothingToProcess ∧
    summaries (console w') = summaries (console w).
Proof.
  assert (newLeads (filterDuplicates env [] w).2 = []) as Hnone.
  { pose proof (filterDuplicates_spec env [] w) as (_ & _ & Hr).
    cbv zeta in Hr.
    destruct (store_select env (calls w) (emails_of []))
      as [[[data|] [e|]]|e]; try (by rewrite Hr).
    by destruct Hr as [-> _]. }
  destruct (main_short_circuit env [] w Hnone) as (w' & Hrun & Hc & Hs & Hl).
  by exists w'.
Qed.

(** ** The orchestrator, further *)

Lemma newLeads_counts (env : Env) (leads : list Lead) (w : World) :
  duplicateCount (filterDuplicates env leads w).2
    + length (newLeads (filterDuplicates env leads w).2)
  = length leads.
Proof.
  pose proof (filterDuplicates_spec env leads w) as (_ & _ & Hr). simpl in Hr.
  destruct (store_select env (calls w) (emails_of leads))
    as [[[data|] [e|]]|e]; try (by rewrite Hr).
  destruct Hr as [-> ->]. apply filter_complement_length.
Qed.

(** X9.  A record the store reported as known is never processed: when the
    existence query delivers its rows, the classification requests of the
    run are exactly those of the records whose email is not among the
    returned emails, one each and in order, and the bulk insert and the
    webhook requests carry one row and one payload for each of these
    records and for no other; no row and no payload has a returned
    email. *)
Theorem known_emails_never_processed (env : Env) (leads : list Lead)
    (w : World) (data : list value) :
  store_select env (calls w) (emails_of leads)
    = Resolved (mkSelectReply (Some data) None) →
  newLeads (filterDuplicates env leads w).2 ≠ [] →
  ∃ w' cs,
    main env (Resolved leads) w = Some (w', Returned) ∧
    c_lead <$> cs = filter (λ lead, get lead "Email" ∉ data) leads ∧
    calls w'
      = calls w ++ [CallSelect (emails_of leads)]
          ++ (CallClassify ∘ to_prompt
                <$> filter (λ lead, get lead "Email" ∉ data) leads)
          ++ [CallInsert (to_row <$> cs)]
          ++ (CallPost ∘ to_payload <$> cs) ∧
    Forall (λ r, row_email r ∉ data) (to_row <$> cs) ∧
    Forall (λ p, pl_email p ∉ data) (to_payload <$> cs).
Proof.
  intros Hsel Hsome.
  destruct (main_summary env leads w Hsome) as (w' & Hrun & Hc & _).
  pose proof (filterDuplicates_spec env leads w) as (_ & _ & Hr).
  simpl in Hr. rewrite Hsel in Hr. destruct Hr as [Hn _].
  set (d := (filterDuplicates env leads w).2) in *.
  set (cs := classified_by env (newLeads d)
               (calls w ++ [CallSelect (emails_of leads)])) in *.
  assert (newLeads d = filter (λ lead, get lead "Email" ∉ data) leads)
    as Hfresh.
  { rewrite Hn. apply list_filter_iff. intros lead.
    by rewrite elem_of_list_to_set. }
  assert (c_lead <$> cs = newLeads d) as Hleads
    by apply classified_by_leads.
  assert (Forall (λ c, get (c_lead c) "Email" ∉ data) cs) as Hcs.
  { apply Forall_forall. intros c Hin.
    assert (c_lead c ∈ newLeads d) as Hl.
    { rewrite <- Hleads. apply list_elem_of_fmap. by exists c. }
    rewrite Hfresh in Hl. by apply list_elem_of_filter in Hl as [? _]. }
  exists w', cs. rewrite <- Hfresh.
  split_and!; [done|done| | |].
  - rewrite Hc, <- !(assoc_L (++)). done.
  - apply Forall_fmap. exact Hcs.
  - apply Forall_fmap. exact Hcs.
Qed.

Lemma known_emails_never_processed_witness :
  ∃ w' cs,
    main env_ana_known (Resolved [ana; ben; ana_again]) start
      = Some (w', Returned) ∧
    c_lead <$> cs
      = filter (λ lead, get lead "Email" ∉ [VString "ana@sol.test"])
          [ana; ben; ana_again] ∧
    calls w'
      = calls start ++ [CallSelect (emails_of [ana; ben; ana_again])]
          ++ (CallClassify ∘ to_prompt
                <$> filter (λ lead, get lead "Email" ∉ [VString "ana@sol.test"])
                      [ana; ben; ana_again])
          ++ [CallInsert (to_row <$> cs)]
          ++ (CallPost ∘ to_payload <$> cs) ∧
    Forall (λ r, row_email r ∉ [VString "ana@sol.test"]) (to_row <$> cs) ∧
    Forall (λ p, pl_email p ∉ [VString "ana@sol.test"]) (to_payload <$> cs).
Proof.
  apply (known_emails_never_processed env_ana_known [ana; ben; ana_again]
           start [VString "ana@sol.test"]).
  - reflexivity.
  - apply nonempty_by_length. vm_compute. discriminate.
Defined.

(** X10.  Failing open has this consequence for the run: when the
    existence query fails on a non-empty batch, every record of the batch,
    known to the store or not, is classified, put into the bulk insert and
    delivered, and the summary shows no record skipped. *)
Theorem failed_query_processes_whole_batch (env : Env) (leads : list Lead)
    (w : World) :
  query_failed (store_select env (calls w) (emails_of leads)) →
  leads ≠ [] →
  ∃ w' rows payloads s,
    main env (Resolved leads) w = Some (w', Returned) ∧
    calls w'
      = calls w ++ [CallSelect (emails_of leads)]
          ++ (CallClassify ∘ to_prompt <$> leads)
          ++ [CallInsert rows] ++ (CallPost <$> payloads) ∧
    row_email <$> rows = emails_of leads ∧
    pl_email <$> payloads = emails_of leads ∧
    summaries (console w') = summaries (console w) ++ [s] ∧
    sum_skipped s = 0 ∧ sum_total s = length leads.
Proof.
  intros Hfail Hne.
  assert ((filterDuplicates env leads w).2 = mkDedup leads 0) as Hd.
  { pose proof (filterDuplicates_spec env leads w) as (_ & _ & Hr).
    simpl in Hr.
    destruct (store_select env (calls w) (emails_of leads))
      as [[[data|] [e|]]|e]; try done.
    destruct Hfail as [[? [=]]|[=]]. }
  destruct (main_summary env leads w) as (w' & Hrun & Hc & Hs & _).
  { by rewrite Hd. }
  rewrite Hd in Hc, Hs. simpl in Hc, Hs.
  set (cs := classified_by env leads
               (calls w ++ [CallSelect (emails_of leads)])) in *.
  assert (c_lead <$> cs = leads) as Hcs by apply classified_by_leads.
  exists w', (to_row <$> cs), (to_payload <$> cs). eexists.
  split_and!; [done| | | |exact Hs|done|done].
  - rewrite Hc, <- !(assoc_L (++)), <- list_fmap_compose. done.
  - transitivity (emails_of (c_lead <$> cs)); [|by rewrite Hcs].
    unfold emails_of. by rewrite <- !list_fmap_compose.
  - transitivity (emails_of (c_lead <$> cs)); [|by rewrite Hcs].
    unfold emails_of. by rewrite <- !list_fmap_compose.
Qed.

Lemma failed_query_processes_whole_batch_witness :
  ∃ w' rows payloads s,
    main (const_env (Rejected "fetch failed") (Resolved [Some "Persona 3"])
            (Resolved (mkInsertReply None)) (λ _, Resolved 200))
      (Resolved [ana; ana_again]) start = Some (w', Returned) ∧
    calls w'
      = calls start ++ [CallSelect (emails_of [ana; ana_again])]
          ++ (CallClassify ∘ to_prompt <$> [ana; ana_again])
          ++ [CallInsert rows] ++ (CallPost <$> payloads) ∧
    row_email <$> rows = emails_of [ana; ana_again] ∧
    pl_email <$> payloads = emails_of [ana; ana_again] ∧
    summaries (console w') = summaries (console start) ++ [s] ∧
    sum_skipped s = 0 ∧ sum_total s = length [ana; ana_again].
Proof.
  apply (failed_query_processes_whole_batch
           (const_env (Rejected "fetch failed") (Resolved [Some "Persona 3"])
              (Resolved (mkInsertReply None)) (λ _, Resolved 200))
           [ana; ana_again] start).
  - exact I.
  - discriminate.
Defined.

(** X11.  In a run in which every request is answered (the environment of
    the model replies to each request; a request that never settles is
    outside it), [main] ends, and no failure of the store, the
    classification service or the webhook makes it exit with an error: it
    ends through [process.exit(1)] exactly when the input file cannot be
    read or parsed, and in that case it has made no request at all and
    printed the read error followed by the fatal error. *)
Theorem main_exit_status (env : Env) (csv : Settled (list Lead)) (w : World) :
  ∃ w' ex,
    main env csv w = Some (w', ex) ∧
    (ex = Exit1 ↔ ∃ e, csv = Rejected e) ∧
    ∀ e, csv = Rejected e →
      calls w' = calls w ∧
      console w'
        = console w ++ [LogBanner "LEAD CLASSIFICATION AUTOMATION";
                        LogReadingCsv; LogCsvError e; LogFatal e].
Proof.
  destruct csv as [leads|e].
  - assert (∃ w', main env (Resolved leads) w = Some (w', Returned))
      as [w' Hrun].
    { destruct (decide (newLeads (filterDuplicates env leads w).2 = []))
        as [Hnone|Hsome].
      - destruct (main_short_circuit env leads w Hnone) as (w' & Hrun & _).
        by exists w'.
      - destruct (main_summary env leads w Hsome) as (w' & Hrun & _).
        by exists w'. }
    exists w', Returned. split_and!; [done| |done].
    split; [done|]. by intros [e [=]].
  - eexists _, Exit1. split_and!; [reflexivity| |].
    + split; [by exists e|done].
    + intros e' [= <-]. simpl. rewrite <- !(assoc_L (++)). done.
Qed.

Lemma filter_fmap_all {X} (P : Call → bool) (g : X → Call) (l : list X) :
  (∀ x, P (g x) = true) → length (filter P (g <$> l)) = length l.
Proof.
  intros HP. induction l as [|x l IH]; [done|]. csimpl.
  rewrite filter_cons, decide_True by (by rewrite HP). simpl. congruence.
Qed.

Lemma filter_fmap_none {X} (P : Call → bool) (g : X → Call) (l : list X) :
  (∀ x, P (g x) = false) → filter P (g <$> l) = [].
Proof.
  intros HP. induction l as [|x l IH]; [done|]. csimpl.
  rewrite filter_cons, decide_False by (rewrite HP; intros []). done.
Qed.

(** X12.  The request budget of a run over a readable file: exactly one
    existence query, however many records; one classification request and one
    webhook request per new record; and one bulk insert, holding one row per
    new record, unless there is no new record, in which case there is no
    insert at all (the store is never sent an empty insert). *)
Theorem main_request_budget (env : Env) (leads : list Lead) (w : World) :
  ∃ w' new,
    main env (Resolved leads) w = Some (w', Returned) ∧
    calls w' = calls w ++ new ∧
    length (filter is_select new) = 1 ∧
    length (filter is_classify new)
      = length (newLeads (filterDuplicates env leads w).2) ∧
    length (filter is_post new)
      = length (newLeads (filterDuplicates env leads w).2) ∧
    length (filter is_insert new)
      = (if decide (newLeads (filterDuplicates env leads w).2 = []) then 0
         else 1) ∧
    ∀ rows, CallInsert rows ∈ new →
      length rows = length (newLeads (filterDuplicates env leads w).2) ∧
      rows ≠ [].
Proof.
  case_decide as Hnone.
  - destruct (main_short_circuit env leads w Hnone) as (w' & Hrun & Hc & _).
    exists w', [CallSelect (emails_of leads)]. rewrite Hnone.
    split_and!; [done|done|done|done|done|done|].
    intros rows [=]%list_elem_of_singleton.
  - destruct (main_summary env leads w Hnone) as (w' & Hrun & Hc & _).
    set (d := (filterDuplicates env leads w).2) in *.
    set (cs := classified_by env (newLeads d)
                 (calls w ++ [CallSelect (emails_of leads)])) in *.
    assert (length cs = length (newLeads d)) as Hlen
      by apply classified_by_length.
    exists w', ([CallSelect (emails_of leads)]
                  ++ (CallClassify ∘ to_prompt <$> newLeads d)
                  ++ [CallInsert (to_row <$> cs)]
                  ++ (CallPost ∘ to_payload <$> cs)).
    split_and!; [done|by rewrite Hc, <- !(assoc_L (++))| | | | |].
    + rewrite !filter_app, !length_app.
      rewrite !filter_fmap_none by done. done.
    + rewrite !filter_app, !length_app.
      rewrite (filter_fmap_all is_classify (CallClassify ∘ to_prompt)),
        (filter_fmap_none is_classify (CallPost ∘ to_payload)) by done.
      simpl. lia.
    + rewrite !filter_app, !length_app.
      rewrite (filter_fmap_all is_post (CallPost ∘ to_payload)),
        (filter_fmap_none is_post (CallClassify ∘ to_prompt)) by done.
      simpl. lia.
    + rewrite !filter_app, !length_app.
      rewrite !filter_fmap_none by done. done.
    + intros rows.
      rewrite !elem_of_app, !list_elem_of_singleton, !list_elem_of_fmap.
      intros [[=]|[(? & [=] & _)|[[= ->]|(? & [=] & _)]]].
      rewrite length_fmap, Hlen. split; [done|].
      intros Hnil%(f_equal length). rewrite length_fmap, Hlen in Hnil.
      by destruct (newLeads d).
Qed.

(** ** The summary *)

Lemma foldl_count_persona (l : list string) (m : gmap string nat)
    (p : string) :
  foldl count_persona m l !! p
    = (λ n, n + length (filter (λ q, q = p) l)) <$> m !! p.
Proof.
  revert m. induction l as [|q l IH]; intros m; simpl.
  - destruct (m !! p); simpl; [f_equal; lia|done].
  - rewrite IH, filter_cons. unfold count_persona.
    destruct (decide (q = p)) as [->|Hne].
    + destruct (m !! p) as [n|] eqn:Hp; simpl.
      * rewrite lookup_insert_eq. simpl. f_equal. lia.
      * by rewrite Hp.
    + destruct (m !! q) as [k|]; [by rewrite lookup_insert_ne|done].
Qed.

Lemma persona_count_known (cs : list Classified) (p : string) :
  p ∈ personas →
  persona_count cs p = length (filter (λ c, c_persona c = p) cs).
Proof.
  unfold persona_count, tally. rewrite foldl_count_persona.
  assert (length (filter (λ q, q = p) (c_persona <$> cs))
          = length (filter (λ c, c_persona c = p) cs)) as ->
    by (by apply filter_fmap_length).
  unfold personas. rewrite !elem_of_cons, elem_of_nil.
  intros [->|[->|[->|[->|[]]]]]; reflexivity.
Qed.

(** X13.  The figure the summary prints for each of the four personas is
    the number of classified records with exactly that persona; a record
    whose persona is any other text is counted under no persona. *)
Theorem persona_count_exact (cs : list Classified) (p : string) :
  (p ∈ personas →
   persona_count cs p = length (filter (λ c, c_persona c = p) cs)) ∧
  (p ∉ personas → persona_count cs p = 0).
Proof.
  unfold persona_count, tally. rewrite foldl_count_persona.
  assert (length (filter (λ q, q = p) (c_persona <$> cs))
          = length (filter (λ c, c_persona c = p) cs)) as ->
    by (by apply filter_fmap_length).
  split.
  - unfold personas. rewrite !elem_of_cons, elem_of_nil.
    intros [->|[->|[->|[->|[]]]]]; reflexivity.
  - unfold personas. rewrite !not_elem_of_cons. intros (H1 & H2 & H3 & H4 & _).
    unfold byPersona_init. rewrite !lookup_insert_ne by done.
    by rewrite lookup_empty.
Qed.

Lemma persona_count_exact_witness :
  persona_count
    [mkClassified ana "Persona 1"; mkClassified ben "Persona 1 (Owner)";
     mkClassified ana_again "Persona 1"] "Persona 1"
  = 2.
Proof.
  destruct (persona_count_exact
              [mkClassified ana "Persona 1"; mkClassified ben "Persona 1 (Owner)";
               mkClassified ana_again "Persona 1"] "Persona 1") as [Hin _].
  rewrite Hin.
  - reflexivity.
  - unfold personas. apply elem_of_cons. by left.
Defined.

Lemma personas_elem (p : string) :
  bool_decide (p ∈ personas) = true → p ∈ personas.
Proof. apply bool_decide_eq_true_1. Qed.

Lemma persona_counts_sum (cs : list Classified) :
  persona_count cs "Persona 1" + persona_count cs "Persona 2"
    + persona_count cs "Persona 3" + persona_count cs "Persona 4"
  = length (filter (λ c, c_persona c ∈ personas) cs).
Proof.
  rewrite (persona_count_known cs "Persona 1")
    by (by apply personas_elem).
  rewrite (persona_count_known cs "Persona 2")
    by (by apply personas_elem).
  rewrite (persona_count_known cs "Persona 3")
    by (by apply personas_elem).
  rewrite (persona_count_known cs "Persona 4")
    by (by apply personas_elem).
  induction cs as [|c cs IH]; [done|]. rewrite !filter_cons.
  destruct (decide (c_persona c ∈ personas)) as [Hin|Hnin].
  - unfold personas in Hin. rewrite !elem_of_cons, elem_of_nil in Hin.
    destruct Hin as [->|[->|[->|[->|[]]]]];
      repeat case_decide; try done; simpl; lia.
  - repeat case_decide;
      try (exfalso;
           match goal with
           | H : c_persona c = _ |- _ =>
               rewrite H in Hnin; apply Hnin; by apply personas_elem
           end);
      lia.
Qed.

(** X14.  The figures of the summary reconcile with each other and with
    the requests of the run.  The total is the size of the batch and splits
    into skipped, processed and failed inserts, of which the last two are
    never both non-zero; sent plus failed deliveries is the number of
    records not skipped.  Each of the four persona figures is the number of
    rows of the bulk insert with exactly that persona, so that they add up
    to the number of inserted rows with one of the four personas, at most
    the number of records not skipped. *)
Theorem main_summary_reconciles (env : Env) (leads : list Lead) (w : World) :
  newLeads (filterDuplicates env leads w).2 ≠ [] →
  ∃ w' s cs,
    main env (Resolved leads) w = Some (w', Returned) ∧
    summaries (console w') = summaries (console w) ++ [s] ∧
    c_lead <$> cs = newLeads (filterDuplicates env leads w).2 ∧
    calls w'
      = calls w ++ [CallSelect (emails_of leads)]
          ++ (CallClassify ∘ to_prompt <$> (c_lead <$> cs))
          ++ [CallInsert (to_row <$> cs)]
          ++ (CallPost ∘ to_payload <$> cs) ∧
    sum_total s = length leads ∧
    sum_total s = sum_skipped s + sum_processed s + sum_failed_inserts s ∧
    (sum_processed s = 0 ∨ sum_failed_inserts s = 0) ∧
    sum_webhook_sent s + sum_webhook_failed s = sum_total s - sum_skipped s ∧
    sum_persona1 s = length (filter (λ c, c_persona c = "Persona 1") cs) ∧
    sum_persona2 s = length (filter (λ c, c_persona c = "Persona 2") cs) ∧
    sum_persona3 s = length (filter (λ c, c_persona c = "Persona 3") cs) ∧
    sum_persona4 s = length (filter (λ c, c_persona c = "Persona 4") cs) ∧
    sum_persona1 s + sum_persona2 s + sum_persona3 s + sum_persona4 s
      = length (filter (λ c, c_persona c ∈ personas) cs) ∧
    sum_persona1 s + sum_persona2 s + sum_persona3 s + sum_persona4 s
      ≤ sum_total s - sum_skipped s.
Proof.
  intros Hsome.
  destruct (main_summary env leads w Hsome) as (w' & Hrun & Hc & Hs & _).
  pose proof (newLeads_counts env leads w) as Hcount.
  set (d := (filterDuplicates env leads w).2) in *.
  set (cs := classified_by env (newLeads d)
               (calls w ++ [CallSelect (emails_of leads)])) in *.
  assert (length cs = length (newLeads d)) as Hlen
    by apply classified_by_length.
  assert (c_lead <$> cs = newLeads d) as Hleads by apply classified_by_leads.
  pose proof (persona_counts_sum cs) as Hsum.
  pose proof (length_filter (λ c, c_persona c ∈ personas) cs) as Hle.
  eexists w', _, cs.
  split_and!; [done|exact Hs|done| |done| | | | | | | |exact Hsum|]; simpl.
  - rewrite Hc, Hleads, <- !(assoc_L (++)). done.
  - destruct (insert_ok _); lia.
  - destruct (insert_ok _); auto.
  - rewrite filter_complement_length. unfold deliveries.
    rewrite paired_length. lia.
  - apply persona_count_known. by apply personas_elem.
  - apply persona_count_known. by apply personas_elem.
  - apply persona_count_known. by apply personas_elem.
  - apply persona_count_known. by apply personas_elem.
  - lia.
Qed.

Lemma main_summary_reconciles_witness :
  ∃ w' s cs,
    main env_decorated_answer (Resolved [ana; ben]) start
      = Some (w', Returned) ∧
    summaries (console w') = summaries (console start) ++ [s] ∧
    c_lead <$> cs
      = newLeads (filterDuplicates env_decorated_answer [ana; ben] start).2 ∧
    calls w'
      = calls start ++ [CallSelect (emails_of [ana; ben])]
          ++ (CallClassify ∘ to_prompt <$> (c_lead <$> cs))
          ++ [CallInsert (to_row <$> cs)]
          ++ (CallPost ∘ to_payload <$> cs) ∧
    sum_total s = length [ana; ben] ∧
    sum_total s = sum_skipped s + sum_processed s + sum_failed_inserts s ∧
    (sum_processed s = 0 ∨ sum_failed_inserts s = 0) ∧
    sum_webhook_sent s + sum_webhook_failed s = sum_total s - sum_skipped s ∧
    sum_persona1 s = length (filter (λ c, c_persona c = "Persona 1") cs) ∧
    sum_persona2 s = length (filter (λ c, c_persona c = "Persona 2") cs) ∧
    sum_persona3 s = length (filter (λ c, c_persona c = "Persona 3") cs) ∧
    sum_persona4 s = length (filter (λ c, c_persona c = "Persona 4") cs) ∧
    sum_persona1 s + sum_persona2 s + sum_persona3 s + sum_persona4 s
      = length (filter (λ c, c_persona c ∈ personas) cs) ∧
    sum_persona1 s + sum_persona2 s + sum_persona3 s + sum_persona4 s
      ≤ sum_total s - sum_skipped s.
Proof.
  apply (main_summary_reconciles env_decorated_answer [ana; ben] start).
  apply nonempty_by_length. vm_compute. discriminate.
Defined.

(** X15.  What a run persists is what it delivers: the rows of the bulk
    insert and the webhook payloads correspond one to one, in order, with
    the same name, job title, company, email, phone and persona; every row
    has the status "Not Contacted" and a persona that passes the validation
    pattern. *)
Theorem main_persists_what_it_delivers (env : Env) (leads : list Lead)
    (w : World) :
  newLeads (filterDuplicates env leads w).2 ≠ [] →
  ∃ w' pre rows payloads,
    main env (Resolved leads) w = Some (w', Returned) ∧
    calls w' = calls w ++ pre ++ [CallInsert rows] ++ (CallPost <$> payloads) ∧
    Forall2 (λ r p,
               row_first_name r = pl_first_name p ∧
               row_last_name r = pl_last_name p ∧
               row_job_title r = pl_job_title p ∧
               row_company r = pl_company p ∧
               row_email r = pl_email p ∧
               row_phone r = pl_phone p ∧
               row_persona r = pl_persona p) rows payloads ∧
    Forall (λ r, row_lead_status r = "Not Contacted" ∧
                 matches_persona (row_persona r) = true) rows.
Proof.
  intros Hsome.
  destruct (main_summary env leads w Hsome) as (w' & Hrun & Hc & _).
  set (d := (filterDuplicates env leads w).2) in *.
  set (cs := classified_by env (newLeads d)
               (calls w ++ [CallSelect (emails_of leads)])) in *.
  exists w', ([CallSelect (emails_of leads)]
                ++ (CallClassify ∘ to_prompt <$> newLeads d)),
    (to_row <$> cs), (to_payload <$> cs).
  split_and!; [done| | |].
  - rewrite Hc, <- !(assoc_L (++)), <- list_fmap_compose. done.
  - apply Forall2_fmap, Forall_Forall2_diag, Forall_forall. by intros c _.
  - apply Forall_fmap, Forall_forall. intros c Hin. simpl. split; [done|].
    unfold cs, classified_by, outputs in Hin.
    apply list_elem_of_fmap in Hin as (p & -> & _).
    apply persona_of_reply_matches.
Qed.

Lemma main_persists_what_it_delivers_witness :
  ∃ w' pre rows payloads,
    main env_ben_undeliverable (Resolved [ana; ben]) start
      = Some (w', Returned) ∧
    calls w' = calls start ++ pre ++ [CallInsert rows]
                 ++ (CallPost <$> payloads) ∧
    Forall2 (λ r p,
               row_first_name r = pl_first_name p ∧
               row_last_name r = pl_last_name p ∧
               row_job_title r = pl_job_title p ∧
               row_company r = pl_company p ∧
               row_email r = pl_email p ∧
               row_phone r = pl_phone p ∧
               row_persona r = pl_persona p) rows payloads ∧
    Forall (λ r, row_lead_status r = "Not Contacted" ∧
                 matches_persona (row_persona r) = true) rows.
Proof.
  apply (main_persists_what_it_delivers env_ben_undeliverable [ana; ben]
           start).
  apply nonempty_by_length. vm_compute. discriminate.
Defined.

(** ** The sequential version *)

Section LegacyFacts.
Variable env : Legacy.Env.

Lemma legacy_isDuplicate_spec (email : value) (w : Legacy.World) :
  let r := Legacy.isDuplicate env email w in
  r.2 = Legacy.found (Legacy.store_lookup env (Legacy.calls w) email) ∧
  Legacy.calls r.1 = Legacy.calls w ++ [Legacy.CallLookup email].
Proof.
  unfold Legacy.isDuplicate, Legacy.bind, Legacy.request, Legacy.found. simpl.
  destruct (Legacy.store_lookup env (Legacy.calls w) email)
    as [[[d|] [err|]]|e]; simpl; try case_decide; simpl;
    repeat case_bool_decide; split; done.
Qed.

Lemma legacy_classifyLead_spec (lead : Lead) (w : Legacy.World) :
  let r := Legacy.classifyLead env lead w in
  r.2 = persona_of_reply
          (Legacy.messages_create env (Legacy.calls w) (to_prompt lead)) ∧
  Legacy.calls r.1
    = Legacy.calls w ++ [Legacy.CallClassify (to_prompt lead)].
Proof.
  unfold Legacy.classifyLead, Legacy.bind, Legacy.request, persona_of_reply.
  simpl.
  destruct (Legacy.messages_create env (Legacy.calls w) (to_prompt lead))
    as [message|e]; simpl; [|done].
  destruct (message !! 0) as [[text|]|]; simpl; [|done..].
  by destruct (matches_persona (trim text)).
Qed.

Lemma legacy_addLeadToDatabase_spec (lead : Lead) (persona : string)
    (w : Legacy.World) :
  let row := to_row (mkClassified lead persona) in
  let r := Legacy.addLeadToDatabase env lead persona w in
  r.2 = insert_ok (Legacy.store_insert env (Legacy.calls w) row) ∧
  Legacy.calls r.1 = Legacy.calls w ++ [Legacy.CallInsert row].
Proof.
  unfold Legacy.addLeadToDatabase, Legacy.bind, Legacy.request. simpl.
  by destruct (Legacy.store_insert env (Legacy.calls w) _) as [[[e|]]|e].
Qed.

Lemma legacy_sendToWebhook_spec (lead : Lead) (persona : string)
    (w : Legacy.World) :
  let payload := to_payload (mkClassified lead persona) in
  let r := Legacy.sendToWebhook env lead persona w in
  r.2 = acknowledged (Legacy.axios_post env (Legacy.calls w) payload) ∧
  Legacy.calls r.1 = Legacy.calls w ++ [Legacy.CallPost payload].
Proof.
  unfold Legacy.sendToWebhook, Legacy.bind, Legacy.request. simpl.
  destruct (Legacy.axios_post env (Legacy.calls w) _) as [status|e]; simpl;
    [|done].
  case_decide; simpl.
  - by rewrite bool_decide_eq_true_2.
  - by rewrite bool_decide_eq_false_2.
Qed.
End LegacyFacts.

Lemma legacy_processLead_cases (env : Legacy.Env) (lead : Lead)
    (index total : nat) (w : Legacy.World) :
  let h := Legacy.calls w in
  let lookup := Legacy.CallLookup (get lead "Email") in
  let persona :=
    persona_of_reply
      (Legacy.messages_create env (h ++ [lookup]) (to_prompt lead)) in
  let c := mkClassified lead persona in
  let h2 := h ++ [lookup; Legacy.CallClassify (to_prompt lead)] in
  let r := Legacy.processLead env lead index total w in
  (Legacy.found (Legacy.store_lookup env h (get lead "Email")) = true ∧
   r.2 = Legacy.Skipped ∧ Legacy.calls r.1 = h ++ [lookup])
  ∨ (Legacy.found (Legacy.store_lookup env h (get lead "Email")) = false ∧
     insert_ok (Legacy.store_insert env h2 (to_row c)) = false ∧
     r.2 = Legacy.Failed ∧
     Legacy.calls r.1 = h2 ++ [Legacy.CallInsert (to_row c)])
  ∨ (Legacy.found (Legacy.store_lookup env h (get lead "Email")) = false ∧
     insert_ok (Legacy.store_insert env h2 (to_row c)) = true ∧
     r.2 = Legacy.Success persona
             (acknowledged
                (Legacy.axios_post env (h2 ++ [Legacy.CallInsert (to_row c)])
                   (to_payload c))) ∧
     Legacy.calls r.1
       = h2 ++ [Legacy.CallInsert (to_row c); Legacy.CallPost (to_payload c)]).
Proof.
  intros h lookup persona c h2. subst h2.
  unfold Legacy.processLead, Legacy.bind, Legacy.log, Legacy.ret. simpl.
  match goal with
  | |- context [Legacy.isDuplicate env ?e ?w0] =>
      pose proof (legacy_isDuplicate_spec env e w0) as [Hd Hc1];
      destruct (Legacy.isDuplicate env e w0) as [w2 dup]
  end.
  simpl in Hd, Hc1. fold h lookup in Hd, Hc1. rewrite <- Hd.
  destruct dup; [by left|]. right.
  match goal with
  | |- context [Legacy.classifyLead env lead ?w0] =>
      pose proof (legacy_classifyLead_spec env lead w0) as [Hp Hc3];
      destruct (Legacy.classifyLead env lead w0) as [w4 persona']
  end.
  simpl in Hp, Hc3. rewrite Hc1 in Hp, Hc3. fold persona in Hp. subst persona'.
  rewrite <- app_assoc in Hc3. simpl in Hc3.
  match goal with
  | |- context [Legacy.addLeadToDatabase env lead persona ?w0] =>
      pose proof (legacy_addLeadToDatabase_spec env lead persona w0)
        as [Ho Hc5];
      destruct (Legacy.addLeadToDatabase env lead persona w0) as [w6 ok]
  end.
  simpl in Ho, Hc5. rewrite Hc3 in Ho, Hc5. fold c in Ho, Hc5. rewrite <- Ho.
  destruct ok; simpl; [right|by left].
  match goal with
  | |- context [Legacy.sendToWebhook env lead persona ?w0] =>
      pose proof (legacy_sendToWebhook_spec env lead persona w0) as [Ha Hc7];
      destruct (Legacy.sendToWebhook env lead persona w0) as [w8 ack]
  end.
  simpl in Ha, Hc7. rewrite Hc5 in Ha, Hc7. fold c in Ha, Hc7.
  rewrite <- Ha.
  destruct ack; simpl; by rewrite Hc7, <- app_assoc.
Qed.

(** X16.  How the sequential [processLead] gates its steps.  A lead the
    lookup finds is skipped after that one request: it is not classified,
    inserted or delivered.  Any other lead (also when the lookup fails) is
    classified and inserted; if the insert fails the lead is not delivered
    and counts as failed; if it succeeds the lead is delivered once and
    counts as a success whether or not the webhook acknowledges. *)
Theorem legacy_processLead_gating (env : Legacy.Env) (lead : Lead)
    (index total : nat) (w : Legacy.World) :
  let h := Legacy.calls w in
  let lookup := Legacy.CallLookup (get lead "Email") in
  let persona :=
    persona_of_reply
      (Legacy.messages_create env (h ++ [lookup]) (to_prompt lead)) in
  let c := mkClassified lead persona in
  let h2 := h ++ [lookup; Legacy.CallClassify (to_prompt lead)] in
  let r := Legacy.processLead env lead index total w in
  if Legacy.found (Legacy.store_lookup env h (get lead "Email")) then
    r.2 = Legacy.Skipped ∧ Legacy.calls r.1 = h ++ [lookup]
  else if insert_ok (Legacy.store_insert env h2 (to_row c)) then
    r.2 = Legacy.Success persona
            (acknowledged
               (Legacy.axios_post env (h2 ++ [Legacy.CallInsert (to_row c)])
                  (to_payload c))) ∧
    Legacy.calls r.1
      = h2 ++ [Legacy.CallInsert (to_row c); Legacy.CallPost (to_payload c)]
  else
    r.2 = Legacy.Failed ∧
    Legacy.calls r.1 = h2 ++ [Legacy.CallInsert (to_row c)].
Proof.
  cbv zeta.
  destruct (legacy_processLead_cases env lead index total w)
    as [(Hf & Hr & Hc)|[(Hf & Hi & Hr & Hc)|(Hf & Hi & Hr & Hc)]].
  - by rewrite Hf.
  - by rewrite Hf, Hi.
  - by rewrite Hf, Hi.
Qed.


Lemma legacy_processLead_counts (env : Legacy.Env) (lead : Lead)
    (index total : nat) (w : Legacy.World) :
  let r := Legacy.processLead env lead index total w in
  ∃ new,
    Legacy.calls r.1 = Legacy.calls w ++ new ∧
    length (filter Legacy.is_lookup new) = 1 ∧
    length (filter Legacy.is_classify new)
      = (if r.2 is Legacy.Skipped then 0 else 1) ∧
    length (filter Legacy.is_insert new)
      = (if r.2 is Legacy.Skipped then 0 else 1) ∧
    length (filter Legacy.is_post new)
      = (if r.2 is Legacy.Success _ _ then 1 else 0).
Proof.
  cbv zeta.
  destruct (legacy_processLead_cases env lead index total w)
    as [(_ & -> & ->)|[(_ & _ & -> & Hc)|(_ & _ & -> & Hc)]].
  - eexists. split; [done|]. done.
  - rewrite <- app_assoc in Hc. eexists. split; [exact Hc|]. done.
  - rewrite <- app_assoc in Hc. eexists. split; [exact Hc|]. done.
Qed.

Lemma persona_total_count_persona (m : gmap string nat) (p : string) :
  Legacy.persona_total (count_persona m p) ≤ Legacy.persona_total m + 1.
Proof.
  unfold count_persona, Legacy.persona_total.
  destruct (m !! p) as [n|] eqn:Hp; [|lia].
  rewrite !lookup_insert.
  repeat case_decide; subst; rewrite ?Hp; simpl; try done; lia.
Qed.

Lemma legacy_main_loop_spec (env : Legacy.Env) (rest : list Lead)
    (i tot : nat) (results : Legacy.Results) (w : Legacy.World) :
  let r := Legacy.main_loop env rest i tot results w in
  ∃ new np ns nf,
    Legacy.calls r.1 = Legacy.calls w ++ new ∧
    Legacy.total r.2 = Legacy.total results ∧
    Legacy.processed r.2 = Legacy.processed results + np ∧
    Legacy.skipped r.2 = Legacy.skipped results + ns ∧
    Legacy.failed r.2 = Legacy.failed results + nf ∧
    np + ns + nf = length rest ∧
    Legacy.persona_total (Legacy.byPersona r.2)
      ≤ Legacy.persona_total (Legacy.byPersona results) + np ∧
    length (filter Legacy.is_lookup new) = length rest ∧
    length (filter Legacy.is_classify new) = np + nf ∧
    length (filter Legacy.is_insert new) = np + nf ∧
    length (filter Legacy.is_post new) = np.
Proof.
  revert i results w. induction rest as [|lead rest IH]; intros i results w.
  - exists [], 0, 0, 0. simpl. rewrite app_nil_r.
    split_and!; try done; lia.
  - simpl. unfold Legacy.bind.
    pose proof (legacy_processLead_counts env lead i tot w)
      as (new1 & Hc1 & Hl1 & Hk1 & Hi1 & Hp1).
    destruct (Legacy.processLead env lead i tot w) as [w1 o]. simpl in *.
    destruct (IH (S i) (Legacy.record_outcome results o) w1)
      as (new2 & np & ns & nf & Hc2 & Ht & Hpr & Hsk & Hfa & Hsum
          & Hper & Hl2 & Hk2 & Hi2 & Hp2).
    destruct (Legacy.main_loop env rest (S i) tot _ w1) as [w2 res].
    simpl in *.
    exists (new1 ++ new2).
    destruct o as [| |persona ack]; simpl in *.
    + exists np, (S ns), nf.
      rewrite !filter_app, !length_app, Hc2, Hc1, (assoc_L (++)).
      split_and!; try done; try lia.
    + exists np, ns, (S nf).
      rewrite !filter_app, !length_app, Hc2, Hc1, (assoc_L (++)).
      split_and!; try done; try lia.
    + exists (S np), ns, nf.
      rewrite !filter_app, !length_app, Hc2, Hc1, (assoc_L (++)).
      pose proof (persona_total_count_persona (Legacy.byPersona results)
                    persona).
      split_and!; try done; try lia.
Qed.

Lemma persona_total_count_known (m : gmap string nat) (p : string) :
  p ∈ personas → is_Some (m !! p) →
  Legacy.persona_total (count_persona m p) = Legacy.persona_total m + 1.
Proof.
  intros Hp [n Hn]. unfold count_persona, Legacy.persona_total.
  rewrite Hn, !lookup_insert.
  unfold personas in Hp.
  repeat (apply elem_of_cons in Hp as [->|Hp]);
    [| | | |by apply elem_of_nil in Hp];
    repeat case_decide; try done; rewrite Hn; simpl; lia.
Qed.

Lemma count_persona_keeps_keys (m : gmap string nat) (p q : string) :
  is_Some (m !! q) → is_Some (count_persona m p !! q).
Proof.
  intros Hq. unfold count_persona. destruct (m !! p) eqn:Hp; [|done].
  rewrite lookup_insert. by case_decide.
Qed.

Lemma legacy_processLead_persona (env : Legacy.Env) (lead : Lead)
    (index total : nat) (w : Legacy.World) (p : string) (ack : bool) :
  (Legacy.processLead env lead index total w).2 = Legacy.Success p ack →
  ∃ h, p = persona_of_reply (Legacy.messages_create env h (to_prompt lead)).
Proof.
  intros Hr.
  destruct (legacy_processLead_cases env lead index total w)
    as [(_ & Hs & _)|[(_ & _ & Hs & _)|(_ & _ & Hs & _)]];
    rewrite Hr in Hs; [done|done|].
  injection Hs as -> _. eauto.
Qed.

Lemma legacy_main_loop_breakdown (env : Legacy.Env) (rest : list Lead)
    (i tot : nat) (results : Legacy.Results) (w : Legacy.World) :
  (∀ h p, persona_of_reply (Legacy.messages_create env h p) ∈ personas) →
  (∀ p, p ∈ personas → is_Some (Legacy.byPersona results !! p)) →
  let r := Legacy.main_loop env rest i tot results w in
  Legacy.persona_total (Legacy.byPersona r.2) + Legacy.processed results
  = Legacy.persona_total (Legacy.byPersona results) + Legacy.processed r.2.
Proof.
  intros Hbare. revert i results w.
  induction rest as [|lead rest IH]; intros i results w Hkeys; simpl.
  - lia.
  - unfold Legacy.bind.
    pose proof (legacy_processLead_persona env lead i tot w) as Hp.
    destruct (Legacy.processLead env lead i tot w) as [w1 o]. simpl in Hp.
    specialize (IH (S i) (Legacy.record_outcome results o) w1).
    destruct o as [| |persona ack]; simpl in *.
    + by apply IH.
    + by apply IH.
    + destruct (Hp persona ack eq_refl) as [h ->].
      match type of IH with
      | ?P → _ =>
          assert P as Hk
            by (intros q Hq; by apply count_persona_keeps_keys, Hkeys)
      end.
      specialize (IH Hk).
      rewrite persona_total_count_known in IH;
        [lia|apply Hbare|apply Hkeys, Hbare].
Qed.

Lemma byPersona_init_keys (p : string) :
  p ∈ personas → is_Some (byPersona_init !! p).
Proof.
  unfold personas. intros Hp.
  repeat (apply elem_of_cons in Hp as [->|Hp]);
    [| | | |by apply elem_of_nil in Hp]; by eexists.
Qed.

(** X17.  The sequential [main] on a readable file returns normally
    whatever the services do, and its counters reconcile: every lead is
    counted exactly once as processed, skipped or failed; there is one
    lookup per lead, one classification and one insert per lead that was
    not skipped, and one delivery per lead that was inserted.  The persona
    breakdown never exceeds the processed count. *)
Theorem legacy_main_accounting (env : Legacy.Env) (leads : list Lead)
    (w : Legacy.World) :
  let r := Legacy.main env (Resolved leads) w in
  r.2 = Returned ∧
  ∃ res pre new,
    Legacy.console r.1
      = pre ++ [Legacy.LogSummary res; Legacy.LogFinished] ∧
    Legacy.calls r.1 = Legacy.calls w ++ new ∧
    Legacy.total res = length leads ∧
    Legacy.processed res + Legacy.skipped res + Legacy.failed res
      = length leads ∧
    Legacy.persona_total (Legacy.byPersona res) ≤ Legacy.processed res ∧
    length (filter Legacy.is_lookup new) = length leads ∧
    length (filter Legacy.is_classify new)
      = Legacy.processed res + Legacy.failed res ∧
    length (filter Legacy.is_insert new)
      = Legacy.processed res + Legacy.failed res ∧
    length (filter Legacy.is_post new) = Legacy.processed res.
Proof.
  unfold Legacy.main, Legacy.readCSV, Legacy.bind, Legacy.log, Legacy.ret.
  simpl.
  match goal with
  | |- context [Legacy.main_loop env leads 0 ?t ?r0 ?w0] =>
      pose proof (legacy_main_loop_spec env leads 0 t r0 w0)
        as (new & np & ns & nf & Hc & Ht & Hpr & Hsk & Hfa & Hsum & Hper
            & Hl & Hk & Hi & Hp);
      destruct (Legacy.main_loop env leads 0 t r0 w0) as [w1 res]
  end.
  simpl in *. split; [done|].
  exists res, (Legacy.console w1
               ++ [Legacy.LogBanner "AUTOMATION COMPLETE - SUMMARY"]), new.
  rewrite <- !app_assoc.
  split_and!; try done; try lia.
  change (Legacy.persona_total byPersona_init) with 0 in Hper. lia.
Qed.


(** X18.  When the classifier only ever answers with one of the four bare
    persona names (or fails), the breakdown the sequential [main] prints
    adds up to the processed count. *)
Theorem legacy_breakdown_exact (env : Legacy.Env) (leads : list Lead)
    (w : Legacy.World) :
  (∀ h p, persona_of_reply (Legacy.messages_create env h p) ∈ personas) →
  ∃ res pre,
    Legacy.console (Legacy.main env (Resolved leads) w).1
      = pre ++ [Legacy.LogSummary res; Legacy.LogFinished] ∧
    Legacy.persona_total (Legacy.byPersona res) = Legacy.processed res.
Proof.
  intros Hbare.
  unfold Legacy.main, Legacy.readCSV, Legacy.bind, Legacy.log, Legacy.ret.
  simpl.
  match goal with
  | |- context [Legacy.main_loop env leads 0 ?t ?r0 ?w0] =>
      pose proof (legacy_main_loop_breakdown env leads 0 t r0 w0 Hbare
                    byPersona_init_keys) as Hb;
      destruct (Legacy.main_loop env leads 0 t r0 w0) as [w1 res]
  end.
  simpl in *.
  exists res, (Legacy.console w1
               ++ [Legacy.LogBanner "AUTOMATION COMPLETE - SUMMARY"]).
  rewrite <- !app_assoc. split; [done|].
  change (Legacy.persona_total byPersona_init) with 0 in Hb. lia.
Qed.

Lemma legacy_breakdown_exact_witness :
  ∃ res pre,
    Legacy.console
      (Legacy.main Legacy.env_open (Resolved [ana; ben]) Legacy.start).1
      = pre ++ [Legacy.LogSummary res; Legacy.LogFinished] ∧
    Legacy.persona_total (Legacy.byPersona res) = Legacy.processed res ∧
    Legacy.processed res = 2.
Proof.
  destruct (legacy_breakdown_exact Legacy.env_open [ana; ben] Legacy.start)
    as (res & pre & Hc & Hsum).
  { intros h p. vm_compute. repeat constructor. }
  exists res, pre. split_and!; [done|done|].
  apply (f_equal (λ l, Legacy.processed <$>
                         (match reverse l !! 1 with
                          | Some (Legacy.LogSummary r) => Some r
                          | _ => None
                          end))) in Hc.
  rewrite reverse_app in Hc. vm_compute in Hc. injection Hc as Hc.
  symmetry. exact Hc.
Defined.

(** X19.  The two versions classify alike: given the same reply of the
    service, [classifyLead] of the batched script resolves with the persona
    the sequential [classifyLead] returns. *)
Theorem classifyLead_versions_agree (env : Env) (old : Legacy.Env)
    (lead : Lead) (w w' : World) (v : Legacy.World) :
  (messages_create env (calls w) (to_prompt lead)).2
    = Legacy.messages_create old (Legacy.calls v) (to_prompt lead) →
  (finish (classifyLead env lead w).2 w').2
    = Resolved (Legacy.classifyLead old lead v).2.
Proof.
  intros Hreply.
  destruct (classifyLead_finish env lead w w') as [-> _].
  destruct (legacy_classifyLead_spec old lead v) as [-> _].
  by rewrite Hreply.
Qed.

Lemma classifyLead_versions_agree_witness :
  (finish (classifyLead (sample_env [] " Persona 2 "
                           (Resolved (mkInsertReply None))
                           (λ _, Resolved 200)) ana start).2 start).2
  = Resolved (Legacy.classifyLead Legacy.sample_env ana Legacy.start).2.
Proof.
  apply (classifyLead_versions_agree _ Legacy.sample_env ana start start
           Legacy.start).
  reflexivity.
Defined.

(** X20.  The sequential [main] ends through [process.exit(1)] exactly when
    the input file cannot be read or parsed; no failure of the store, the
    classifier or the webhook makes it do so.  In that case it has made no
    request and printed the read error followed by the fatal error. *)
Theorem legacy_main_exit_status (env : Legacy.Env)
    (csv : Settled (list Lead)) (w : Legacy.World) :
  ((Legacy.main env csv w).2 = Exit1 ↔ ∃ e, csv = Rejected e) ∧
  ∀ e, csv = Rejected e →
    Legacy.calls (Legacy.main env csv w).1 = Legacy.calls w ∧
    Legacy.console (Legacy.main env csv w).1
      = Legacy.console w
        ++ [Legacy.LogBanner "LEAD CLASSIFICATION AUTOMATION";
            Legacy.LogReadingCsv; Legacy.LogCsvError e; Legacy.LogFatal e].
Proof.
  destruct csv as [leads|e].
  - unfold Legacy.main, Legacy.readCSV, Legacy.bind, Legacy.log, Legacy.ret.
    simpl. destruct (Legacy.main_loop env leads 0 _ _ _) as [w1 res]. simpl.
    split; [|done]. split; [done|]. by intros [e ?].
  - split; [split; [by eauto|done]|].
    intros e' [= <-]. unfold Legacy.main, Legacy.readCSV, Legacy.bind,
      Legacy.log, Legacy.ret. simpl. by rewrite <- !app_assoc.
Qed.

(** ** The connection checks *)

(** X21.  When both constructors return, [runTests] resolves and its last
    line is the completion line, whatever the three services answer: the
    line says that the checks ran, not that they passed.  The run makes the
    head count, the test prompt only when an API key is set and the test
    post only when a webhook URL is set, in this order, and nothing else. *)
Theorem runTests_completes_regardless (env : Checks.Env) (w : Checks.World) :
  Checks.createClient env = None →
  Checks.new_Anthropic env = None →
  ∃ w',
    Checks.runTests env w = (w', Checks.Answered ()) ∧
    last (Checks.console w') = Some Checks.LogAllComplete ∧
    Checks.calls w' = Checks.calls w ++ Checks.expected_calls env.
Proof.
  intros Hc Ha.
  unfold Checks.runTests, Checks.testSupabase, Checks.testClaude,
    Checks.testWebhook, Checks.expected_calls, Checks.bind, Checks.log,
    Checks.request, Checks.ret.
  rewrite Hc, Ha. simpl.
  destruct (Checks.store_head env (Checks.calls w)) as [[e1|]|e1]; simpl;
    (destruct (Checks.ANTHROPIC_API_KEY env) as [[|a k]|]; simpl;
     [|destruct (Checks.messages_create env _) as [m|e2]; simpl;
       [destruct (m !! 0); simpl|]|]);
    (destruct (Checks.WEBHOOK_URL env) as [[|b u]|]; simpl;
     [|destruct (Checks.axios_post env _ _) as [st|e3]; simpl;
       [|case_decide; simpl]|]);
    eexists; (split; [reflexivity|]); simpl;
    rewrite ?last_snoc, <- ?app_assoc, ?app_nil_r; done.
Qed.

Lemma runTests_completes_regardless_witness :
  ∃ w',
    Checks.runTests Checks.env_all_down Checks.start
      = (w', Checks.Answered ()) ∧
    last (Checks.console w') = Some Checks.LogAllComplete ∧
    Checks.calls w'
      = Checks.calls Checks.start ++ Checks.expected_calls Checks.env_all_down.
Proof.
  apply (runTests_completes_regardless Checks.env_all_down Checks.start);
    reflexivity.
Defined.

(** X22.  [testSupabase] creates its client outside the [try]: when
    [createClient] throws, [runTests] rejects with that error right after
    the first heading.  No request is made, the other two connections are
    not tested, and neither an error line nor the completion line is
    printed. *)
Theorem runTests_stops_without_client (env : Checks.Env) (w : Checks.World)
    (e : Checks.Thrown) :
  Checks.createClient env = Some e →
  Checks.runTests env w
  = (Checks.mkWorld (Checks.calls w)
       (Checks.console w ++ [Checks.LogStarting; Checks.LogTestingSupabase]),
     Checks.Threw e).
Proof.
  intros Hc.
  unfold Checks.runTests, Checks.testSupabase, Checks.bind, Checks.log,
    Checks.throw.
  rewrite Hc. simpl. by rewrite <- app_assoc.
Qed.

Lemma runTests_stops_without_client_witness :
  Checks.runTests Checks.env_no_client Checks.start
  = (Checks.mkWorld []
       [Checks.LogStarting; Checks.LogTestingSupabase],
     Checks.Threw (Checks.mkThrown None None "supabaseUrl is required.")).
Proof.
  apply (runTests_stops_without_client Checks.env_no_client Checks.start).
  reflexivity.
Defined.
